(** * Golf-Calculators: the Hardy shot-count model of [core.py]

    A shallow embedding of [simulate_hole_hardy], [simulate_many_holes],
    [hardy_distribution_markov] and [hardy_finish_pmf_ij], and of the
    JavaScript port in [web_app.py], followed by their properties.

    Conventions of the embedding.
    - Python [int]s are [Z].
    - The solvers compute on [float64].  They are embedded twice:
      the definitions [hardy_distribution_markov], [hardy_finish_pmf_ij]
      (and [WebApp.hardyFinishPMF]) are the exact-arithmetic reading, the
      same statements run on exact rationals [Q] with [Qeq]/[Qle] (the
      test [prob_here == 0] is [Qeq_bool]); [Binary64.hardy_distribution_markov]
      and [Binary64.hardy_finish_pmf_ij] run them on IEEE binary64 with its
      rounding.  Both are instances of one text over an arithmetic
      ([Generic], lemmas [exact_hardy_distribution_markov] and
      [exact_hardy_finish_pmf_ij]).  What a theorem about the exact
      reading says of numerical values holds for the returned doubles
      only up to rounding; the theorems of section "Rounding" show where
      rounding breaks it.
    - A one-dimensional NumPy array is a list; every subscript goes
      through [np_index], which wraps negative subscripts and raises
      [IndexError] out of range, as NumPy does.
    - Python exceptions are the [Raise] case of [result]; the programs are
      written in the [result] monad with stdpp's [x ← m; k] notation. *)

From Stdlib Require Import ZArith QArith Qpower Qround Lqa Lia Floats.
From stdpp Require Import base option list sorting gmap.

Local Open Scope Z_scope.

(** ** Exceptions and the error monad *)

Inductive exn : Type :=
  | ValueError
  | IndexError
  | RuntimeError.

Inductive result (A : Type) : Type :=
  | Ok (a : A)
  | Raise (e : exn).
Arguments Ok {A} a.
Arguments Raise {A} e.

#[global] Instance result_ret : MRet result := fun A a => Ok a.
#[global] Instance result_bind : MBind result := fun A B f m =>
  match m with
  | Ok a => f a
  | Raise e => Raise e
  end.

(** [for x in xs: st = body x st], stopping at the first exception. *)
Fixpoint for_each {A S : Type} (body : A → S → result S) (xs : list A) (st : S)
  : result S :=
  match xs with
  | [] => Ok st
  | x :: xs' => st' ← body x st; for_each body xs' st'
  end.

(** ** The NumPy and Python primitives the module uses *)

Definition Qltb (x y : Q) : bool := negb (Qle_bool y x).

(** [range(a, b)] and [np.arange(a, b)]. *)
Definition range (a b : Z) : list Z := seqZ a (b - a).
Definition np_arange (a b : Z) : list Z := seqZ a (b - a).

(** [np.zeros(n)]: a negative dimension is a [ValueError]. *)
Definition np_zeros (n : Z) : result (list Q) :=
  if n <? 0 then Raise ValueError else Ok (replicate (Z.to_nat n) 0%Q).

Definition np_zeros_like {A : Type} (a : list A) : list Q :=
  replicate (length a) 0%Q.

(** Subscript resolution: [-len <= k < 0] counts from the end. *)
Definition np_index (a : list Q) (k : Z) : result nat :=
  let n := Z.of_nat (length a) in
  if (0 <=? k) && (k <? n) then Ok (Z.to_nat k)
  else if (- n <=? k) && (k <? 0) then Ok (Z.to_nat (k + n))
  else Raise IndexError.

(** [a[k]] *)
Definition np_get (a : list Q) (k : Z) : result Q :=
  i ← np_index a k;
  match a !! i with
  | Some x => Ok x
  | None => Raise IndexError
  end.

(** [a[k] = x] *)
Definition np_set (a : list Q) (k : Z) (x : Q) : result (list Q) :=
  i ← np_index a k; Ok (<[i:=x]> a).

(** [a[k] += x] *)
Definition np_add_at (a : list Q) (k : Z) (x : Q) : result (list Q) :=
  y ← np_get a k; np_set a k (y + x)%Q.

(** The check shared by the three entry points:
    [p < 0 or q < 0 or p + q >= 1]. *)
Definition bad_probs (p q : Q) : bool :=
  Qltb p 0 || Qltb q 0 || Qle_bool 1 (p + q).

(** ** [simulate_hole_hardy] *)

(** The result of [rng.choice(3, p=probs)]: an index into
    [probs = [p, q, 1 - p - q]] and [values = [2, 0, 1]]. *)
Inductive shot_type : Type :=
  | Good      (* index 0 *)
  | Bad       (* index 1 *)
  | Ordinary. (* index 2 *)

(** [values[shot_type]] *)
Definition values (t : shot_type) : Z :=
  match t with
  | Good => 2
  | Bad => 0
  | Ordinary => 1
  end.

(** A pseudorandom generator: the sequence of outcomes it will produce and
    how many of them have been consumed. *)
Record Generator : Type := mkGenerator {
  stream : nat → shot_type;
  drawn : nat
}.

Definition rng_choice (rng : Generator) : shot_type * Generator :=
  (stream rng (drawn rng), mkGenerator (stream rng) (S (drawn rng))).

(** The [while total_value < par_m] loop; [None] only when [fuel] runs out. *)
Fixpoint simulate_loop (fuel : nat) (par_m max_shots : Z)
    (total_value score : Z) (rng : Generator) : option (result Z * Generator) :=
  match fuel with
  | O => None
  | S fuel' =>
    if total_value <? par_m then
      let '(shot, rng) := rng_choice rng in
      let total_value := total_value + values shot in
      let score := score + 1 in
      if score >? max_shots then Some (Raise RuntimeError, rng)
      else simulate_loop fuel' par_m max_shots total_value score rng
    else Some (Ok score, rng)
  end.

(** [simulate_hole_hardy(par_m, p, q, rng, max_shots)].  The result comes
    with the generator as the call leaves it.  With [rng=None] the source
    creates a fresh generator, which is some [Generator]; [max_shots]
    defaults to 19. *)
Definition simulate_hole_hardy (fuel : nat) (par_m : Z) (p q : Q)
    (rng : Generator) (max_shots : Z) : option (result Z * Generator) :=
  if bad_probs p q then Some (Raise ValueError, rng)
  else simulate_loop fuel par_m max_shots 0 0 rng.

(** ** [hardy_distribution_markov] *)

Section SingleBoundary.
Variables (par_m : Z) (probs_good probs_bad probs_ord : Q).

(** Body of [for s in range(par_m)]; the loop state is the pair of arrays
    it mutates, [(pmf, p_state_next)]. *)
Definition hdm_state_body (p_state : list Q) (shot : Z) (s : Z)
    (st : list Q * list Q) : result (list Q * list Q) :=
  let '(pmf, p_state_next) := st in
  prob_here ← np_get p_state s;
  if Qeq_bool prob_here 0 then Ok (pmf, p_state_next)
  else
    let new_val := s + 2 in
    '(pmf, p_state_next) ←
      (if new_val >=? par_m
       then pmf ← np_add_at pmf (shot - 1) (prob_here * probs_good)%Q;
            Ok (pmf, p_state_next)
       else p_state_next ←
              np_add_at p_state_next new_val (prob_here * probs_good)%Q;
            Ok (pmf, p_state_next));
    let new_val := s + 1 in
    '(pmf, p_state_next) ←
      (if new_val >=? par_m
       then pmf ← np_add_at pmf (shot - 1) (prob_here * probs_ord)%Q;
            Ok (pmf, p_state_next)
       else p_state_next ←
              np_add_at p_state_next new_val (prob_here * probs_ord)%Q;
            Ok (pmf, p_state_next));
    p_state_next ← np_add_at p_state_next s (prob_here * probs_bad)%Q;
    Ok (pmf, p_state_next).

(** Body of [for shot in range(1, n_max + 1)]; the loop state is
    [(pmf, p_state)]. *)
Definition hdm_shot_body (shot : Z) (st : list Q * list Q)
    : result (list Q * list Q) :=
  let '(pmf, p_state) := st in
  let p_state_next := np_zeros_like p_state in
  '(pmf, p_state_next) ←
    for_each (hdm_state_body p_state shot) (range 0 par_m)
             (pmf, p_state_next);
  Ok (pmf, p_state_next).
End SingleBoundary.

Definition hardy_distribution_markov (par_m : Z) (p q : Q) (n_max : Z)
    : result (list Z * list Q) :=
  if bad_probs p q then Raise ValueError
  else
    let probs_good := p in
    let probs_bad := q in
    let probs_ord := (1 - p - q)%Q in
    p_state ← np_zeros par_m;
    p_state ← np_set p_state 0 1%Q;
    pmf ← np_zeros n_max;
    '(pmf, p_state) ←
      for_each (hdm_shot_body par_m probs_good probs_bad probs_ord)
               (range 1 (n_max + 1)) (pmf, p_state);
    let scores := np_arange 1 (n_max + 1) in
    Ok (scores, pmf).


(** ** [hardy_finish_pmf_ij] *)

Section DualBoundary.
Variables (par_m j : Z) (p_good p_bad p_ord : Q).

Let ordinary_abs : Z := par_m.
Let exceptional_abs : Z := par_m + 1.

(** Body of [for s in range(par_m)]; loop state [(pmf, p_next)]. *)
Definition hfp_state_body (p_state : list Q) (shot : Z) (s : Z)
    (st : list Q * list Q) : result (list Q * list Q) :=
  let '(pmf, p_next) := st in
  prob_here ← np_get p_state s;
  if Qeq_bool prob_here 0 then Ok (pmf, p_next)
  else
    let new_val := s + 2 in
    '(pmf, p_next) ←
      (if new_val >=? exceptional_abs then
         if j =? exceptional_abs
         then pmf ← np_add_at pmf shot (prob_here * p_good)%Q;
              Ok (pmf, p_next)
         else Ok (pmf, p_next)
       else if new_val =? ordinary_abs then
         if j =? ordinary_abs
         then pmf ← np_add_at pmf shot (prob_here * p_good)%Q;
              Ok (pmf, p_next)
         else Ok (pmf, p_next)
       else
         p_next ← np_add_at p_next new_val (prob_here * p_good)%Q;
         Ok (pmf, p_next));
    let new_val := s + 1 in
    '(pmf, p_next) ←
      (if new_val >=? exceptional_abs then
         if j =? exceptional_abs
         then pmf ← np_add_at pmf shot (prob_here * p_ord)%Q;
              Ok (pmf, p_next)
         else Ok (pmf, p_next)
       else if new_val =? ordinary_abs then
         if j =? ordinary_abs
         then pmf ← np_add_at pmf shot (prob_here * p_ord)%Q;
              Ok (pmf, p_next)
         else Ok (pmf, p_next)
       else
         p_next ← np_add_at p_next new_val (prob_here * p_ord)%Q;
         Ok (pmf, p_next));
    p_next ← np_add_at p_next s (prob_here * p_bad)%Q;
    Ok (pmf, p_next).

(** Body of [for shot in range(1, n_max + 1)]; loop state
    [(pmf, p_state)]. *)
Definition hfp_shot_body (shot : Z) (st : list Q * list Q)
    : result (list Q * list Q) :=
  let '(pmf, p_state) := st in
  let p_next := np_zeros_like p_state in
  '(pmf, p_next) ←
    for_each (hfp_state_body p_state shot) (range 0 par_m) (pmf, p_next);
  Ok (pmf, p_next).
End DualBoundary.

Definition hardy_finish_pmf_ij (par_m i j : Z) (p q : Q) (n_max : Z)
    : result (list Z * list Q) :=
  if bad_probs p q then Raise ValueError
  else if par_m <? 1 then Raise ValueError
  else if negb ((0 <=? i) && (i <=? par_m + 1)) then Raise ValueError
  else if negb ((j =? par_m) || (j =? par_m + 1)) then Raise ValueError
  else
    let p_good := p in
    let p_bad := q in
    let p_ord := (1 - p - q)%Q in
    let n_array := np_arange 0 (n_max + 1) in
    let pmf := np_zeros_like n_array in
    let ordinary_abs := par_m in
    let exceptional_abs := par_m + 1 in
    let other_abs :=
      if j =? exceptional_abs then ordinary_abs else exceptional_abs in
    if i =? j then
      pmf ← np_set pmf 0 1%Q;
      Ok (n_array, pmf)
    else if i =? other_abs then Ok (n_array, pmf)
    else
      p_state ← np_zeros par_m;
      if (0 <=? i) && (i <=? par_m - 1) then
        p_state ← np_set p_state i 1%Q;
        '(pmf, p_state) ←
          for_each (hfp_shot_body par_m j p_good p_bad p_ord)
                   (range 1 (n_max + 1)) (pmf, p_state);
        Ok (n_array, pmf)
      else Ok (n_array, pmf).

(** Sum of the entries of an array. *)
Definition Qsum (a : list Q) : Q := foldr Qplus 0%Q a.

(** [a[k]] for a subscript known to be in range, [0] outside. *)
Definition at0 (a : list Q) (k : nat) : Q := default 0%Q (a !! k).

(** The value accumulated by the first [k] outcomes a generator has still
    to produce. *)
Fixpoint total_after (rng : Generator) (k : nat) : Z :=
  match k with
  | O => 0
  | S k' => total_after rng k' + values (stream rng (drawn rng + k')%nat)
  end.

(** ** The chain both solvers iterate

    [hdm_state_body] and [hfp_state_body] differ only in which absorbed
    mass they add to [pmf]; [counts new_val] says whether mass absorbed at
    [new_val >= par] is counted.  The definitions below follow the two
    bodies statement by statement on subscripts that are in range; the
    lemmas [hdm_shots_chain] and [hfp_shots_chain] relate them to the
    embedded loops. *)

(** [a[k] += x] on a subscript in range. *)
Definition add_at (a : list Q) (k : nat) (x : Q) : list Q :=
  alter (fun y => (y + x)%Q) k a.

Section Chain.
Variables (par : nat) (counts : nat → bool) (pg pb po : Q).

Definition move (k new_val : nat) (mass : Q) (st : list Q * list Q)
    : list Q * list Q :=
  if (par <=? new_val)%nat then
    if counts new_val then (add_at st.1 k mass, st.2) else st
  else (st.1, add_at st.2 new_val mass).

Definition visit (cur : list Q) (k : nat) (st : list Q * list Q) (s : nat)
    : list Q * list Q :=
  let m := at0 cur s in
  if Qeq_bool m 0 then st
  else
    let st := move k (s + 2) (m * pg)%Q st in
    let st := move k (s + 1) (m * po)%Q st in
    (st.1, add_at st.2 s (m * pb)%Q).

Definition advance (st : list Q * list Q) (k : nat) : list Q * list Q :=
  foldl (visit st.2 k) (st.1, replicate (length st.2) 0%Q) (seq 0 par).

Definition run (ks : list nat) (st : list Q * list Q) : list Q * list Q :=
  foldl advance st ks.
End Chain.

(** [hardy_distribution_markov] counts all absorbed mass. *)
Definition counts_single (new_val : nat) : bool := true.

(** [hardy_finish_pmf_ij] counts the mass absorbed at the target [j] only:
    [new_val >= par + 1] is the exceptional boundary, [new_val = par] the
    ordinary one. *)
Definition counts_dual (par : nat) (j : Z) (new_val : nat) : bool :=
  if (par + 1 <=? new_val)%nat then j =? Z.of_nat par + 1
  else j =? Z.of_nat par.

(** The lengths of the two arrays of a loop state. *)
Definition sized (n_pmf n_state : nat) (st : list Q * list Q) : Prop :=
  length st.1 = n_pmf ∧ length st.2 = n_state.

(** The precondition on the probabilities: [0 <= p], [0 <= q],
    [p + q < 1]. *)
Definition valid_probs (p q : Q) : Prop := (0 <= p ∧ 0 <= q ∧ p + q < 1)%Q.

(** Total probability mass held by a loop state [(pmf, p_state)]. *)
Definition mass (st : list Q * list Q) : Q := (Qsum st.1 + Qsum st.2)%Q.

(** All entries of an array are non-negative. *)
Definition nonneg (a : list Q) : Prop := Forall (Qle 0) a.

(** A loop state with its [pmf] cut to the first [n] entries. *)
Definition clip (n : nat) (st : list Q * list Q) : list Q * list Q :=
  (take n st.1, st.2).

(** The arrays on entry to the shot loop: a zero [pmf] of [len] entries
    and all the mass on the transient state [i]. *)
Definition start (len par i : nat) : list Q * list Q :=
  (replicate len 0%Q, <[i:=1%Q]> (replicate par 0%Q)).

(** Three loop states side by side: [s] of the single-boundary solver, [o]
    and [e] of the dual-boundary solver for the targets [par] and
    [par + 1].  They hold the same state vector, and every entry of the
    single pmf is the sum of the two dual entries one subscript later. *)
Definition merged (N : nat) (s o e : list Q * list Q) : Prop :=
  s.2 = o.2 ∧ s.2 = e.2
  ∧ length s.1 = N ∧ length o.1 = S N ∧ length e.1 = S N
  ∧ ∀ n, (at0 s.1 n == at0 o.1 (S n) + at0 e.1 (S n))%Q.

(** ** [simulate_many_holes] *)

(** [np.unique(a, return_counts=True)]: the distinct values of [a] in
    increasing order, and how often each of them occurs in [a]. *)
Definition np_unique_counts (a : list Z) : list Z * list Z :=
  let unique := merge_sort Z.le (remove_dups a) in
  (unique, (fun x => Z.of_nat (count_occ Z.eq_dec a x)) <$> unique).

(** [a.sum()] of an integer array. *)
Definition np_sum (a : list Z) : Z := foldr Z.add 0 a.

(** [a / d]: true division of every entry of an integer array.  It is
    only used with [d = a.sum()], which is positive unless [a] is empty. *)
Definition np_true_divide (a : list Z) (d : Z) : list Q :=
  (fun c => inject_Z c / inject_Z d)%Q <$> a.

Section ManyHoles.
(** [np.random.default_rng(seed)]: the generator a seed (or [None])
    gives. *)
Variable default_rng : option Z → Generator.

(** The [for _ in range(n_sim)] loop with [n] iterations to go; every hole
    is played with the default cap [max_shots = 19] on the generator the
    previous one left, and the first exception ends the loop. *)
Fixpoint smh_loop (fuel : nat) (par_m : Z) (p q : Q) (n : nat)
    (scores : list Z) (rng : Generator)
    : option (result (list Z) * Generator) :=
  match n with
  | O => Some (Ok scores, rng)
  | S n' =>
    match simulate_hole_hardy fuel par_m p q rng 19 with
    | None => None
    | Some (Raise e, rng) => Some (Raise e, rng)
    | Some (Ok s, rng) => smh_loop fuel par_m p q n' (scores ++ [s]) rng
    end
  end.

(** [simulate_many_holes(par_m, p, q, n_sim, seed)]; the dictionary it
    returns has distinct keys, so it is the finite map of the zipped
    arrays. *)
Definition simulate_many_holes (fuel : nat) (par_m : Z) (p q : Q)
    (n_sim : Z) (seed : option Z) : option (result (gmap Z Q)) :=
  let rng := default_rng seed in
  match smh_loop fuel par_m p q (Z.to_nat n_sim) [] rng with
  | None => None
  | Some (Raise e, _) => Some (Raise e)
  | Some (Ok scores, _) =>
    let '(unique, counts) := np_unique_counts scores in
    let freqs := np_true_divide counts (np_sum counts) in
    Some (Ok (list_to_map (zip unique freqs)))
  end.
End ManyHoles.

(** A state vector with no mass on the states above [B]: those entries
    are the zeros the vector was created with. *)
Definition beyond (B : nat) (a : list Q) : Prop :=
  ∀ n, (B < n)%nat → at0 a n = 0%Q.

(** ** [web_app.py]: the JavaScript port [hardyFinishPMF] and its caller

    Conventions.  The parameters [parM], [i], [j], [maxN] are JavaScript
    numbers holding integers (the caller passes [3], [4], [5], and the
    [parseInt] of two sliders), modelled as [Z]; the other numbers are
    exact rationals, as for NumPy.  An array is a [list Q] without holes:
    an operation that would read [undefined] or leave a hole ends the
    computation with [Undefined], outside of what is modelled. *)

Module WebApp.

Inductive js_exn : Type :=
  | RangeError
  | Undefined.

Inductive completion (A : Type) : Type :=
  | Normal (a : A)
  | Throw (e : js_exn).
Arguments Normal {A} a.
Arguments Throw {A} e.

#[global] Instance completion_ret : MRet completion := fun A a => Normal a.
#[global] Instance completion_bind : MBind completion := fun A B f m =>
  match m with
  | Normal a => f a
  | Throw e => Throw e
  end.

(** [for (...) st = body x st] over the values [xs] of the loop variable. *)
Fixpoint js_for {A S : Type} (body : A → S → completion S) (xs : list A)
    (st : S) : completion S :=
  match xs with
  | [] => Normal st
  | x :: xs' => st' ← body x st; js_for body xs' st'
  end.

(** The largest length of an array, [2^32 - 1]. *)
Definition max_array_length : Z := 4294967295.

(** [new Array(n).fill(0)] *)
Definition array_zeros (n : Z) : completion (list Q) :=
  if (n <? 0) || (max_array_length <? n) then Throw RangeError
  else Normal (replicate (Z.to_nat n) 0%Q).

(** [Array.from({ length: n }, (_, i) => i)]: a negative length counts
    as 0. *)
Definition array_iota (n : Z) : completion (list Z) :=
  let len := Z.max n 0 in
  if max_array_length <? len then Throw RangeError
  else Normal (seqZ 0 len).

(** [a[k]] *)
Definition array_get (a : list Q) (k : Z) : completion Q :=
  if 0 <=? k then
    match a !! Z.to_nat k with
    | Some x => Normal x
    | None => Throw Undefined
    end
  else Throw Undefined.

(** [a[k] = x]: in range it overwrites, at [k = a.length] it appends. *)
Definition array_set (a : list Q) (k : Z) (x : Q) : completion (list Q) :=
  let len := Z.of_nat (length a) in
  if (0 <=? k) && (k <? len) then Normal (<[Z.to_nat k:=x]> a)
  else if k =? len then Normal (a ++ [x])
  else Throw Undefined.

(** [a[k] += x] *)
Definition array_add_at (a : list Q) (k : Z) (x : Q) : completion (list Q) :=
  y ← array_get a k; array_set a k (y + x)%Q.

Section Loops.
Variables (parM j : Z) (pGood qBad pOrd : Q).

Let ordinaryAbs : Z := parM.
Let exceptionalAbs : Z := parM + 1.

(** Body of the first [for (let s = 0; s < parM; s++)]; loop state
    [(pmf, pNext)]. *)
Definition state_body (pState : list Q) (shot : Z) (s : Z)
    (st : list Q * list Q) : completion (list Q * list Q) :=
  let '(pmf, pNext) := st in
  probHere ← array_get pState s;
  if Qeq_bool probHere 0 then Normal (pmf, pNext)
  else
    let newVal := s + 2 in
    '(pmf, pNext) ←
      (if newVal >=? exceptionalAbs then
         if j =? exceptionalAbs
         then pmf ← array_add_at pmf shot (probHere * pGood)%Q;
              Normal (pmf, pNext)
         else Normal (pmf, pNext)
       else if newVal =? ordinaryAbs then
         if j =? ordinaryAbs
         then pmf ← array_add_at pmf shot (probHere * pGood)%Q;
              Normal (pmf, pNext)
         else Normal (pmf, pNext)
       else
         pNext ← array_add_at pNext newVal (probHere * pGood)%Q;
         Normal (pmf, pNext));
    let newVal := s + 1 in
    '(pmf, pNext) ←
      (if newVal >=? exceptionalAbs then
         if j =? exceptionalAbs
         then pmf ← array_add_at pmf shot (probHere * pOrd)%Q;
              Normal (pmf, pNext)
         else Normal (pmf, pNext)
       else if newVal =? ordinaryAbs then
         if j =? ordinaryAbs
         then pmf ← array_add_at pmf shot (probHere * pOrd)%Q;
              Normal (pmf, pNext)
         else Normal (pmf, pNext)
       else
         pNext ← array_add_at pNext newVal (probHere * pOrd)%Q;
         Normal (pmf, pNext));
    pNext ← array_add_at pNext s (probHere * qBad)%Q;
    Normal (pmf, pNext).

(** Body of the second [for (let s = 0; s < parM; s++)]:
    [pState[s] = pNext[s]]. *)
Definition copy_body (pNext : list Q) (s : Z) (pState : list Q)
    : completion (list Q) :=
  x ← array_get pNext s; array_set pState s x.

(** Body of [for (let shot = 1; shot <= maxN; shot++)]; loop state
    [(pmf, pState)]. *)
Definition shot_body (shot : Z) (st : list Q * list Q)
    : completion (list Q * list Q) :=
  let '(pmf, pState) := st in
  pNext ← array_zeros parM;
  '(pmf, pNext) ←
    js_for (state_body pState shot) (range 0 parM) (pmf, pNext);
  pState ← js_for (copy_body pNext) (range 0 parM) pState;
  Normal (pmf, pState).
End Loops.

(** [hardyFinishPMF(parM, i, j, pGood, qBad, maxN)]; the object
    [{ nArray, pmf }] it returns is the pair. *)
Definition hardyFinishPMF (parM i j : Z) (pGood qBad : Q) (maxN : Z)
    : completion (list Z * list Q) :=
  if bad_probs pGood qBad then Normal ([], [])
  else
    let pOrd := (1 - pGood - qBad)%Q in
    nArray ← array_iota (maxN + 1);
    pmf ← array_zeros (maxN + 1);
    let ordinaryAbs := parM in
    let exceptionalAbs := parM + 1 in
    let otherAbs :=
      if j =? exceptionalAbs then ordinaryAbs else exceptionalAbs in
    if i =? j then
      pmf ← array_set pmf 0 1%Q;
      Normal (nArray, pmf)
    else if i =? otherAbs then Normal (nArray, pmf)
    else
      pState ← array_zeros parM;
      if (0 <=? i) && (i <=? parM - 1) then
        pState ← array_set pState i 1%Q;
        '(pmf, pState) ←
          js_for (shot_body parM j pGood qBad pOrd) (range 1 (maxN + 1))
                 (pmf, pState);
        Normal (nArray, pmf)
      else Normal (nArray, pmf).

(** One entry of [distributions]. *)
Record Distribution : Type := mkDistribution {
  parM : Z;
  nArray : list Z;
  pmf : list Q;
  meanShots : Q;
  totalProb : Q
}.

(** [nArray.reduce((sum, n, idx) => sum + n * pmf[idx], 0)], from the
    subscript [idx] on. *)
Fixpoint reduce_mean (pmf : list Q) (idx : Z) (ns : list Z) (sum : Q)
    : completion Q :=
  match ns with
  | [] => Normal sum
  | n :: ns' =>
    x ← array_get pmf idx;
    reduce_mean pmf (idx + 1) ns' (sum + inject_Z n * x)%Q
  end.

(** [pmf.reduce((sum, prob) => sum + prob, 0)] *)
Definition reduce_total (pmf : list Q) : Q :=
  foldl (fun sum prob => (sum + prob)%Q) 0%Q pmf.

(** The callback of [pars.map] in [distributions]. *)
Definition distribution (p q : Q) (startState nMax : Z) (parM : Z)
    : completion Distribution :=
  '(nArray, pmf) ← hardyFinishPMF parM startState parM p q nMax;
  meanShots ← reduce_mean pmf 0 nArray 0%Q;
  let totalProb := reduce_total pmf in
  Normal (mkDistribution parM nArray pmf meanShots totalProb).

(** [pars.map(...)], left to right. *)
Fixpoint array_map {A B : Type} (f : A → completion B) (xs : list A)
    : completion (list B) :=
  match xs with
  | [] => Normal []
  | x :: xs' => y ← f x; ys ← array_map f xs'; Normal (y :: ys)
  end.

(** [distributions], as a function of the state it is memoised on. *)
Definition distributions (p q : Q) (startState nMax : Z)
    : completion (list Distribution) :=
  let pars := [3; 4; 5] in
  array_map (distribution p q startState nMax) pars.

(** [isValidParams] *)
Definition isValidParams (p q : Q) : bool :=
  Qle_bool 0 p && Qle_bool 0 q && Qltb (p + q) 1.

End WebApp.

(** ** The two solvers over an arbitrary arithmetic

    [core.py] computes on [float64].  So that the rounded results can be
    stated next to the exact ones, the two solvers are written once more,
    statement for statement as above, over the operations of an
    arithmetic [Arith T]: at [exact] they are the definitions above
    ([exact_hardy_distribution_markov], [exact_hardy_finish_pmf_ij]), at
    [binary64] they compute what NumPy computes, rounding included. *)

Record Arith (T : Type) : Type := mkArith {
  a_zero : T;
  a_one : T;
  a_add : T → T → T;
  a_sub : T → T → T;
  a_mul : T → T → T;
  a_eqb : T → T → bool;   (* [x == y] *)
  a_ltb : T → T → bool;   (* [x < y] *)
  a_leb : T → T → bool    (* [x <= y] *)
}.
Arguments a_zero {T} _.
Arguments a_one {T} _.
Arguments a_add {T} _ _ _.
Arguments a_sub {T} _ _ _.
Arguments a_mul {T} _ _ _.
Arguments a_eqb {T} _ _ _.
Arguments a_ltb {T} _ _ _.
Arguments a_leb {T} _ _ _.

(** Exact rational arithmetic. *)
Definition exact : Arith Q :=
  mkArith Q 0%Q 1%Q Qplus Qminus Qmult Qeq_bool Qltb Qle_bool.

(** IEEE 754 binary64, round to nearest even: Python's [float] and
    NumPy's [float64]. *)
Definition binary64 : Arith float :=
  mkArith float 0%float 1%float PrimFloat.add PrimFloat.sub PrimFloat.mul
          PrimFloat.eqb PrimFloat.ltb PrimFloat.leb.

Module Generic.
Section Solvers.
Context {T : Type} (A : Arith T).

Definition np_zeros (n : Z) : result (list T) :=
  if n <? 0 then Raise ValueError
  else Ok (replicate (Z.to_nat n) (a_zero A)).

Definition np_zeros_like {B : Type} (a : list B) : list T :=
  replicate (length a) (a_zero A).

Definition np_index (a : list T) (k : Z) : result nat :=
  let n := Z.of_nat (length a) in
  if (0 <=? k) && (k <? n) then Ok (Z.to_nat k)
  else if (- n <=? k) && (k <? 0) then Ok (Z.to_nat (k + n))
  else Raise IndexError.

Definition np_get (a : list T) (k : Z) : result T :=
  i ← np_index a k;
  match a !! i with
  | Some x => Ok x
  | None => Raise IndexError
  end.

Definition np_set (a : list T) (k : Z) (x : T) : result (list T) :=
  i ← np_index a k; Ok (<[i:=x]> a).

Definition np_add_at (a : list T) (k : Z) (x : T) : result (list T) :=
  y ← np_get a k; np_set a k (a_add A y x).

(** [p < 0 or q < 0 or p + q >= 1] *)
Definition bad_probs (p q : T) : bool :=
  a_ltb A p (a_zero A) || a_ltb A q (a_zero A)
  || a_leb A (a_one A) (a_add A p q).

Definition hdm_state_body (par_m : Z) (probs_good probs_bad probs_ord : T)
    (p_state : list T) (shot : Z) (s : Z) (st : list T * list T)
    : result (list T * list T) :=
  let '(pmf, p_state_next) := st in
  prob_here ← np_get p_state s;
  if a_eqb A prob_here (a_zero A) then Ok (pmf, p_state_next)
  else
    let new_val := s + 2 in
    '(pmf, p_state_next) ←
      (if new_val >=? par_m
       then pmf ← np_add_at pmf (shot - 1) (a_mul A prob_here probs_good);
            Ok (pmf, p_state_next)
       else p_state_next ←
              np_add_at p_state_next new_val (a_mul A prob_here probs_good);
            Ok (pmf, p_state_next));
    let new_val := s + 1 in
    '(pmf, p_state_next) ←
      (if new_val >=? par_m
       then pmf ← np_add_at pmf (shot - 1) (a_mul A prob_here probs_ord);
            Ok (pmf, p_state_next)
       else p_state_next ←
              np_add_at p_state_next new_val (a_mul A prob_here probs_ord);
            Ok (pmf, p_state_next));
    p_state_next ← np_add_at p_state_next s (a_mul A prob_here probs_bad);
    Ok (pmf, p_state_next).

Definition hdm_shot_body (par_m : Z) (probs_good probs_bad probs_ord : T)
    (shot : Z) (st : list T * list T) : result (list T * list T) :=
  let '(pmf, p_state) := st in
  let p_state_next := np_zeros_like p_state in
  '(pmf, p_state_next) ←
    for_each (hdm_state_body par_m probs_good probs_bad probs_ord
                p_state shot)
             (range 0 par_m) (pmf, p_state_next);
  Ok (pmf, p_state_next).

Definition hardy_distribution_markov (par_m : Z) (p q : T) (n_max : Z)
    : result (list Z * list T) :=
  if bad_probs p q then Raise ValueError
  else
    let probs_good := p in
    let probs_bad := q in
    let probs_ord := a_sub A (a_sub A (a_one A) p) q in
    p_state ← np_zeros par_m;
    p_state ← np_set p_state 0 (a_one A);
    pmf ← np_zeros n_max;
    '(pmf, p_state) ←
      for_each (hdm_shot_body par_m probs_good probs_bad probs_ord)
               (range 1 (n_max + 1)) (pmf, p_state);
    let scores := np_arange 1 (n_max + 1) in
    Ok (scores, pmf).

Definition hfp_state_body (par_m j : Z) (p_good p_bad p_ord : T)
    (p_state : list T) (shot : Z) (s : Z) (st : list T * list T)
    : result (list T * list T) :=
  let ordinary_abs := par_m in
  let exceptional_abs := par_m + 1 in
  let '(pmf, p_next) := st in
  prob_here ← np_get p_state s;
  if a_eqb A prob_here (a_zero A) then Ok (pmf, p_next)
  else
    let new_val := s + 2 in
    '(pmf, p_next) ←
      (if new_val >=? exceptional_abs then
         if j =? exceptional_abs
         then pmf ← np_add_at pmf shot (a_mul A prob_here p_good);
              Ok (pmf, p_next)
         else Ok (pmf, p_next)
       else if new_val =? ordinary_abs then
         if j =? ordinary_abs
         then pmf ← np_add_at pmf shot (a_mul A prob_here p_good);
              Ok (pmf, p_next)
         else Ok (pmf, p_next)
       else
         p_next ← np_add_at p_next new_val (a_mul A prob_here p_good);
         Ok (pmf, p_next));
    let new_val := s + 1 in
    '(pmf, p_next) ←
      (if new_val >=? exceptional_abs then
         if j =? exceptional_abs
         then pmf ← np_add_at pmf shot (a_mul A prob_here p_ord);
              Ok (pmf, p_next)
         else Ok (pmf, p_next)
       else if new_val =? ordinary_abs then
         if j =? ordinary_abs
         then pmf ← np_add_at pmf shot (a_mul A prob_here p_ord);
              Ok (pmf, p_next)
         else Ok (pmf, p_next)
       else
         p_next ← np_add_at p_next new_val (a_mul A prob_here p_ord);
         Ok (pmf, p_next));
    p_next ← np_add_at p_next s (a_mul A prob_here p_bad);
    Ok (pmf, p_next).

Definition hfp_shot_body (par_m j : Z) (p_good p_bad p_ord : T)
    (shot : Z) (st : list T * list T) : result (list T * list T) :=
  let '(pmf, p_state) := st in
  let p_next := np_zeros_like p_state in
  '(pmf, p_next) ←
    for_each (hfp_state_body par_m j p_good p_bad p_ord p_state shot)
             (range 0 par_m) (pmf, p_next);
  Ok (pmf, p_next).

Definition hardy_finish_pmf_ij (par_m i j : Z) (p q : T) (n_max : Z)
    : result (list Z * list T) :=
  if bad_probs p q then Raise ValueError
  else if par_m <? 1 then Raise ValueError
  else if negb ((0 <=? i) && (i <=? par_m + 1)) then Raise ValueError
  else if negb ((j =? par_m) || (j =? par_m + 1)) then Raise ValueError
  else
    let p_good := p in
    let p_bad := q in
    let p_ord := a_sub A (a_sub A (a_one A) p) q in
    let n_array := np_arange 0 (n_max + 1) in
    let pmf := np_zeros_like n_array in
    let ordinary_abs := par_m in
    let exceptional_abs := par_m + 1 in
    let other_abs :=
      if j =? exceptional_abs then ordinary_abs else exceptional_abs in
    if i =? j then
      pmf ← np_set pmf 0 (a_one A);
      Ok (n_array, pmf)
    else if i =? other_abs then Ok (n_array, pmf)
    else
      p_state ← np_zeros par_m;
      if (0 <=? i) && (i <=? par_m - 1) then
        p_state ← np_set p_state i (a_one A);
        '(pmf, p_state) ←
          for_each (hfp_shot_body par_m j p_good p_bad p_ord)
                   (range 1 (n_max + 1)) (pmf, p_state);
        Ok (n_array, pmf)
      else Ok (n_array, pmf).
End Solvers.
End Generic.

(** The solvers as [core.py] runs them, on [float64]. *)
Module Binary64.

Definition hardy_distribution_markov (par_m : Z) (p q : float) (n_max : Z)
    : result (list Z * list float) :=
  Generic.hardy_distribution_markov binary64 par_m p q n_max.

Definition hardy_finish_pmf_ij (par_m i j : Z) (p q : float) (n_max : Z)
    : result (list Z * list float) :=
  Generic.hardy_finish_pmf_ij binary64 par_m i j p q n_max.

(** The real number a finite [float64] stands for, [None] for an
    infinity or a NaN. *)
Definition value (x : float) : option Q :=
  match Prim2SF x with
  | S754_zero _ => Some 0%Q
  | S754_finite s m e =>
    Some ((if s then -1 else 1) * inject_Z (Z.pos m) * 2 ^ e)%Q
  | _ => None
  end.



End Binary64.

(** * Properties *)

(** ** The primitives on subscripts in range *)

Lemma np_index_nat (a : list Q) (k : nat) :
  (k < length a)%nat → np_index a (Z.of_nat k) = Ok k.
Proof.
  intros Hk. unfold np_index.
  replace (0 <=? Z.of_nat k) with true by (symmetry; apply Z.leb_le; lia).
  replace (Z.of_nat k <? Z.of_nat (length a)) with true
    by (symmetry; apply Z.ltb_lt; lia).
  simpl. by rewrite Nat2Z.id.
Qed.

Lemma np_index_out (a : list Q) (k : Z) :
  Z.of_nat (length a) <= k → np_index a k = Raise IndexError.
Proof.
  intros Hk. unfold np_index.
  replace (k <? Z.of_nat (length a)) with false
    by (symmetry; apply Z.ltb_ge; lia).
  replace (k <? 0) with false by (symmetry; apply Z.ltb_ge; lia).
  by rewrite !andb_false_r.
Qed.

Lemma np_get_nat (a : list Q) (k : nat) :
  (k < length a)%nat → np_get a (Z.of_nat k) = Ok (at0 a k).
Proof.
  intros Hk. unfold np_get, at0. rewrite np_index_nat by done. simpl.
  destruct (lookup_lt_is_Some_2 a k Hk) as [x ->]. done.
Qed.

Lemma np_set_nat (a : list Q) (k : nat) (x : Q) :
  (k < length a)%nat → np_set a (Z.of_nat k) x = Ok (<[k:=x]> a).
Proof. intros Hk. unfold np_set. by rewrite np_index_nat. Qed.

Lemma insert_add_at (a : list Q) (k : nat) (x : Q) :
  <[k:=(at0 a k + x)%Q]> a = add_at a k x.
Proof.
  unfold add_at, at0. revert k. induction a as [|y a IH]; intros [|k]; try done.
  simpl. f_equal. apply IH.
Qed.

Lemma np_add_at_nat (a : list Q) (k : nat) (x : Q) :
  (k < length a)%nat → np_add_at a (Z.of_nat k) x = Ok (add_at a k x).
Proof.
  intros Hk. unfold np_add_at. rewrite np_get_nat by done. simpl.
  rewrite np_set_nat by done. by rewrite insert_add_at.
Qed.

Lemma length_add_at (a : list Q) (k : nat) (x : Q) :
  length (add_at a k x) = length a.
Proof. apply length_alter. Qed.

Lemma range_nat (n : nat) : range 0 (Z.of_nat n) = Z.of_nat <$> seq 0 n.
Proof.
  unfold range, seqZ. rewrite Z.sub_0_r, Nat2Z.id.
  apply list_fmap_ext. intros _ i _. lia.
Qed.

Lemma range_from_1 (n : Z) :
  range 1 (n + 1) = (fun k => Z.of_nat k + 1) <$> seq 0 (Z.to_nat n).
Proof. unfold range, seqZ. by replace (n + 1 - 1) with n by lia. Qed.

(** A loop whose body never raises on the states satisfying [Inv] is the
    left fold of its effect. *)
Lemma for_each_foldl {A B S : Type} (Inv : S → Prop) (body : B → S → result S)
    (g : A → B) (f : S → A → S) (xs : list A) (st : S) :
  (∀ x st, x ∈ xs → Inv st → body (g x) st = Ok (f st x) ∧ Inv (f st x)) →
  Inv st →
  for_each body (g <$> xs) st = Ok (foldl f st xs) ∧ Inv (foldl f st xs).
Proof.
  revert st. induction xs as [|x xs IH]; intros st Hbody Hst; [done|].
  simpl. destruct (Hbody x st) as [-> Hst']; [left | done |].
  simpl. apply IH; [|done]. intros y st'' Hy. apply Hbody. by right.
Qed.

(** ** The embedded loops are runs of the chain *)

Section ChainShape.
Variables (par : nat) (counts : nat → bool) (pg pb po : Q).

Lemma move_sized a b k new_val mass st :
  sized a b st → sized a b (move par counts k new_val mass st).
Proof.
  intros [H1 H2]. unfold move, sized.
  repeat case_match; simpl; rewrite ?length_add_at; done.
Qed.

Lemma visit_sized a b cur k st s :
  sized a b st → sized a b (visit par counts pg pb po cur k st s).
Proof.
  intros Hst. unfold visit. case_match; [done|].
  pose proof (move_sized a b k (s + 2) (at0 cur s * pg)%Q st Hst) as H1.
  pose proof (move_sized a b k (s + 1) (at0 cur s * po)%Q _ H1) as [H2 H3].
  split; simpl; rewrite ?length_add_at; done.
Qed.

Lemma sweep_sized a b cur k st ss :
  sized a b st → sized a b (foldl (visit par counts pg pb po cur k) st ss).
Proof.
  revert st. induction ss as [|s ss IH]; intros st Hst; [done|].
  simpl. apply IH. by apply visit_sized.
Qed.

Lemma advance_sized a b st k :
  sized a b st → sized a b (advance par counts pg pb po st k).
Proof.
  intros [H1 H2]. unfold advance. apply sweep_sized.
  split; simpl; [done|]. by rewrite length_replicate.
Qed.

Lemma run_sized a b ks st :
  sized a b st → sized a b (run par counts pg pb po ks st).
Proof.
  unfold run. revert st. induction ks as [|k ks IH]; intros st Hst; [done|].
  simpl. apply IH. by apply advance_sized.
Qed.
End ChainShape.

Ltac nat_subscripts :=
  repeat match goal with
  | |- context [Z.of_nat ?k + 1 - 1] =>
      replace (Z.of_nat k + 1 - 1) with (Z.of_nat k) by lia
  | |- context [Z.of_nat ?s + 2] =>
      replace (Z.of_nat s + 2) with (Z.of_nat (s + 2)) by lia
  | |- context [Z.of_nat ?s + 1] =>
      replace (Z.of_nat s + 1) with (Z.of_nat (s + 1)) by lia
  end.

Lemma geb_nat (a b : nat) : (Z.of_nat a >=? Z.of_nat b) = (b <=? a)%nat.
Proof.
  rewrite Z.geb_leb. destruct (Nat.leb_spec b a).
  - apply Z.leb_le. lia.
  - apply Z.leb_gt. lia.
Qed.

Lemma eqb_nat (a b : nat) : (Z.of_nat a =? Z.of_nat b) = (a =? b)%nat.
Proof.
  destruct (Nat.eqb_spec a b) as [->|Hne].
  - apply Z.eqb_refl.
  - apply Z.eqb_neq. lia.
Qed.

Lemma hdm_state_body_chain par pg pb po cur k s st :
  length cur = par → (k < length st.1)%nat → length st.2 = par →
  (s < par)%nat →
  hdm_state_body (Z.of_nat par) pg pb po cur (Z.of_nat k + 1) (Z.of_nat s) st
  = Ok (visit par counts_single pg pb po cur k st s).
Proof.
  intros Hcur Hk Hnxt Hs. destruct st as [pmf nxt]. simpl in Hk, Hnxt.
  unfold hdm_state_body, visit, move, counts_single.
  rewrite np_get_nat by lia. simpl.
  destruct (Qeq_bool (at0 cur s) 0); [done|].
  nat_subscripts. rewrite !geb_nat.
  destruct (Nat.leb_spec par (s + 2)); simpl.
  - rewrite np_add_at_nat by done. simpl.
    destruct (Nat.leb_spec par (s + 1)); simpl.
    + rewrite np_add_at_nat by (rewrite length_add_at; lia). simpl.
      by rewrite np_add_at_nat by lia.
    + rewrite np_add_at_nat by lia. simpl.
      by rewrite np_add_at_nat by (rewrite length_add_at; lia).
  - rewrite np_add_at_nat by lia. simpl.
    destruct (Nat.leb_spec par (s + 1)); simpl; [lia|].
    rewrite np_add_at_nat by (rewrite length_add_at; lia). simpl.
    by rewrite np_add_at_nat by (rewrite !length_add_at; lia).
Qed.

Lemma hfp_state_body_chain par j pg pb po cur k s st :
  length cur = par → (k < length st.1)%nat → length st.2 = par →
  (s < par)%nat →
  hfp_state_body (Z.of_nat par) j pg pb po cur (Z.of_nat k) (Z.of_nat s) st
  = Ok (visit par (counts_dual par j) pg pb po cur k st s).
Proof.
  intros Hcur Hk Hnxt Hs. destruct st as [pmf nxt]. simpl in Hk, Hnxt.
  unfold hfp_state_body, visit, move, counts_dual.
  rewrite np_get_nat by lia. simpl.
  destruct (Qeq_bool (at0 cur s) 0); [done|].
  nat_subscripts.
  replace (Z.of_nat par + 1) with (Z.of_nat (par + 1)) by lia.
  rewrite !geb_nat, !eqb_nat.
  destruct (Nat.leb_spec (par + 1) (s + 2)) as [H2|H2]; simpl.
  - (* s = par - 1: good overshoots, ordinary lands on par *)
    replace (par <=? s + 2)%nat with true by (symmetry; apply Nat.leb_le; lia).
    replace (par + 1 <=? s + 1)%nat with false
      by (symmetry; apply Nat.leb_gt; lia).
    replace (s + 1 =? par)%nat with true by (symmetry; apply Nat.eqb_eq; lia).
    replace (par <=? s + 1)%nat with true by (symmetry; apply Nat.leb_le; lia).
    destruct (j =? Z.of_nat (par + 1)) eqn:Hj; simpl.
    + rewrite np_add_at_nat by done. simpl.
      destruct (j =? Z.of_nat par) eqn:Hj'; simpl.
      * apply Z.eqb_eq in Hj, Hj'. lia.
      * by rewrite np_add_at_nat by lia.
    + destruct (j =? Z.of_nat par) eqn:Hj'; simpl.
      * rewrite np_add_at_nat by done. simpl. by rewrite np_add_at_nat by lia.
      * by rewrite np_add_at_nat by lia.
  - replace (par + 1 <=? s + 1)%nat with false
      by (symmetry; apply Nat.leb_gt; lia).
    destruct (Nat.eqb_spec (s + 2) par) as [H3|H3]; simpl.
    + (* s = par - 2: good lands on par, ordinary stays transient *)
      replace (par <=? s + 2)%nat with true
        by (symmetry; apply Nat.leb_le; lia).
      replace (s + 1 =? par)%nat with false
        by (symmetry; apply Nat.eqb_neq; lia).
      replace (par <=? s + 1)%nat with false
        by (symmetry; apply Nat.leb_gt; lia).
      destruct (j =? Z.of_nat par) eqn:Hj'; simpl.
      * rewrite np_add_at_nat by done. simpl.
        rewrite np_add_at_nat by lia. simpl.
        by rewrite np_add_at_nat by (rewrite length_add_at; lia).
      * rewrite np_add_at_nat by lia. simpl.
        by rewrite np_add_at_nat by (rewrite length_add_at; lia).
    + replace (par <=? s + 2)%nat with false
        by (symmetry; apply Nat.leb_gt; lia).
      replace (s + 1 =? par)%nat with false
        by (symmetry; apply Nat.eqb_neq; lia).
      replace (par <=? s + 1)%nat with false
        by (symmetry; apply Nat.leb_gt; lia).
      rewrite np_add_at_nat by lia. simpl.
      rewrite np_add_at_nat by (rewrite length_add_at; lia). simpl.
      by rewrite np_add_at_nat by (rewrite !length_add_at; lia).
Qed.

Lemma hdm_shot_body_chain par pg pb po k st :
  (k < length st.1)%nat → length st.2 = par →
  hdm_shot_body (Z.of_nat par) pg pb po (Z.of_nat k + 1) st
  = Ok (advance par counts_single pg pb po st k).
Proof.
  intros Hk Hcur. destruct st as [pmf cur]. simpl in Hk, Hcur.
  unfold hdm_shot_body, advance, np_zeros_like. rewrite range_nat. simpl.
  destruct (for_each_foldl (sized (length pmf) par)
    (hdm_state_body (Z.of_nat par) pg pb po cur (Z.of_nat k + 1)) Z.of_nat
    (visit par counts_single pg pb po cur k) (seq 0 par)
    (pmf, replicate (length cur) 0%Q)) as [-> _];
    [| |by destruct (foldl _ _ _)].
  - intros s st Hs%elem_of_seq [H1 H2]. split.
    + apply hdm_state_body_chain; lia.
    + by apply visit_sized.
  - split; simpl; [done|]. by rewrite length_replicate.
Qed.

Lemma hfp_shot_body_chain par j pg pb po k st :
  (k < length st.1)%nat → length st.2 = par →
  hfp_shot_body (Z.of_nat par) j pg pb po (Z.of_nat k) st
  = Ok (advance par (counts_dual par j) pg pb po st k).
Proof.
  intros Hk Hcur. destruct st as [pmf cur]. simpl in Hk, Hcur.
  unfold hfp_shot_body, advance, np_zeros_like. rewrite range_nat. simpl.
  destruct (for_each_foldl (sized (length pmf) par)
    (hfp_state_body (Z.of_nat par) j pg pb po cur (Z.of_nat k)) Z.of_nat
    (visit par (counts_dual par j) pg pb po cur k) (seq 0 par)
    (pmf, replicate (length cur) 0%Q)) as [-> _];
    [| |by destruct (foldl _ _ _)].
  - intros s st Hs%elem_of_seq [H1 H2]. split.
    + apply hfp_state_body_chain; lia.
    + by apply visit_sized.
  - split; simpl; [done|]. by rewrite length_replicate.
Qed.

(** The shot loop of [hardy_distribution_markov]: shot [k + 1] writes
    [pmf[k]]. *)
Lemma hdm_shots_chain par pg pb po (n : Z) st :
  (Z.to_nat n <= length st.1)%nat → length st.2 = par →
  for_each (hdm_shot_body (Z.of_nat par) pg pb po) (range 1 (n + 1)) st
  = Ok (run par counts_single pg pb po (seq 0 (Z.to_nat n)) st).
Proof.
  intros Hn Hcur. rewrite range_from_1. unfold run.
  destruct (for_each_foldl (sized (length st.1) par)
    (hdm_shot_body (Z.of_nat par) pg pb po) (fun k => Z.of_nat k + 1)
    (advance par counts_single pg pb po) (seq 0 (Z.to_nat n)) st)
    as [-> _]; [| |done].
  - intros k st' Hk%elem_of_seq [H1 H2]. split.
    + apply hdm_shot_body_chain; lia.
    + by apply advance_sized.
  - done.
Qed.

(** The shot loop of [hardy_finish_pmf_ij]: shot [k] writes [pmf[k]]. *)
Lemma hfp_shots_chain par j pg pb po (n : Z) st :
  (Z.to_nat n <= length st.1 - 1)%nat → length st.2 = par →
  for_each (hfp_shot_body (Z.of_nat par) j pg pb po) (range 1 (n + 1)) st
  = Ok (run par (counts_dual par j) pg pb po (seq 1 (Z.to_nat n)) st).
Proof.
  intros Hn Hcur. rewrite range_from_1. unfold run.
  rewrite <- fmap_S_seq, foldl_fmap.
  destruct (for_each_foldl (sized (length st.1) par)
    (hfp_shot_body (Z.of_nat par) j pg pb po) (fun k => Z.of_nat k + 1)
    (fun st k => advance par (counts_dual par j) pg pb po st (S k))
    (seq 0 (Z.to_nat n)) st) as [-> _]; [| |done].
  - intros k st' Hk%elem_of_seq [H1 H2]. split.
    + replace (Z.of_nat k + 1) with (Z.of_nat (S k)) by lia.
      apply hfp_shot_body_chain; lia.
    + by apply advance_sized.
  - done.
Qed.

(** ** Validation of the probabilities *)

Lemma bad_probs_false p q : bad_probs p q = false ↔ valid_probs p q.
Proof.
  unfold bad_probs, valid_probs, Qltb.
  rewrite !orb_false_iff, !negb_false_iff, !Qle_bool_iff.
  rewrite <- not_true_iff_false, Qle_bool_iff.
  split.
  - intros [[Hp Hq] Hpq]. repeat split; try done. by apply Qnot_le_lt.
  - intros (Hp & Hq & Hpq). repeat split; try done. by apply Qlt_not_le.
Qed.

Lemma bad_probs_true p q :
  bad_probs p q = true ↔ (p < 0 ∨ q < 0 ∨ 1 <= p + q)%Q.
Proof.
  unfold bad_probs, Qltb.
  rewrite !orb_true_iff, !negb_true_iff, Qle_bool_iff.
  rewrite <- !not_true_iff_false, !Qle_bool_iff.
  split.
  - intros [[Hp|Hq]|Hpq]; [left|right; left|right; right]; try done;
      by apply Qnot_le_lt.
  - intros [Hp|[Hq|Hpq]]; [left; left|left; right|right]; try done;
      by apply Qlt_not_le.
Qed.

(** ** Sums of arrays *)

Lemma Qsum_cons x a : Qsum (x :: a) = (x + Qsum a)%Q.
Proof. reflexivity. Qed.

Lemma Qsum_replicate_0 n : (Qsum (replicate n 0) == 0)%Q.
Proof. induction n as [|n IH]; simpl; [reflexivity|]. rewrite IH. lra. Qed.

Lemma Qsum_app a b : (Qsum (a ++ b) == Qsum a + Qsum b)%Q.
Proof. induction a as [|x a IH]; simpl; [lra|]. rewrite IH. lra. Qed.

Lemma Qsum_nonneg a : nonneg a → (0 <= Qsum a)%Q.
Proof. induction 1 as [|x a Hx _ IH]; simpl; lra. Qed.

Lemma add_at_ge (a : list Q) k x : (length a <= k)%nat → add_at a k x = a.
Proof.
  unfold add_at. revert k. induction a as [|y a IH]; intros [|k] Hk; simpl in *;
    try done; try lia.
  f_equal. apply IH. lia.
Qed.

Lemma Qsum_add_at a k x :
  (k < length a)%nat → (Qsum (add_at a k x) == Qsum a + x)%Q.
Proof.
  unfold add_at. revert k. induction a as [|y a IH]; intros [|k] Hk.
  - simpl in Hk. lia.
  - simpl in Hk. lia.
  - cbn [alter list_alter]. rewrite !Qsum_cons. lra.
  - assert (Hk' : (k < length a)%nat) by (simpl in Hk; lia).
    specialize (IH k Hk'). cbn [alter list_alter]. rewrite !Qsum_cons. lra.
Qed.

Lemma nonneg_add_at a k x : nonneg a → (0 <= x)%Q → nonneg (add_at a k x).
Proof.
  unfold nonneg, add_at. intros Ha Hx. revert k.
  induction Ha as [|y a Hy Ha IH]; intros [|k]; cbn [alter list_alter];
    try constructor; try done; lra.
Qed.

Lemma nonneg_replicate_0 n : nonneg (replicate n 0%Q).
Proof. apply Forall_replicate. lra. Qed.

Lemma nonneg_at0 a k : nonneg a → (0 <= at0 a k)%Q.
Proof.
  unfold at0. intros Ha. destruct (a !! k) as [x|] eqn:Hx; simpl; [|lra].
  eapply Forall_lookup_1 in Ha; eauto.
Qed.

Lemma nonneg_take a n : nonneg a → nonneg (take n a).
Proof. apply Forall_take. Qed.

Lemma Qsum_take_S a t :
  (Qsum (take (S t) a) == Qsum (take t a) + at0 a t)%Q.
Proof.
  unfold at0. revert t. induction a as [|x a IH]; intros t.
  - destruct t; simpl; lra.
  - destruct t as [|t]; [simpl; lra|].
    change (take (S (S t)) (x :: a)) with (x :: take (S t) a).
    change (take (S t) (x :: a)) with (x :: take t a).
    change ((x :: a) !! S t) with (a !! t).
    simpl Qsum. rewrite IH. lra.
Qed.

Lemma Qsum_take_mono a m n :
  nonneg a → (m <= n)%nat → (Qsum (take m a) <= Qsum (take n a))%Q.
Proof.
  intros Ha. induction 1 as [|n Hmn IH]; [lra|].
  rewrite Qsum_take_S. pose proof (nonneg_at0 a n Ha). lra.
Qed.

Lemma Qsum_take_le a n : nonneg a → (Qsum (take n a) <= Qsum a)%Q.
Proof.
  intros Ha. destruct (Nat.le_gt_cases n (length a)) as [Hn|Hn].
  - rewrite <- (firstn_all a) at 2. by apply Qsum_take_mono.
  - rewrite take_ge by lia. lra.
Qed.

Lemma Qsum_add_at_le a k x :
  (0 <= x)%Q → (Qsum (add_at a k x) <= Qsum a + x)%Q.
Proof.
  intros Hx. destruct (Nat.lt_ge_cases k (length a)) as [Hk|Hk].
  - rewrite Qsum_add_at by done. lra.
  - rewrite add_at_ge by done. lra.
Qed.

(** ** Mass and sign along the chain *)

Section ChainMass.
Variables (par : nat) (counts : nat → bool) (pg pb po : Q).
Hypotheses (Hpg : (0 <= pg)%Q) (Hpb : (0 <= pb)%Q) (Hpo : (0 <= po)%Q).
Hypothesis Hsum : (pg + pb + po == 1)%Q.

Lemma move_nonneg k v m st :
  (0 <= m)%Q → nonneg st.1 ∧ nonneg st.2 →
  nonneg (move par counts k v m st).1 ∧ nonneg (move par counts k v m st).2.
Proof.
  intros Hm [H1 H2]. unfold move.
  repeat case_match; simpl; split; try done; by apply nonneg_add_at.
Qed.

Lemma visit_nonneg cur k st s :
  nonneg cur → nonneg st.1 ∧ nonneg st.2 →
  nonneg (visit par counts pg pb po cur k st s).1
  ∧ nonneg (visit par counts pg pb po cur k st s).2.
Proof.
  intros Hcur Hst. unfold visit. case_match; [done|].
  pose proof (nonneg_at0 cur s Hcur) as Hm.
  assert (H1 : (0 <= at0 cur s * pg)%Q) by by apply Qmult_le_0_compat.
  assert (H2 : (0 <= at0 cur s * po)%Q) by by apply Qmult_le_0_compat.
  assert (H3 : (0 <= at0 cur s * pb)%Q) by by apply Qmult_le_0_compat.
  pose proof (move_nonneg k (s + 2) _ st H1 Hst) as Hst1.
  pose proof (move_nonneg k (s + 1) _ _ H2 Hst1) as [Ha Hb].
  split; simpl; [done|]. by apply nonneg_add_at.
Qed.

Lemma sweep_nonneg cur k st ss :
  nonneg cur → nonneg st.1 ∧ nonneg st.2 →
  nonneg (foldl (visit par counts pg pb po cur k) st ss).1
  ∧ nonneg (foldl (visit par counts pg pb po cur k) st ss).2.
Proof.
  intros Hcur. revert st. induction ss as [|s ss IH]; intros st Hst; [done|].
  simpl. apply IH. by apply visit_nonneg.
Qed.

Lemma advance_nonneg st k :
  nonneg st.1 ∧ nonneg st.2 →
  nonneg (advance par counts pg pb po st k).1
  ∧ nonneg (advance par counts pg pb po st k).2.
Proof.
  intros [H1 H2]. unfold advance. apply sweep_nonneg; [done|].
  split; simpl; [done|]. apply nonneg_replicate_0.
Qed.

Lemma run_nonneg ks st :
  nonneg st.1 ∧ nonneg st.2 →
  nonneg (run par counts pg pb po ks st).1
  ∧ nonneg (run par counts pg pb po ks st).2.
Proof.
  unfold run. revert st. induction ks as [|k ks IH]; intros st Hst; [done|].
  simpl. apply IH. by apply advance_nonneg.
Qed.

(** Mass never grows: absorbed mass is counted or dropped, never
    created. *)
Lemma move_mass_le k v m st :
  (0 <= m)%Q → (mass (move par counts k v m st) <= mass st + m)%Q.
Proof.
  intros Hm. unfold move, mass.
  repeat case_match; simpl.
  - pose proof (Qsum_add_at_le st.1 k m Hm). lra.
  - lra.
  - pose proof (Qsum_add_at_le st.2 v m Hm). lra.
Qed.

Lemma visit_mass_le cur k st s :
  nonneg cur →
  (mass (visit par counts pg pb po cur k st s) <= mass st + at0 cur s)%Q.
Proof.
  intros Hcur. pose proof (nonneg_at0 cur s Hcur) as Hm.
  unfold visit. case_match; [lra|].
  assert (H1 : (0 <= at0 cur s * pg)%Q) by by apply Qmult_le_0_compat.
  assert (H2 : (0 <= at0 cur s * po)%Q) by by apply Qmult_le_0_compat.
  assert (H3 : (0 <= at0 cur s * pb)%Q) by by apply Qmult_le_0_compat.
  pose proof (move_mass_le k (s + 2) _ st H1) as M1.
  pose proof (move_mass_le k (s + 1) _
                (move par counts k (s + 2) (at0 cur s * pg) st) H2) as M2.
  set (st2 := move par counts k (s + 1) _ _) in *.
  pose proof (Qsum_add_at_le st2.2 s _ H3) as M3.
  unfold mass in *. simpl.
  assert (E : (at0 cur s * pg + at0 cur s * po + at0 cur s * pb
               == at0 cur s * (pg + pb + po))%Q) by ring.
  rewrite Hsum in E. lra.
Qed.

Lemma sweep_mass_le cur k st t :
  nonneg cur →
  (mass (foldl (visit par counts pg pb po cur k) st (seq 0 t))
   <= mass st + Qsum (take t cur))%Q.
Proof.
  intros Hcur. induction t as [|t IH].
  - rewrite take_0. simpl. lra.
  - rewrite seq_S, foldl_app. simpl.
    pose proof (visit_mass_le cur k
      (foldl (visit par counts pg pb po cur k) st (seq 0 t)) t Hcur) as M.
    rewrite Qsum_take_S. lra.
Qed.

Lemma advance_mass_le st k :
  nonneg st.2 → (mass (advance par counts pg pb po st k) <= mass st)%Q.
Proof.
  intros Hcur. unfold advance.
  pose proof (sweep_mass_le st.2 k (st.1, replicate (length st.2) 0%Q) par
                Hcur) as M.
  pose proof (Qsum_take_le st.2 par Hcur) as T.
  pose proof (Qsum_replicate_0 (length st.2)) as Z.
  unfold mass in *. simpl in M. lra.
Qed.

Lemma run_mass_le ks st :
  nonneg st.1 ∧ nonneg st.2 →
  (mass (run par counts pg pb po ks st) <= mass st)%Q.
Proof.
  unfold run. revert st. induction ks as [|k ks IH]; intros st Hst.
  - simpl. lra.
  - simpl. pose proof (advance_nonneg st k Hst) as Hst'.
    pose proof (IH _ Hst') as M. destruct Hst as [_ Hcur].
    pose proof (advance_mass_le st k Hcur). lra.
Qed.
End ChainMass.

(** With every absorbed mass counted, mass is conserved exactly. *)
Section SingleMass.
Variables (par : nat) (pg pb po : Q).
Hypothesis Hsum : (pg + pb + po == 1)%Q.





End SingleMass.

(** ** The horizon only fixes the length of [pmf] *)

Lemma take_add_at (a : list Q) n k x :
  take n (add_at a k x) = add_at (take n a) k x.
Proof.
  unfold add_at. revert n k.
  induction a as [|y a IH]; intros [|n] [|k]; try done.
  cbn [alter list_alter take]. f_equal. apply IH.
Qed.

Section ChainPrefix.
Variables (par : nat) (counts : nat → bool) (pg pb po : Q).

Lemma move_clip n k v m st :
  clip n (move par counts k v m st) = move par counts k v m (clip n st).
Proof.
  unfold move, clip. repeat case_match; simpl; try done.
  by rewrite take_add_at.
Qed.

Lemma visit_clip n cur k st s :
  clip n (visit par counts pg pb po cur k st s)
  = visit par counts pg pb po cur k (clip n st) s.
Proof.
  unfold visit. case_match; [done|].
  rewrite <- !move_clip. done.
Qed.

Lemma sweep_clip n cur k st ss :
  clip n (foldl (visit par counts pg pb po cur k) st ss)
  = foldl (visit par counts pg pb po cur k) (clip n st) ss.
Proof.
  revert st. induction ss as [|s ss IH]; intros st; [done|].
  simpl. by rewrite IH, visit_clip.
Qed.

Lemma advance_clip n st k :
  clip n (advance par counts pg pb po st k)
  = advance par counts pg pb po (clip n st) k.
Proof. unfold advance. by rewrite sweep_clip. Qed.

Lemma run_clip n ks st :
  clip n (run par counts pg pb po ks st)
  = run par counts pg pb po ks (clip n st).
Proof.
  unfold run. revert st. induction ks as [|k ks IH]; intros st; [done|].
  simpl. by rewrite IH, advance_clip.
Qed.

(** A shot whose subscript lies past the end of [pmf] leaves it alone. *)
Lemma move_frame k v m st :
  (length st.1 <= k)%nat → (move par counts k v m st).1 = st.1.
Proof.
  intros Hk. unfold move. repeat case_match; simpl; try done.
  by apply add_at_ge.
Qed.

Lemma visit_frame cur k st s :
  (length st.1 <= k)%nat →
  (visit par counts pg pb po cur k st s).1 = st.1.
Proof.
  intros Hk. unfold visit. case_match; [done|]. simpl.
  rewrite move_frame; rewrite move_frame; done.
Qed.

Lemma sweep_frame cur k st ss :
  (length st.1 <= k)%nat →
  (foldl (visit par counts pg pb po cur k) st ss).1 = st.1.
Proof.
  revert st. induction ss as [|s ss IH]; intros st Hk; [done|].
  simpl. rewrite IH; rewrite visit_frame; done.
Qed.

Lemma advance_frame st k :
  (length st.1 <= k)%nat → (advance par counts pg pb po st k).1 = st.1.
Proof. intros Hk. unfold advance. by rewrite sweep_frame. Qed.

Lemma run_frame ks st :
  (∀ k, k ∈ ks → (length st.1 <= k)%nat) →
  (run par counts pg pb po ks st).1 = st.1.
Proof.
  unfold run. revert st. induction ks as [|k ks IH]; intros st Hks; [done|].
  simpl. assert (E : (advance par counts pg pb po st k).1 = st.1).
  { apply advance_frame, Hks. left. }
  rewrite IH; [done|]. rewrite E. intros k' Hk'. apply Hks. by right.
Qed.

Lemma run_app ks1 ks2 st :
  run par counts pg pb po (ks1 ++ ks2) st
  = run par counts pg pb po ks2 (run par counts pg pb po ks1 st).
Proof. unfold run. apply foldl_app. Qed.


(** The result for a horizon is the cut of the result for any larger
    horizon: shots [from, from + n) fill a [pmf] of [len] entries exactly
    as they fill the first [len] entries of a longer one, and later shots
    do not touch them. *)
Lemma run_horizon from n n' len len' cur :
  (n <= n')%nat → (len <= len')%nat → (len <= from + n)%nat →
  take len
    (run par counts pg pb po (seq from n') (replicate len' 0%Q, cur)).1
  = (run par counts pg pb po (seq from n) (replicate len 0%Q, cur)).1.
Proof.
  intros Hn Hlen Hfrom.
  change (take len ?a.1) with (clip len a).1.
  rewrite run_clip. unfold clip at 1. simpl.
  rewrite take_replicate, Nat.min_l by done.
  replace n' with (n + (n' - n))%nat by lia.
  rewrite seq_app, run_app.
  pose proof (run_sized par counts pg pb po len (length cur) (seq from n)
                (replicate len 0%Q, cur)) as [A B].
  { split; simpl; [by rewrite length_replicate|done]. }
  apply run_frame. intros k Hk%elem_of_seq. rewrite A. lia.
Qed.
End ChainPrefix.

(** ** The two solvers as runs of the chain *)

Lemma np_zeros_nat (n : nat) : np_zeros (Z.of_nat n) = Ok (replicate n 0%Q).
Proof.
  unfold np_zeros. replace (Z.of_nat n <? 0) with false
    by (symmetry; apply Z.ltb_ge; lia).
  by rewrite Nat2Z.id.
Qed.

Lemma np_zeros_nonneg (n : Z) :
  0 <= n → np_zeros n = Ok (replicate (Z.to_nat n) 0%Q).
Proof.
  intros Hn. unfold np_zeros.
  by replace (n <? 0) with false by (symmetry; apply Z.ltb_ge; lia).
Qed.

Lemma start_sized len par i : sized len par (start len par i).
Proof.
  split; simpl; [|rewrite length_insert]; by rewrite length_replicate.
Qed.


Lemma hardy_distribution_markov_chain (par : nat) p q n_max :
  valid_probs p q → (1 <= par)%nat → 0 <= n_max →
  hardy_distribution_markov (Z.of_nat par) p q n_max
  = Ok (np_arange 1 (n_max + 1),
        (run par counts_single p q (1 - p - q)%Q (seq 0 (Z.to_nat n_max))
           (start (Z.to_nat n_max) par 0)).1).
Proof.
  intros Hpq%bad_probs_false Hpar Hn. unfold hardy_distribution_markov.
  rewrite Hpq.
  rewrite np_zeros_nat. simpl.
  rewrite (np_set_nat _ 0%nat) by (rewrite length_replicate; lia). simpl.
  rewrite np_zeros_nonneg by done. simpl.
  rewrite hdm_shots_chain; simpl.
  - unfold start. by destruct (run _ _ _ _ _ _ _).
  - rewrite length_replicate. lia.
  - by rewrite length_insert, length_replicate.
Qed.

Lemma length_np_arange a b : length (np_arange a b) = Z.to_nat (b - a).
Proof. apply length_seqZ. Qed.

Lemma hfp_checks_pass (par : nat) (i j : Z) p q :
  valid_probs p q → (1 <= par)%nat → 0 <= i <= Z.of_nat par + 1 →
  j = Z.of_nat par ∨ j = Z.of_nat par + 1 →
  bad_probs p q = false ∧ (Z.of_nat par <? 1) = false
  ∧ negb ((0 <=? i) && (i <=? Z.of_nat par + 1)) = false
  ∧ negb ((j =? Z.of_nat par) || (j =? Z.of_nat par + 1)) = false.
Proof.
  intros Hpq Hpar Hi Hj. repeat split.
  - by apply bad_probs_false.
  - apply Z.ltb_ge. lia.
  - apply negb_false_iff, andb_true_iff. split; apply Z.leb_le; lia.
  - apply negb_false_iff, orb_true_iff.
    destruct Hj as [->| ->]; [left|right]; apply Z.eqb_refl.
Qed.

Lemma hardy_finish_pmf_ij_chain (par i : nat) (j : Z) p q n_max :
  valid_probs p q → (1 <= par)%nat → (i < par)%nat →
  j = Z.of_nat par ∨ j = Z.of_nat par + 1 →
  hardy_finish_pmf_ij (Z.of_nat par) (Z.of_nat i) j p q n_max
  = Ok (np_arange 0 (n_max + 1),
        (run par (counts_dual par j) p q (1 - p - q)%Q
           (seq 1 (Z.to_nat n_max))
           (start (Z.to_nat (n_max + 1)) par i)).1).
Proof.
  intros Hpq Hpar Hi Hj. unfold hardy_finish_pmf_ij.
  destruct (hfp_checks_pass par (Z.of_nat i) j p q) as (-> & -> & -> & ->);
    [done|done|lia|done|].
  replace (Z.of_nat i =? j) with false
    by (symmetry; apply Z.eqb_neq; lia).
  replace (Z.of_nat i =? _) with false
    by (symmetry; apply Z.eqb_neq; case_match; lia).
  rewrite np_zeros_nat. simpl.
  replace ((0 <=? Z.of_nat i) && (Z.of_nat i <=? Z.of_nat par - 1)) with true
    by (symmetry; apply andb_true_iff; split; apply Z.leb_le; lia).
  rewrite np_set_nat by (rewrite length_replicate; lia). simpl.
  unfold np_zeros_like. rewrite length_np_arange.
  replace (n_max + 1 - 0) with (n_max + 1) by lia.
  rewrite hfp_shots_chain; simpl.
  - unfold start. by destruct (run _ _ _ _ _ _ _).
  - rewrite length_replicate. lia.
  - by rewrite length_insert, length_replicate.
Qed.

Lemma Qsum_insert a k x :
  (k < length a)%nat → (Qsum (<[k:=x]> a) == Qsum a - at0 a k + x)%Q.
Proof.
  unfold at0. revert k. induction a as [|y a IH]; intros [|k] Hk.
  - simpl in Hk. lia.
  - simpl in Hk. lia.
  - change (<[0%nat:=x]> (y :: a)) with (x :: a).
    change (default 0%Q ((y :: a) !! 0%nat)) with y.
    rewrite !Qsum_cons. lra.
  - assert (Hk' : (k < length a)%nat) by (simpl in Hk; lia).
    specialize (IH k Hk').
    change ((y :: a) !! S k) with (a !! k).
    change (<[S k:=x]> (y :: a)) with (y :: <[k:=x]> a).
    rewrite !Qsum_cons. lra.
Qed.

Lemma at0_replicate_0 n k : (at0 (replicate n 0%Q) k == 0)%Q.
Proof.
  unfold at0. destruct (replicate n 0%Q !! k) as [x|] eqn:Hx; simpl.
  - apply lookup_replicate in Hx as [-> _]. reflexivity.
  - reflexivity.
Qed.

Lemma mass_start len par i : (i < par)%nat → (mass (start len par i) == 1)%Q.
Proof.
  intros Hi. unfold mass, start. simpl.
  rewrite Qsum_insert by (rewrite length_replicate; lia).
  rewrite !Qsum_replicate_0, at0_replicate_0. lra.
Qed.

Lemma start_nonneg len par i :
  nonneg (start len par i).1 ∧ nonneg (start len par i).2.
Proof.
  split; simpl; [apply nonneg_replicate_0|].
  apply Forall_insert; [apply nonneg_replicate_0|lra].
Qed.


Lemma valid_probs_chain p q :
  valid_probs p q →
  (0 <= p ∧ 0 <= q ∧ 0 <= 1 - p - q ∧ p + q + (1 - p - q) == 1)%Q.
Proof. intros (Hp & Hq & Hpq). repeat split; lra. Qed.

(** ** The single-boundary solver *)


Ltac valid_probs_here :=
  unfold valid_probs, Qle, Qlt; simpl; repeat split; lia.


(** ** The dual-boundary solver: the cases decided before the recursion *)

Lemma hfp_already_there (par : nat) (j : Z) p q n_max :
  valid_probs p q → (1 <= par)%nat →
  j = Z.of_nat par ∨ j = Z.of_nat par + 1 → 0 <= n_max →
  hardy_finish_pmf_ij (Z.of_nat par) j j p q n_max
  = Ok (np_arange 0 (n_max + 1), 1%Q :: replicate (Z.to_nat n_max) 0%Q).
Proof.
  intros Hpq Hpar Hj Hn. unfold hardy_finish_pmf_ij.
  destruct (hfp_checks_pass par j j p q) as (-> & -> & -> & ->);
    [done|done|lia|done|].
  rewrite Z.eqb_refl. unfold np_zeros_like. rewrite length_np_arange.
  replace (Z.to_nat (n_max + 1 - 0)) with (S (Z.to_nat n_max)) by lia.
  rewrite (np_set_nat _ 0%nat) by (simpl; lia). done.
Qed.

Lemma hfp_already_there_no_room (par : nat) (j : Z) p q n_max :
  valid_probs p q → (1 <= par)%nat →
  j = Z.of_nat par ∨ j = Z.of_nat par + 1 → n_max < 0 →
  hardy_finish_pmf_ij (Z.of_nat par) j j p q n_max = Raise IndexError.
Proof.
  intros Hpq Hpar Hj Hn. unfold hardy_finish_pmf_ij.
  destruct (hfp_checks_pass par j j p q) as (-> & -> & -> & ->);
    [done|done|lia|done|].
  rewrite Z.eqb_refl. unfold np_zeros_like, np_set.
  rewrite np_index_out; [done|].
  rewrite length_replicate, length_np_arange. lia.
Qed.

Lemma hfp_other_boundary (par : nat) (i j : Z) p q n_max :
  valid_probs p q → (1 <= par)%nat →
  (j = Z.of_nat par ∧ i = Z.of_nat par + 1)
  ∨ (j = Z.of_nat par + 1 ∧ i = Z.of_nat par) →
  hardy_finish_pmf_ij (Z.of_nat par) i j p q n_max
  = Ok (np_arange 0 (n_max + 1), replicate (Z.to_nat (n_max + 1)) 0%Q).
Proof.
  intros Hpq Hpar Hij. unfold hardy_finish_pmf_ij.
  destruct (hfp_checks_pass par i j p q) as (-> & -> & -> & ->);
    [done|done|lia|tauto|].
  replace (i =? j) with false by (symmetry; apply Z.eqb_neq; lia).
  unfold np_zeros_like. rewrite length_np_arange.
  replace (n_max + 1 - 0) with (n_max + 1) by lia.
  destruct Hij as [[-> ->]|[-> ->]].
  - replace (Z.of_nat par =? Z.of_nat par + 1) with false
      by (symmetry; apply Z.eqb_neq; lia).
    by rewrite Z.eqb_refl.
  - by rewrite !Z.eqb_refl.
Qed.


(** C7. For valid [par], [p], [q], a horizon [n_max >= 0] and a start
    [i = j] on the target boundary, [hardy_finish_pmf_ij] returns
    [pmf[0] = 1] and [pmf[n] = 0] for [n] in [1..n_max]: the array
    [[1, 0, ..., 0]], whatever [p] and [q] are. *)
Theorem hardy_finish_pmf_ij_start_on_target (par_m i j : Z) (p q : Q)
    (n_max : Z) :
  valid_probs p q → 1 <= par_m → j = par_m ∨ j = par_m + 1 → i = j →
  0 <= n_max →
  ∃ pmf,
    hardy_finish_pmf_ij par_m i j p q n_max = Ok (np_arange 0 (n_max + 1), pmf)
    ∧ pmf = 1%Q :: replicate (Z.to_nat n_max) 0%Q
    ∧ pmf !! 0%nat = Some 1%Q
    ∧ (∀ n, 1 <= n <= n_max → pmf !! Z.to_nat n = Some 0%Q).
Proof.
  intros Hpq Hpar Hj -> Hn.
  replace par_m with (Z.of_nat (Z.to_nat par_m)) in * by lia.
  eexists. split; [by apply hfp_already_there; (done || lia)|].
  repeat split. intros n Hn'.
  replace (Z.to_nat n) with (S (Z.to_nat (n - 1))) by lia.
  apply lookup_replicate_2. lia.
Qed.

Lemma hardy_finish_pmf_ij_start_on_target_witness :
  ∃ pmf,
    hardy_finish_pmf_ij 3 4 4 (1#2) (1#4) 2 = Ok (np_arange 0 (2 + 1), pmf)
    ∧ pmf = 1%Q :: replicate (Z.to_nat 2) 0%Q
    ∧ pmf !! 0%nat = Some 1%Q
    ∧ (∀ n, 1 <= n <= 2 → pmf !! Z.to_nat n = Some 0%Q).
Proof.
  apply (hardy_finish_pmf_ij_start_on_target 3 4 4 (1#2) (1#4) 2);
    [valid_probs_here | lia | right; reflexivity | reflexivity | lia].
Defined.

(** C8. For valid [par], [p], [q] and every horizon, a start on the
    boundary that is not the target gives the all-zero pmf, of
    [n_max + 1] entries. *)
Theorem hardy_finish_pmf_ij_start_on_other (par_m i j : Z) (p q : Q)
    (n_max : Z) :
  valid_probs p q → 1 <= par_m →
  (j = par_m ∧ i = par_m + 1) ∨ (j = par_m + 1 ∧ i = par_m) →
  ∃ pmf,
    hardy_finish_pmf_ij par_m i j p q n_max = Ok (np_arange 0 (n_max + 1), pmf)
    ∧ pmf = replicate (Z.to_nat (n_max + 1)) 0%Q
    ∧ Forall (eq 0%Q) pmf
    ∧ (0 <= n_max → Z.of_nat (length pmf) = n_max + 1).
Proof.
  intros Hpq Hpar Hij.
  replace par_m with (Z.of_nat (Z.to_nat par_m)) in * by lia.
  eexists. split; [by apply hfp_other_boundary; (done || lia)|].
  repeat split.
  - by apply Forall_replicate.
  - intros Hn. rewrite length_replicate. lia.
Qed.

Lemma hardy_finish_pmf_ij_start_on_other_witness :
  ∃ pmf,
    hardy_finish_pmf_ij 3 4 3 (1#2) (1#4) 2 = Ok (np_arange 0 (2 + 1), pmf)
    ∧ pmf = replicate (Z.to_nat (2 + 1)) 0%Q
    ∧ Forall (eq 0%Q) pmf
    ∧ (0 <= 2 → Z.of_nat (length pmf) = 2 + 1).
Proof.
  apply (hardy_finish_pmf_ij_start_on_other 3 4 3 (1#2) (1#4) 2);
    [valid_probs_here | lia | left; split; reflexivity].
Defined.

(** ** Enlarging the horizon *)

Lemma take_agrees (a b : list Q) (len : nat) :
  a = take len b → ∀ n, (n < len)%nat → a !! n = b !! n.
Proof. intros -> n Hn. by apply lookup_take_lt. Qed.

(** C9. For valid inputs and horizons [0 <= n_max <= n_max'], the pmf of
    [hardy_finish_pmf_ij] for [n_max] is the pmf for [n_max'] cut to its
    entries [0..n_max], and the pmf of [hardy_distribution_markov] for
    [n_max] is the pmf for [n_max'] cut to the entries of steps
    [1..n_max]: a larger horizon appends entries and changes none. *)
Theorem horizon_prefix_stable (par_m i j : Z) (p q : Q) (n_max n_max' : Z) :
  valid_probs p q → 1 <= par_m → 0 <= i <= par_m + 1 →
  j = par_m ∨ j = par_m + 1 → 0 <= n_max <= n_max' →
  (∃ pmf pmf',
     hardy_finish_pmf_ij par_m i j p q n_max
     = Ok (np_arange 0 (n_max + 1), pmf)
     ∧ hardy_finish_pmf_ij par_m i j p q n_max'
       = Ok (np_arange 0 (n_max' + 1), pmf')
     ∧ pmf = take (Z.to_nat (n_max + 1)) pmf'
     ∧ (∀ n, 0 <= n <= n_max → pmf !! Z.to_nat n = pmf' !! Z.to_nat n))
  ∧ (∃ pmf pmf',
       hardy_distribution_markov par_m p q n_max
       = Ok (np_arange 1 (n_max + 1), pmf)
       ∧ hardy_distribution_markov par_m p q n_max'
         = Ok (np_arange 1 (n_max' + 1), pmf')
       ∧ pmf = take (Z.to_nat n_max) pmf'
       ∧ (∀ n, 1 <= n <= n_max →
            pmf !! Z.to_nat (n - 1) = pmf' !! Z.to_nat (n - 1))).
Proof.
  intros Hpq Hpar Hi Hj Hn.
  set (par := Z.to_nat par_m).
  assert (Epar : par_m = Z.of_nat par) by lia.
  assert (Hpar' : (1 <= par)%nat) by lia.
  rewrite Epar in *. clear Epar.
  assert (Hdual : ∃ pmf pmf',
     hardy_finish_pmf_ij (Z.of_nat par) i j p q n_max
     = Ok (np_arange 0 (n_max + 1), pmf)
     ∧ hardy_finish_pmf_ij (Z.of_nat par) i j p q n_max'
       = Ok (np_arange 0 (n_max' + 1), pmf')
     ∧ pmf = take (Z.to_nat (n_max + 1)) pmf').
  { destruct (Z.eq_dec i j) as [->|Hne].
    { do 2 eexists. split; [apply hfp_already_there; (done || lia)|].
      split; [apply hfp_already_there; (done || lia)|].
      replace (Z.to_nat (n_max + 1)) with (S (Z.to_nat n_max)) by lia.
      cbn [take]. rewrite take_replicate, Nat.min_l by lia. done. }
    destruct (Z.lt_ge_cases i (Z.of_nat par)) as [Hlt|Hge].
    - assert (Ei : i = Z.of_nat (Z.to_nat i)) by lia. rewrite Ei.
      do 2 eexists. split; [apply hardy_finish_pmf_ij_chain; (done || lia)|].
      split; [apply hardy_finish_pmf_ij_chain; (done || lia)|].
      symmetry. apply run_horizon; lia.
    - do 2 eexists. split; [apply hfp_other_boundary; (done || lia)|].
      split; [apply hfp_other_boundary; (done || lia)|].
      rewrite take_replicate, Nat.min_l by lia. done. }
  assert (Hsingle : ∃ pmf pmf',
     hardy_distribution_markov (Z.of_nat par) p q n_max
     = Ok (np_arange 1 (n_max + 1), pmf)
     ∧ hardy_distribution_markov (Z.of_nat par) p q n_max'
       = Ok (np_arange 1 (n_max' + 1), pmf')
     ∧ pmf = take (Z.to_nat n_max) pmf').
  { do 2 eexists.
    split; [apply hardy_distribution_markov_chain; (done || lia)|].
    split; [apply hardy_distribution_markov_chain; (done || lia)|].
    symmetry. apply run_horizon; lia. }
  destruct Hdual as (d & d' & D1 & D2 & D3).
  destruct Hsingle as (s & s' & S1 & S2 & S3).
  split.
  - exists d, d'. repeat split; try done.
    intros n Hn'. eapply take_agrees; [done|lia].
  - exists s, s'. repeat split; try done.
    intros n Hn'. eapply take_agrees; [done|lia].
Qed.

Lemma horizon_prefix_stable_witness :
  (∃ pmf pmf',
     hardy_finish_pmf_ij 2 0 2 (1#2) (1#4) 1 = Ok (np_arange 0 (1 + 1), pmf)
     ∧ hardy_finish_pmf_ij 2 0 2 (1#2) (1#4) 3
       = Ok (np_arange 0 (3 + 1), pmf')
     ∧ pmf = take (Z.to_nat (1 + 1)) pmf'
     ∧ (∀ n, 0 <= n <= 1 → pmf !! Z.to_nat n = pmf' !! Z.to_nat n))
  ∧ (∃ pmf pmf',
       hardy_distribution_markov 2 (1#2) (1#4) 1
       = Ok (np_arange 1 (1 + 1), pmf)
       ∧ hardy_distribution_markov 2 (1#2) (1#4) 3
         = Ok (np_arange 1 (3 + 1), pmf')
       ∧ pmf = take (Z.to_nat 1) pmf'
       ∧ (∀ n, 1 <= n <= 1 →
            pmf !! Z.to_nat (n - 1) = pmf' !! Z.to_nat (n - 1))).
Proof.
  apply (horizon_prefix_stable 2 0 2 (1#2) (1#4) 1 3);
    [valid_probs_here | lia | lia | left; reflexivity | lia].
Defined.

(** ** The single boundary is the two dual boundaries merged *)

Lemma at0_add_at_eq a k x :
  (k < length a)%nat → at0 (add_at a k x) k = (at0 a k + x)%Q.
Proof.
  intros Hk. unfold at0, add_at.
  destruct (lookup_lt_is_Some_2 a k Hk) as [y Hy].
  by rewrite list_lookup_alter_eq, Hy.
Qed.

Lemma at0_add_at_ne a k x n : n ≠ k → at0 (add_at a k x) n = at0 a n.
Proof.
  intros Hne. unfold at0, add_at. by rewrite list_lookup_alter_ne.
Qed.

Section Merge.
Variables (par N : nat) (pg pb po : Q).

Local Abbreviation c_ord := (counts_dual par (Z.of_nat par)).
Local Abbreviation c_exc := (counts_dual par (Z.of_nat par + 1)).

Lemma move_merged k v m s o e :
  (k < N)%nat → merged N s o e →
  merged N (move par counts_single k v m s)
           (move par c_ord (S k) v m o)
           (move par c_exc (S k) v m e).
Proof.
  intros Hk (E1 & E2 & L1 & L2 & L3 & Hsum).
  unfold move, counts_single, counts_dual.
  destruct (Nat.leb_spec par v) as [Hv|Hv].
  - rewrite !Z.eqb_refl.
    replace (Z.of_nat par =? Z.of_nat par + 1) with false
      by (symmetry; apply Z.eqb_neq; lia).
    replace (Z.of_nat par + 1 =? Z.of_nat par) with false
      by (symmetry; apply Z.eqb_neq; lia).
    destruct (Nat.leb_spec (par + 1) v) as [Hv'|Hv'].
    + unfold merged. simpl. rewrite ?length_add_at.
      split_and!; try done.
      intros n. destruct (Nat.eq_dec n k) as [->|Hne].
      * rewrite !at0_add_at_eq by lia. rewrite (Hsum k). lra.
      * rewrite !at0_add_at_ne by lia. apply Hsum.
    + unfold merged. simpl. rewrite ?length_add_at.
      split_and!; try done.
      intros n. destruct (Nat.eq_dec n k) as [->|Hne].
      * rewrite !at0_add_at_eq by lia. rewrite (Hsum k). lra.
      * rewrite !at0_add_at_ne by lia. apply Hsum.
  - unfold merged. simpl. split_and!; try done; congruence.
Qed.

Lemma visit_merged cur k s o e t :
  (k < N)%nat → merged N s o e →
  merged N (visit par counts_single pg pb po cur k s t)
           (visit par c_ord pg pb po cur (S k) o t)
           (visit par c_exc pg pb po cur (S k) e t).
Proof.
  intros Hk H. unfold visit. case_match; [done|].
  pose proof (move_merged k (t + 2) (at0 cur t * pg)%Q s o e Hk H) as H1.
  pose proof (move_merged k (t + 1) (at0 cur t * po)%Q _ _ _ Hk H1)
    as (E1 & E2 & L1 & L2 & L3 & Hsum).
  unfold merged. simpl. split_and!; try done; congruence.
Qed.

Lemma sweep_merged cur k s o e ts :
  (k < N)%nat → merged N s o e →
  merged N (foldl (visit par counts_single pg pb po cur k) s ts)
           (foldl (visit par c_ord pg pb po cur (S k)) o ts)
           (foldl (visit par c_exc pg pb po cur (S k)) e ts).
Proof.
  intros Hk. revert s o e. induction ts as [|t ts IH]; intros s o e H; [done|].
  simpl. apply IH. by apply visit_merged.
Qed.

Lemma advance_merged k s o e :
  (k < N)%nat → merged N s o e →
  merged N (advance par counts_single pg pb po s k)
           (advance par c_ord pg pb po o (S k))
           (advance par c_exc pg pb po e (S k)).
Proof.
  intros Hk (E1 & E2 & L1 & L2 & L3 & Hsum). unfold advance.
  rewrite <- E1, <- E2. apply sweep_merged; [done|].
  unfold merged. simpl. split_and!; done.
Qed.

Lemma run_merged ks s o e :
  (∀ k, k ∈ ks → (k < N)%nat) → merged N s o e →
  merged N (run par counts_single pg pb po ks s)
           (run par c_ord pg pb po (S <$> ks) o)
           (run par c_exc pg pb po (S <$> ks) e).
Proof.
  unfold run. revert s o e.
  induction ks as [|k ks IH]; intros s o e Hks H; [done|].
  simpl. apply IH.
  - intros k' Hk'. apply Hks. by right.
  - apply advance_merged; [|done]. apply Hks. left.
Qed.
End Merge.

Lemma start_merged N par i :
  merged N (start N par i) (start (S N) par i) (start (S N) par i).
Proof.
  unfold merged, start. cbn [fst snd]. rewrite ?length_replicate.
  split_and!; try done.
  intros n. rewrite !at0_replicate_0. lra.
Qed.

(** C3, under exact arithmetic.  For valid probabilities, [par >= 1] and
    [n_max >= 1], with both solvers run on exact rationals, the entry of
    step [n] (subscript [n - 1]) of [hardy_distribution_markov] is the sum
    of the entries of subscript [n] of [hardy_finish_pmf_ij] started at 0
    for the targets [par] and [par + 1], for every [n] in [1..n_max]. *)
Theorem single_boundary_is_merged_dual (par_m : Z) (p q : Q) (n_max : Z) :
  valid_probs p q → 1 <= par_m → 1 <= n_max →
  ∃ pmf pmf_ord pmf_exc,
    hardy_distribution_markov par_m p q n_max
    = Ok (np_arange 1 (n_max + 1), pmf)
    ∧ hardy_finish_pmf_ij par_m 0 par_m p q n_max
      = Ok (np_arange 0 (n_max + 1), pmf_ord)
    ∧ hardy_finish_pmf_ij par_m 0 (par_m + 1) p q n_max
      = Ok (np_arange 0 (n_max + 1), pmf_exc)
    ∧ ∀ n, 1 <= n <= n_max →
        ∃ x y z,
          pmf !! Z.to_nat (n - 1) = Some x
          ∧ pmf_ord !! Z.to_nat n = Some y
          ∧ pmf_exc !! Z.to_nat n = Some z
          ∧ (x == y + z)%Q.
Proof.
  intros Hpq Hpar Hn.
  set (par := Z.to_nat par_m). set (N := Z.to_nat n_max).
  assert (Epar : par_m = Z.of_nat par) by lia.
  assert (Hpar' : (1 <= par)%nat) by lia.
  rewrite Epar.
  pose proof (run_merged par N p q (1 - p - q)%Q (seq 0 N)
                (start N par 0) (start (S N) par 0) (start (S N) par 0))
    as (_ & _ & L1 & L2 & L3 & Hsum).
  { intros k Hk%elem_of_seq. lia. }
  { apply start_merged. }
  rewrite fmap_S_seq in L2, L3, Hsum.
  do 3 eexists.
  split; [apply hardy_distribution_markov_chain; (done || lia)|].
  split; [apply (hardy_finish_pmf_ij_chain par 0); (done || lia || auto)|].
  split; [apply (hardy_finish_pmf_ij_chain par 0); (done || lia || auto)|].
  replace (Z.to_nat (n_max + 1)) with (S N) by lia. fold N.
  intros n Hn'.
  replace (Z.to_nat n) with (S (Z.to_nat (n - 1))) by lia.
  set (k := Z.to_nat (n - 1)).
  specialize (Hsum k). unfold at0 in Hsum.
  destruct (lookup_lt_is_Some_2 _ k ltac:(rewrite L1; lia)) as [x Hx].
  destruct (lookup_lt_is_Some_2 _ (S k) ltac:(rewrite L2; lia)) as [y Hy].
  destruct (lookup_lt_is_Some_2 _ (S k) ltac:(rewrite L3; lia)) as [z Hz].
  rewrite Hx, Hy, Hz in Hsum. simpl in Hsum.
  exists x, y, z. done.
Qed.

Lemma single_boundary_is_merged_dual_witness :
  ∃ pmf pmf_ord pmf_exc,
    hardy_distribution_markov 3 (1#2) (1#4) 3 = Ok (np_arange 1 (3 + 1), pmf)
    ∧ hardy_finish_pmf_ij 3 0 3 (1#2) (1#4) 3
      = Ok (np_arange 0 (3 + 1), pmf_ord)
    ∧ hardy_finish_pmf_ij 3 0 (3 + 1) (1#2) (1#4) 3
      = Ok (np_arange 0 (3 + 1), pmf_exc)
    ∧ ∀ n, 1 <= n <= 3 →
        ∃ x y z,
          pmf !! Z.to_nat (n - 1) = Some x
          ∧ pmf_ord !! Z.to_nat n = Some y
          ∧ pmf_exc !! Z.to_nat n = Some z
          ∧ (x == y + z)%Q.
Proof.
  apply (single_boundary_is_merged_dual 3 (1#2) (1#4) 3);
    [valid_probs_here | lia | lia].
Defined.

(** ** The simulator *)

Lemma values_nonneg t : 0 <= values t.
Proof. destruct t; simpl; lia. Qed.

Lemma total_after_mono rng m n :
  (m <= n)%nat → total_after rng m <= total_after rng n.
Proof.
  induction 1 as [|n Hmn IH]; [lia|]. simpl.
  pose proof (values_nonneg (stream rng (drawn rng + n)%nat)). lia.
Qed.

(** The loop entered after [k] shots: it stops at the first shot count
    [m <= max_shots] whose total reaches [par_m], or raises on drawing shot
    [max_shots + 1]. *)
Lemma simulate_loop_from (fuel : nat) par_m max_shots rng (k : nat) :
  let M := Z.to_nat max_shots in
  (k <= M)%nat → Z.of_nat k <= max_shots ∨ k = 0%nat →
  (M + 2 <= fuel + k)%nat →
  ∃ r n,
    simulate_loop fuel par_m max_shots (total_after rng k) (Z.of_nat k)
      (mkGenerator (stream rng) (drawn rng + k))
    = Some (r, mkGenerator (stream rng) (drawn rng + n))
    ∧ ((r = Ok (Z.of_nat n) ∧ (k <= n <= M)%nat
        ∧ par_m <= total_after rng n
        ∧ ∀ i, (k <= i < n)%nat → total_after rng i < par_m)
       ∨ (r = Raise RuntimeError ∧ n = S M
          ∧ ∀ i, (k <= i <= M)%nat → total_after rng i < par_m)).
Proof.
  intros M. revert k. induction fuel as [|fuel IH]; intros k HkM Hk Hfuel.
  { lia. }
  cbn [simulate_loop].
  destruct (Z.ltb_spec (total_after rng k) par_m) as [Hlt|Hge].
  - unfold rng_choice. cbn [stream drawn].
    destruct (Z.gtb_spec (Z.of_nat k + 1) max_shots) as [Hcap|Hcap].
    + exists (Raise RuntimeError), (S M).
      assert (k = M) by lia. subst k.
      split; [by rewrite Nat.add_succ_r|].
      right. repeat split. intros i Hi. by replace i with M by lia.
    + destruct (IH (S k)) as (r & n & Hrun & Hr); [lia|lia|lia|].
      exists r, n. split.
      * rewrite <- Hrun. cbn [total_after].
        by rewrite Nat2Z.inj_succ, <- Z.add_1_r, Nat.add_succ_r.
      * destruct Hr as [(-> & Hn & Hpar & Hbelow)|(-> & -> & Hbelow)].
        -- left. repeat split; try done; try lia.
           intros i Hi. destruct (Nat.eq_dec i k) as [->|Hne]; [done|].
           apply Hbelow. lia.
        -- right. repeat split.
           intros i Hi. destruct (Nat.eq_dec i k) as [->|Hne]; [done|].
           apply Hbelow. lia.
  - exists (Ok (Z.of_nat k)), k. split; [done|].
    left. repeat split; try done; try lia.
Qed.

(** C6. For [par >= 1], valid [p], [q], every generator and every cap
    [max_shots], [simulate_hole_hardy] returns [k] exactly when shot [k] is
    the first at which the accumulated value reaches [par] and
    [k <= max_shots]; it raises [RuntimeError] exactly when the accumulated
    value is still below [par] after [max_shots] shots.  The loop needs no
    more than [max_shots + 2] iterations of fuel. *)
Theorem simulate_hole_hardy_outcome (fuel : nat) (par_m : Z) (p q : Q)
    (rng : Generator) (max_shots : Z) :
  1 <= par_m → valid_probs p q → (Z.to_nat max_shots + 2 <= fuel)%nat →
  ∃ r rng',
    simulate_hole_hardy fuel par_m p q rng max_shots = Some (r, rng')
    ∧ (∀ k, r = Ok k ↔
         1 <= k <= max_shots
         ∧ par_m <= total_after rng (Z.to_nat k)
         ∧ ∀ k', 0 <= k' < k → total_after rng (Z.to_nat k') < par_m)
    ∧ (r = Raise RuntimeError ↔
         total_after rng (Z.to_nat max_shots) < par_m).
Proof.
  intros Hpar Hpq%bad_probs_false Hfuel. unfold simulate_hole_hardy.
  rewrite Hpq.
  destruct (simulate_loop_from fuel par_m max_shots rng 0)
    as (r & n & Hrun & Hr); [lia|by right|lia|].
  cbn [total_after] in Hrun. rewrite Nat.add_0_r in Hrun.
  destruct rng as [d pos]. cbn [stream drawn] in *.
  exists r, (mkGenerator d (pos + n)). split; [done|].
  set (rng := mkGenerator d pos) in *.
  destruct Hr as [(-> & Hn & Hreach & Hbelow)|(-> & -> & Hbelow)].
  - assert (Hn0 : n ≠ 0%nat).
    { intros ->. cbn [total_after] in Hreach. lia. }
    split.
    + intros k. split.
      * intros [= <-]. rewrite Nat2Z.id. repeat split; try done; try lia.
        intros k' Hk'. apply Hbelow. lia.
      * intros (Hk & Hreach' & Hbelow'). f_equal.
        destruct (Z.lt_trichotomy (Z.of_nat n) k) as [Hlt|[Heq|Hgt]]; [|done|].
        -- specialize (Hbelow' (Z.of_nat n) ltac:(lia)).
           rewrite Nat2Z.id in Hbelow'. lia.
        -- specialize (Hbelow (Z.to_nat k) ltac:(lia)). lia.
    + split; [done|]. intros Hcap.
      pose proof (total_after_mono rng n (Z.to_nat max_shots) ltac:(lia)). lia.
  - split.
    + intros k. split; [done|].
      intros (Hk & Hreach & _).
      specialize (Hbelow (Z.to_nat k) ltac:(lia)). lia.
    + split; [|done]. intros _. apply Hbelow. lia.
Qed.

Lemma simulate_hole_hardy_outcome_witness :
  ∃ r rng',
    simulate_hole_hardy 21 4 (2#5) (1#10)
      (mkGenerator (fun n => if Nat.even n then Bad else Good) 0) 19
    = Some (r, rng')
    ∧ (∀ k, r = Ok k ↔
         1 <= k <= 19
         ∧ 4 <= total_after
                  (mkGenerator (fun n => if Nat.even n then Bad else Good) 0)
                  (Z.to_nat k)
         ∧ ∀ k', 0 <= k' < k →
             total_after
               (mkGenerator (fun n => if Nat.even n then Bad else Good) 0)
               (Z.to_nat k') < 4)
    ∧ (r = Raise RuntimeError ↔
         total_after
           (mkGenerator (fun n => if Nat.even n then Bad else Good) 0)
           (Z.to_nat 19) < 4).
Proof.
  apply (simulate_hole_hardy_outcome 21 4 (2#5) (1#10)
           (mkGenerator (fun n => if Nat.even n then Bad else Good) 0) 19);
    [lia | valid_probs_here | simpl; lia].
Defined.

(** C10. [simulate_hole_hardy] does not check [par_m]: for [par_m <= 0]
    and valid [p], [q] it returns 0 and leaves the generator where it was,
    no outcome drawn, whatever the cap. *)
Theorem simulate_hole_hardy_nonpositive_par (fuel : nat) (par_m : Z) (p q : Q)
    (rng : Generator) (max_shots : Z) :
  par_m <= 0 → valid_probs p q → (1 <= fuel)%nat →
  simulate_hole_hardy fuel par_m p q rng max_shots = Some (Ok 0, rng).
Proof.
  intros Hpar Hpq%bad_probs_false Hfuel. unfold simulate_hole_hardy.
  rewrite Hpq. destruct fuel as [|fuel]; [lia|]. cbn [simulate_loop].
  by replace (0 <? par_m) with false by (symmetry; apply Z.ltb_ge; lia).
Qed.

Lemma simulate_hole_hardy_nonpositive_par_witness :
  simulate_hole_hardy 21 (-3) (2#5) (1#10) (mkGenerator (fun _ => Good) 7) 19
  = Some (Ok 0, mkGenerator (fun _ => Good) 7).
Proof.
  apply (simulate_hole_hardy_nonpositive_par 21 (-3) (2#5) (1#10)
           (mkGenerator (fun _ => Good) 7) 19);
    [lia | valid_probs_here | lia].
Defined.

(** ** Rejection of invalid parameters *)

(** [hardy_finish_pmf_ij] rejects every invalid parameter with a
    [ValueError], before any array is built. *)
Lemma hardy_finish_pmf_ij_rejects (par_m i j : Z) (p q : Q) (n_max : Z) :
  (p < 0)%Q ∨ (q < 0)%Q ∨ (1 <= p + q)%Q ∨ par_m < 1
  ∨ i < 0 ∨ par_m + 1 < i ∨ (j ≠ par_m ∧ j ≠ par_m + 1) →
  hardy_finish_pmf_ij par_m i j p q n_max = Raise ValueError.
Proof.
  intros H. unfold hardy_finish_pmf_ij.
  destruct (bad_probs p q) eqn:Hpq; [done|].
  apply bad_probs_false in Hpq. destruct Hpq as (Hp & Hq & Hpq).
  destruct (Z.ltb_spec par_m 1) as [|Hpar]; [done|].
  destruct (Z.leb_spec 0 i) as [Hi0|Hi0]; simpl; [|done].
  destruct (Z.leb_spec i (par_m + 1)) as [Hi1|Hi1]; simpl; [|done].
  destruct (Z.eqb_spec j par_m) as [Hj|Hj]; simpl.
  - destruct H as [H|[H|[H|[H|[H|[H|H]]]]]]; try lra; try lia.
  - destruct (Z.eqb_spec j (par_m + 1)) as [Hj'|Hj']; simpl; [|done].
    destruct H as [H|[H|[H|[H|[H|[H|H]]]]]]; try lra; try lia.
Qed.

(** [hardy_distribution_markov] rejects invalid probabilities the same
    way. *)
Lemma hardy_distribution_markov_rejects_probs (par_m : Z) (p q : Q)
    (n_max : Z) :
  (p < 0)%Q ∨ (q < 0)%Q ∨ (1 <= p + q)%Q →
  hardy_distribution_markov par_m p q n_max = Raise ValueError.
Proof.
  intros H%bad_probs_true. unfold hardy_distribution_markov. by rewrite H.
Qed.

(** It has no check of [par_m]: [par_m = 0] gets as far as
    [p_state[0] = 1.0] on the empty state vector. *)
Lemma hardy_distribution_markov_par_zero (p q : Q) (n_max : Z) :
  valid_probs p q →
  hardy_distribution_markov 0 p q n_max = Raise IndexError.
Proof.
  intros Hpq%bad_probs_false. unfold hardy_distribution_markov.
  by rewrite Hpq.
Qed.

(** C5 fails on [hardy_distribution_markov]: with valid probabilities and
    [par_m = 0] it does not raise the [ValueError] that
    [hardy_finish_pmf_ij] raises on the same parameters; it builds the
    empty state vector and raises [IndexError] on its first write. *)
Theorem hardy_distribution_markov_par_unchecked :
  hardy_distribution_markov 0 (1#4) (1#4) 3 = Raise IndexError
  ∧ np_zeros 0 = Ok []
  ∧ hardy_finish_pmf_ij 0 0 0 (1#4) (1#4) 3 = Raise ValueError.
Proof. repeat split. Qed.

(** ** [par = 1] from state 0, target 1 *)

Lemma Qpower_nat_succ (q : Q) (t : nat) :
  (q ^ Z.of_nat (S t) == q ^ Z.of_nat t * q)%Q.
Proof.
  rewrite Nat2Z.inj_succ, <- Z.add_1_r.
  rewrite Qpower_plus' by lia. reflexivity.
Qed.

Lemma inject_nat_nonneg (n : nat) : (0 <= inject_Z (Z.of_nat n))%Q.
Proof. change 0%Q with (inject_Z 0). rewrite <- Zle_Qle. lia. Qed.

(** A geometric sequence with ratio in [[0, 1]] is dominated by a
    harmonic one. *)
Lemma Qpower_harmonic (q : Q) (n : nat) :
  (0 <= q)%Q → (q <= 1)%Q →
  (q ^ Z.of_nat n * (1 + inject_Z (Z.of_nat n) * (1 - q)) <= 1)%Q.
Proof.
  intros Hq0 Hq1. induction n as [|n IH].
  - change (1 * (1 + 0 * (1 - q)) <= 1)%Q. lra.
  - rewrite Qpower_nat_succ.
    rewrite Nat2Z.inj_succ, <- Z.add_1_r, inject_Z_plus.
    set (A := (q ^ Z.of_nat n)%Q) in *.
    set (x := inject_Z (Z.of_nat n)) in *.
    assert (HA : (0 <= A)%Q) by by apply Qpower_0_le.
    assert (Hx : (0 <= x)%Q) by apply inject_nat_nonneg.
    assert (Hstep : (q * (1 + (x + inject_Z 1) * (1 - q))
                     <= 1 + x * (1 - q))%Q).
    { change (inject_Z 1) with 1%Q.
      assert (Hsq : (0 <= (x + 1) * ((1 - q) * (1 - q)))%Q).
      { apply Qmult_le_0_compat; [lra|].
        apply Qmult_le_0_compat; lra. }
      assert (E : (1 + x * (1 - q) - q * (1 + (x + 1) * (1 - q))
                   == (x + 1) * ((1 - q) * (1 - q)))%Q) by ring.
      lra. }
    assert (Hmul : (A * (q * (1 + (x + inject_Z 1) * (1 - q)))
                    <= A * (1 + x * (1 - q)))%Q).
    { rewrite !(Qmult_comm A). by apply Qmult_le_compat_r. }
    assert (E : (A * q * (1 + (x + inject_Z 1) * (1 - q))
                 == A * (q * (1 + (x + inject_Z 1) * (1 - q))))%Q) by ring.
    rewrite E. lra.
Qed.

(** Powers of a ratio in [[0, 1)] fall below every positive bound. *)
Lemma Qpower_vanishes (q eps : Q) :
  (0 <= q)%Q → (q < 1)%Q → (0 < eps)%Q →
  ∃ n0 : nat, ∀ n : nat, (n0 <= n)%nat → (q ^ Z.of_nat n < eps)%Q.
Proof.
  intros Hq0 Hq1 Heps.
  set (d := (1 - q)%Q). assert (Hd : (0 < d)%Q) by (unfold d; lra).
  assert (Hed : (0 < eps * d)%Q) by by apply Qmult_lt_0_compat.
  exists (Z.to_nat (Qceiling (/ (eps * d)))). intros n Hn.
  set (x := inject_Z (Z.of_nat n)).
  assert (Hx : (/ (eps * d) <= x)%Q).
  { eapply Qle_trans; [apply Qle_ceiling|].
    unfold x. rewrite <- Zle_Qle. lia. }
  assert (Hx1 : (1 <= x * (eps * d))%Q).
  { assert (E : (/ (eps * d) * (eps * d) == 1)%Q).
    { rewrite Qmult_comm. apply Qmult_inv_r. lra. }
    rewrite <- E. apply Qmult_le_compat_r; lra. }
  pose proof (Qpower_harmonic q n Hq0 ltac:(lra)) as Hh.
  fold x in Hh. fold d in Hh.
  set (A := (q ^ Z.of_nat n)%Q) in *.
  assert (HA : (0 <= A)%Q) by by apply Qpower_0_le.
  apply Qnot_le_lt. intros Hge.
  assert (Hx0 : (0 <= x * d)%Q).
  { apply Qmult_le_0_compat; [|lra]. apply inject_nat_nonneg. }
  assert (Hmul : (eps * (1 + x * d) <= A * (1 + x * d))%Q).
  { apply Qmult_le_compat_r; lra. }
  assert (E : (eps * (1 + x * d) == eps + x * (eps * d))%Q) by ring.
  lra.
Qed.

Section ParOne.
Variables (p q : Q).

Local Abbreviation po := (1 - p - q)%Q.

Lemma advance_par_one pmf c k :
  advance 1 (counts_dual 1 1) p q po (pmf, [c]) k
  = if Qeq_bool c 0 then (pmf, [0%Q])
    else (add_at pmf k (c * po)%Q, [(0 + c * q)%Q]).
Proof.
  unfold advance. cbn [foldl seq snd fst length replicate].
  unfold visit. change (at0 [c] 0) with c.
  by destruct (Qeq_bool c 0).
Qed.

(** After [t] shots the state vector holds [q^t], the entries of the shots
    taken are [(1 - p - q) q^(n - 1)], and the rest of [pmf] is still
    zero. *)
Lemma run_par_one (len t : nat) :
  (t < len)%nat →
  let st := run 1 (counts_dual 1 1) p q po (seq 1 t) (start len 1 0) in
  ∃ c,
    st.2 = [c] ∧ (c == q ^ Z.of_nat t)%Q
    ∧ length st.1 = len
    ∧ (∀ n, (1 <= n <= t)%nat →
         (at0 st.1 n == po * q ^ (Z.of_nat n - 1))%Q)
    ∧ (∀ n, (t < n)%nat → (at0 st.1 n == 0)%Q)
    ∧ (Qsum st.1 * (1 - q) == po * (1 - q ^ Z.of_nat t))%Q.
Proof.
  induction t as [|t IH]; intros Ht.
  - exists 1%Q. cbn [seq run foldl start fst snd].
    rewrite length_replicate. split_and!.
    + reflexivity.
    + reflexivity.
    + reflexivity.
    + intros n Hn. lia.
    + intros n _. apply at0_replicate_0.
    + rewrite Qsum_replicate_0. simpl. lra.
  - specialize (IH ltac:(lia)). cbv zeta in IH.
    set (st := run 1 (counts_dual 1 1) p q po (seq 1 t) (start len 1 0)) in *.
    destruct IH as (c & Hc & Ec & Hlen & Hdone & Hrest & Hsum).
    assert (Estep : run 1 (counts_dual 1 1) p q po (seq 1 (S t))
                      (start len 1 0)
                    = if Qeq_bool c 0 then (st.1, [0%Q])
                      else (add_at st.1 (S t) (c * po)%Q, [(0 + c * q)%Q])).
    { rewrite seq_S, run_app. fold st. rewrite <- advance_par_one, <- Hc.
      by destruct st. }
    cbv zeta. rewrite Estep. clear Estep.
    pose proof (Qpower_nat_succ q t) as Epow.
    destruct (Qeq_bool c 0) eqn:Hz.
    + apply Qeq_bool_iff in Hz.
      assert (Et : (q ^ Z.of_nat t == 0)%Q) by (rewrite <- Ec; done).
      assert (Et' : (q ^ Z.of_nat (S t) == 0)%Q) by (rewrite Epow, Et; ring).
      exists 0%Q. cbn [fst snd]. split_and!.
      * reflexivity.
      * symmetry. exact Et'.
      * exact Hlen.
      * intros n Hn. destruct (Nat.eq_dec n (S t)) as [->|Hne].
        -- rewrite Hrest by lia.
           replace (Z.of_nat (S t) - 1)%Z with (Z.of_nat t) by lia.
           rewrite Et. ring.
        -- apply Hdone. lia.
      * intros n Hn. apply Hrest. lia.
      * rewrite Hsum, Et, Et'. ring.
    + exists (0 + c * q)%Q. cbn [fst snd]. split_and!.
      * reflexivity.
      * rewrite Epow, Ec. ring.
      * by rewrite length_add_at.
      * intros n Hn. destruct (Nat.eq_dec n (S t)) as [->|Hne].
        -- rewrite at0_add_at_eq by lia. rewrite Hrest by lia.
           replace (Z.of_nat (S t) - 1)%Z with (Z.of_nat t) by lia.
           rewrite Ec. ring.
        -- rewrite at0_add_at_ne by done. apply Hdone. lia.
      * intros n Hn. rewrite at0_add_at_ne by lia. apply Hrest. lia.
      * rewrite Qsum_add_at by lia.
        assert (E : ((Qsum st.1 + c * po) * (1 - q)
                     == Qsum st.1 * (1 - q) + c * po * (1 - q))%Q) by ring.
        rewrite E, Hsum, Epow, Ec. ring.
Qed.
End ParOne.

Lemma par_one_closed_form (p q : Q) (n_max : Z) :
  valid_probs p q → 0 <= n_max →
  ∃ pmf,
    hardy_finish_pmf_ij 1 0 1 p q n_max = Ok (np_arange 0 (n_max + 1), pmf)
    ∧ (∀ n, 1 <= n <= n_max →
         ∃ x, pmf !! Z.to_nat n = Some x
              ∧ (x == (1 - p - q) * q ^ (n - 1))%Q)
    ∧ (Qsum pmf * (1 - q) == (1 - p - q) * (1 - q ^ n_max))%Q.
Proof.
  intros Hpq Hn.
  pose proof (hardy_finish_pmf_ij_chain 1 0 1 p q n_max Hpq) as Hrun.
  change (Z.of_nat 1) with 1 in Hrun. change (Z.of_nat 0) with 0 in Hrun.
  rewrite Hrun by (lia || auto). clear Hrun.
  destruct (run_par_one p q (Z.to_nat (n_max + 1)) (Z.to_nat n_max))
    as (c & Hc & Ec & Hlen & Hdone & Hrest & Hsum); [lia|].
  eexists. split; [done|]. split.
  - intros n Hn'.
    destruct (lookup_lt_is_Some_2 _ (Z.to_nat n)
                ltac:(rewrite Hlen; lia)) as [x Hx].
    exists x. split; [done|].
    specialize (Hdone (Z.to_nat n) ltac:(lia)).
    unfold at0 in Hdone. rewrite Hx in Hdone. simpl in Hdone.
    by rewrite Z2Nat.id in Hdone by lia.
  - by rewrite Z2Nat.id in Hsum by lia.
Qed.

(** C4, as the code has it.  For [par = 1], start 0, target 1 and valid
    [p], [q]: a good shot overshoots to [par + 1] and its mass [p] is
    dropped, so [pmf[n] = (1 - p - q) q^(n - 1)] for [n] in [1..n_max]
    (in particular [pmf[1] = 1 - p - q]), the cumulative sum is
    [(1 - p - q)(1 - q^n_max) / (1 - q)], and it tends to
    [(1 - p - q) / (1 - q)] as [n_max] grows. *)
Theorem par_one_first_passage (p q : Q) :
  valid_probs p q →
  (∀ n_max, 0 <= n_max →
     ∃ pmf,
       hardy_finish_pmf_ij 1 0 1 p q n_max = Ok (np_arange 0 (n_max + 1), pmf)
       ∧ (∀ n, 1 <= n <= n_max →
            ∃ x, pmf !! Z.to_nat n = Some x
                 ∧ (x == (1 - p - q) * q ^ (n - 1))%Q)
       ∧ (Qsum pmf == (1 - p - q) * (1 - q ^ n_max) / (1 - q))%Q)
  ∧ (∀ eps, (0 < eps)%Q →
       ∃ n0, ∀ n_max, n0 <= n_max →
         ∃ pmf,
           hardy_finish_pmf_ij 1 0 1 p q n_max
           = Ok (np_arange 0 (n_max + 1), pmf)
           ∧ ((1 - p - q) / (1 - q) - eps < Qsum pmf)%Q
           ∧ (Qsum pmf <= (1 - p - q) / (1 - q))%Q).
Proof.
  intros Hpq. pose proof Hpq as (Hp & Hq & Hlt).
  assert (Hd : (0 < 1 - q)%Q) by lra.
  split.
  - intros n_max Hn.
    destruct (par_one_closed_form p q n_max Hpq Hn) as (pmf & Hrun & He & Hs).
    exists pmf. split_and!; [done|done|].
    rewrite <- Hs. rewrite Qdiv_mult_l; [reflexivity|lra].
  - intros eps Heps.
    destruct (Qpower_vanishes q eps Hq ltac:(lra) Heps) as [n0 Hn0].
    exists (Z.of_nat n0). intros n_max Hn.
    destruct (par_one_closed_form p q n_max Hpq ltac:(lia))
      as (pmf & Hrun & _ & Hs).
    exists pmf. split; [done|].
    specialize (Hn0 (Z.to_nat n_max) ltac:(lia)).
    rewrite Z2Nat.id in Hn0 by lia.
    set (A := (q ^ n_max)%Q) in *.
    assert (HA : (0 <= A)%Q) by by apply Qpower_0_le.
    set (L := ((1 - p - q) / (1 - q))%Q).
    assert (EL : (L * (1 - q) == 1 - p - q)%Q).
    { unfold L. rewrite Qmult_comm. apply Qmult_div_r. lra. }
    assert (Hgap : ((L - Qsum pmf) * (1 - q) == (1 - p - q) * A)%Q).
    { assert (E : ((L - Qsum pmf) * (1 - q)
                   == L * (1 - q) - Qsum pmf * (1 - q))%Q) by ring.
      rewrite E, EL, Hs. ring. }
    assert (H0 : (0 <= (1 - p - q) * A)%Q) by (apply Qmult_le_0_compat; lra).
    assert (H1 : ((1 - p - q) * A <= A * (1 - q))%Q).
    { rewrite (Qmult_comm A). apply Qmult_le_compat_r; lra. }
    split.
    + assert (Hle : (L - Qsum pmf <= A)%Q).
      { apply (Qmult_le_r _ _ (1 - q)%Q); [done|]. rewrite Hgap. done. }
      lra.
    + assert (Hle : (0 <= L - Qsum pmf)%Q).
      { apply (Qmult_le_r _ _ (1 - q)%Q); [done|]. rewrite Hgap. lra. }
      lra.
Qed.

Lemma par_one_first_passage_witness :
  (∀ n_max, 0 <= n_max →
     ∃ pmf,
       hardy_finish_pmf_ij 1 0 1 (1#2) (1#4) n_max
       = Ok (np_arange 0 (n_max + 1), pmf)
       ∧ (∀ n, 1 <= n <= n_max →
            ∃ x, pmf !! Z.to_nat n = Some x
                 ∧ (x == (1 - (1#2) - (1#4)) * (1#4) ^ (n - 1))%Q)
       ∧ (Qsum pmf
          == (1 - (1#2) - (1#4)) * (1 - (1#4) ^ n_max) / (1 - (1#4)))%Q)
  ∧ (∀ eps, (0 < eps)%Q →
       ∃ n0, ∀ n_max, n0 <= n_max →
         ∃ pmf,
           hardy_finish_pmf_ij 1 0 1 (1#2) (1#4) n_max
           = Ok (np_arange 0 (n_max + 1), pmf)
           ∧ ((1 - (1#2) - (1#4)) / (1 - (1#4)) - eps < Qsum pmf)%Q
           ∧ (Qsum pmf <= (1 - (1#2) - (1#4)) / (1 - (1#4)))%Q).
Proof.
  apply (par_one_first_passage (1#2) (1#4)); valid_probs_here.
Defined.

(** C4 as stated claims [pmf[1] = p + (1 - p - q)].  At [p = 1/2],
    [q = 1/4] the entry is [1/4], not [3/4]: the mass of the good shot is
    absorbed at [par + 1 = 2] and is not counted for the target 1. *)
Lemma par_one_good_mass_dropped :
  ∃ pmf x,
    hardy_finish_pmf_ij 1 0 1 (1#2) (1#4) 1 = Ok (np_arange 0 (1 + 1), pmf)
    ∧ pmf !! 1%nat = Some x
    ∧ (x == 1#4)%Q
    ∧ ¬ (x == (1#2) + (1 - (1#2) - (1#4)))%Q.
Proof.
  eexists _, _. split; [vm_compute; reflexivity|].
  split; [reflexivity|]. split; [reflexivity|]. discriminate.
Qed.

(** * Further properties *)

(** ** One simulated hole *)

Lemma values_le_2 t : values t <= 2.
Proof. destruct t; simpl; lia. Qed.

Lemma total_after_le rng k : total_after rng k <= 2 * Z.of_nat k.
Proof.
  induction k as [|k IH]; [simpl; lia|]. cbn [total_after].
  pose proof (values_le_2 (stream rng (drawn rng + k)%nat)). lia.
Qed.

Lemma total_after_step rng k :
  total_after rng (S k) <= total_after rng k + 2.
Proof.
  cbn [total_after].
  pose proof (values_le_2 (stream rng (drawn rng + k)%nat)). lia.
Qed.

(** What a call with valid probabilities and enough fuel does, with the
    number [n] of outcomes it draws. *)
Lemma simulate_hole_hardy_run (fuel : nat) par_m p q rng max_shots :
  valid_probs p q → (Z.to_nat max_shots + 2 <= fuel)%nat →
  ∃ r n,
    simulate_hole_hardy fuel par_m p q rng max_shots
    = Some (r, mkGenerator (stream rng) (drawn rng + n))
    ∧ ((r = Ok (Z.of_nat n) ∧ (n <= Z.to_nat max_shots)%nat
        ∧ par_m <= total_after rng n
        ∧ ∀ i, (i < n)%nat → total_after rng i < par_m)
       ∨ (r = Raise RuntimeError ∧ n = S (Z.to_nat max_shots)
          ∧ ∀ i, (i <= Z.to_nat max_shots)%nat → total_after rng i < par_m)).
Proof.
  intros Hpq%bad_probs_false Hfuel. unfold simulate_hole_hardy. rewrite Hpq.
  destruct (simulate_loop_from fuel par_m max_shots rng 0)
    as (r & n & Hrun & Hr); [lia|by right|lia|].
  cbn [total_after] in Hrun. rewrite Nat.add_0_r in Hrun.
  exists r, n. split; [by destruct rng|].
  destruct Hr as [(-> & Hn & Hreach & Hbelow)|(-> & -> & Hbelow)].
  - left. split_and!; [done|lia|done|]. intros i Hi. apply Hbelow. lia.
  - right. split_and!; [done|done|]. intros i Hi. apply Hbelow. lia.
Qed.

(** X1. A call with invalid probabilities raises [ValueError] at once: the
    generator comes back as it was given, whatever [par_m], the cap and
    the fuel. *)
Theorem simulate_hole_hardy_rejects_probs (fuel : nat) (par_m : Z) (p q : Q)
    (rng : Generator) (max_shots : Z) :
  (p < 0)%Q ∨ (q < 0)%Q ∨ (1 <= p + q)%Q →
  simulate_hole_hardy fuel par_m p q rng max_shots
  = Some (Raise ValueError, rng).
Proof.
  intros H%bad_probs_true. unfold simulate_hole_hardy. by rewrite H.
Qed.

Lemma simulate_hole_hardy_rejects_probs_witness :
  simulate_hole_hardy 0 4 (3#5) (1#2) (mkGenerator (fun _ => Good) 7) 19
  = Some (Raise ValueError, mkGenerator (fun _ => Good) 7).
Proof.
  apply (simulate_hole_hardy_rejects_probs 0 4 (3#5) (1#2)
           (mkGenerator (fun _ => Good) 7) 19).
  right. right. unfold Qle. simpl. lia.
Defined.

(** X2. With valid probabilities a call either returns a score or raises
    [RuntimeError], and it consumes the generator outcome by outcome: a
    returned score [k] has drawn exactly [k] outcomes, a [RuntimeError]
    exactly [max(max_shots, 0) + 1]; the sequence of outcomes still to
    come is not otherwise disturbed. *)
Theorem simulate_hole_hardy_draws (fuel : nat) (par_m : Z) (p q : Q)
    (rng : Generator) (max_shots : Z) :
  valid_probs p q → (Z.to_nat max_shots + 2 <= fuel)%nat →
  ∃ r rng',
    simulate_hole_hardy fuel par_m p q rng max_shots = Some (r, rng')
    ∧ stream rng' = stream rng
    ∧ ((∃ k, r = Ok k ∧ 0 <= k
             ∧ Z.of_nat (drawn rng') = Z.of_nat (drawn rng) + k)
       ∨ (r = Raise RuntimeError
          ∧ Z.of_nat (drawn rng')
            = Z.of_nat (drawn rng) + Z.max max_shots 0 + 1)).
Proof.
  intros Hpq Hfuel.
  destruct (simulate_hole_hardy_run fuel par_m p q rng max_shots Hpq Hfuel)
    as (r & n & Hrun & Hr).
  exists r, (mkGenerator (stream rng) (drawn rng + n)).
  split; [done|]. split; [done|]. cbn [drawn].
  destruct Hr as [(-> & _)|(-> & -> & _)].
  - left. exists (Z.of_nat n). split_and!; [done|lia|lia].
  - right. split; [done|lia].
Qed.

Lemma simulate_hole_hardy_draws_witness :
  ∃ r rng',
    simulate_hole_hardy 21 4 (2#5) (1#10)
      (mkGenerator (fun n => if Nat.even n then Bad else Good) 3) 19
    = Some (r, rng')
    ∧ stream rng' = (fun n => if Nat.even n then Bad else Good)
    ∧ ((∃ k, r = Ok k ∧ 0 <= k
             ∧ Z.of_nat (drawn rng') = Z.of_nat 3 + k)
       ∨ (r = Raise RuntimeError
          ∧ Z.of_nat (drawn rng') = Z.of_nat 3 + Z.max 19 0 + 1)).
Proof.
  apply (simulate_hole_hardy_draws 21 4 (2#5) (1#10)
           (mkGenerator (fun n => if Nat.even n then Bad else Good) 3) 19);
    [valid_probs_here | simpl; lia].
Defined.

(** X3. For [par_m >= 1] a returned score [k] is at least [par_m / 2]
    (no shot is worth more than 2), and the hole ends on [par_m] or on
    [par_m + 1], never further. *)
Theorem simulate_hole_hardy_score_bounds (fuel : nat) (par_m : Z) (p q : Q)
    (rng rng' : Generator) (max_shots k : Z) :
  1 <= par_m →
  simulate_hole_hardy fuel par_m p q rng max_shots = Some (Ok k, rng') →
  par_m <= 2 * k
  ∧ par_m <= total_after rng (Z.to_nat k) <= par_m + 1.
Proof.
  intros Hpar Hrun. unfold simulate_hole_hardy in Hrun.
  destruct (bad_probs p q); [done|].
  (* the loop from any shot count [j] with a total below [par_m + 2] *)
  assert (Hloop : ∀ f (j : nat),
    total_after rng j <= par_m + 1 →
    simulate_loop f par_m max_shots (total_after rng j) (Z.of_nat j)
      (mkGenerator (stream rng) (drawn rng + j)) = Some (Ok k, rng') →
    0 <= k ∧ par_m <= total_after rng (Z.to_nat k) <= par_m + 1).
  { induction f as [|f IH]; intros j Hj Hf; [done|].
    cbn [simulate_loop] in Hf.
    destruct (Z.ltb_spec (total_after rng j) par_m) as [Hlt|Hge].
    - unfold rng_choice in Hf. cbn [stream drawn] in Hf.
      destruct (Z.of_nat j + 1 >? max_shots); [done|].
      apply (IH (S j)).
      + pose proof (total_after_step rng j). lia.
      + rewrite <- Hf. cbn [total_after].
        by rewrite Nat2Z.inj_succ, <- Z.add_1_r, Nat.add_succ_r.
    - injection Hf as <- _. rewrite Nat2Z.id. lia. }
  destruct (Hloop fuel 0%nat) as [Hk Hland].
  - simpl. lia.
  - cbn [total_after]. rewrite Nat.add_0_r. by destruct rng.
  - split; [|done]. pose proof (total_after_le rng (Z.to_nat k)). lia.
Qed.

Lemma simulate_hole_hardy_score_bounds_witness :
  4 <= 2 * 4
  ∧ 4 <= total_after
           (mkGenerator (fun n => if Nat.even n then Bad else Good) 0)
           (Z.to_nat 4) <= 4 + 1.
Proof.
  apply (simulate_hole_hardy_score_bounds 21 4 (2#5) (1#10)
           (mkGenerator (fun n => if Nat.even n then Bad else Good) 0)
           (mkGenerator (fun n => if Nat.even n then Bad else Good) 4)
           19 4); [lia | reflexivity].
Defined.

(** X4. A cap too small for the par always fails: for [par_m >= 1] and
    [par_m > 2 * max_shots] every call with valid probabilities raises
    [RuntimeError], whatever the generator produces. *)
Theorem simulate_hole_hardy_cap_too_small (fuel : nat) (par_m : Z) (p q : Q)
    (rng : Generator) (max_shots : Z) :
  valid_probs p q → 1 <= par_m → 2 * max_shots < par_m →
  (Z.to_nat max_shots + 2 <= fuel)%nat →
  ∃ rng',
    simulate_hole_hardy fuel par_m p q rng max_shots
    = Some (Raise RuntimeError, rng').
Proof.
  intros Hpq Hpar Hcap Hfuel.
  destruct (simulate_hole_hardy_run fuel par_m p q rng max_shots Hpq Hfuel)
    as (r & n & Hrun & Hr).
  destruct Hr as [(-> & Hn & Hreach & _)|(-> & _)]; [|eauto].
  pose proof (total_after_le rng n). lia.
Qed.

Lemma simulate_hole_hardy_cap_too_small_witness :
  ∃ rng',
    simulate_hole_hardy 4 5 (2#5) (1#10) (mkGenerator (fun _ => Good) 0) 2
    = Some (Raise RuntimeError, rng').
Proof.
  apply (simulate_hole_hardy_cap_too_small 4 5 (2#5) (1#10)
           (mkGenerator (fun _ => Good) 0) 2);
    [valid_probs_here | lia | lia | simpl; lia].
Defined.

(** ** Many simulated holes *)

Lemma np_sum_app a b : np_sum (a ++ b) = np_sum a + np_sum b.
Proof. induction a as [|x a IH]; simpl; [done|]. rewrite IH. lia. Qed.

(** The trial loop on valid probabilities: it raises [RuntimeError], or it
    appends [n] scores, each within the cap and at least half the par,
    having drawn as many outcomes as the scores add up to. *)
Lemma smh_loop_run (fuel : nat) par_m p q (n : nat) scores rng :
  valid_probs p q → (21 <= fuel)%nat →
  ∃ r rng',
    smh_loop fuel par_m p q n scores rng = Some (r, rng')
    ∧ stream rng' = stream rng
    ∧ (r = Raise RuntimeError
       ∨ ∃ new,
           r = Ok (scores ++ new) ∧ length new = n
           ∧ Forall (fun s => 0 <= s <= 19 ∧ par_m <= 2 * s) new
           ∧ Z.of_nat (drawn rng') = Z.of_nat (drawn rng) + np_sum new).
Proof.
  intros Hpq Hfuel. revert scores rng.
  induction n as [|n IH]; intros scores rng.
  - exists (Ok scores), rng. split_and!; [done|done|].
    right. exists []. rewrite app_nil_r. split_and!; try done. simpl. lia.
  - cbn [smh_loop].
    destruct (simulate_hole_hardy_run fuel par_m p q rng 19 Hpq)
      as (r & m & -> & Hr); [simpl; lia|].
    destruct Hr as [(-> & Hm & Hreach & _)|(-> & _)].
    + destruct (IH (scores ++ [Z.of_nat m])
                  (mkGenerator (stream rng) (drawn rng + m)))
        as (r & rng' & -> & Hs & Hr).
      exists r, rng'. split_and!; [done|done|].
      destruct Hr as [->|(new & -> & Hlen & Hall & Hdrawn)]; [by left|].
      right. exists (Z.of_nat m :: new). split_and!.
      * by rewrite <- app_assoc.
      * simpl. lia.
      * constructor; [|done].
        pose proof (total_after_le rng m). simpl in Hm. lia.
      * cbn [drawn] in Hdrawn. simpl. lia.
    + eexists _, _. split_and!; [done|done|by left].
Qed.

Lemma unique_NoDup (a : list Z) : NoDup (np_unique_counts a).1.
Proof.
  simpl. rewrite merge_sort_Permutation. apply NoDup_remove_dups.
Qed.

Lemma unique_elem_of (a : list Z) x : x ∈ (np_unique_counts a).1 ↔ x ∈ a.
Proof.
  simpl. rewrite merge_sort_Permutation. apply elem_of_remove_dups.
Qed.

Lemma unique_sorted (a : list Z) : Sorted Z.le (np_unique_counts a).1.
Proof. simpl. apply (Sorted_merge_sort Z.le). Qed.

Lemma np_sum_cons x a : np_sum (x :: a) = x + np_sum a.
Proof. reflexivity. Qed.

Lemma np_sum_count_occ_cons (y : Z) (a u : list Z) :
  NoDup u →
  np_sum ((fun x => Z.of_nat (count_occ Z.eq_dec (y :: a) x)) <$> u)
  = np_sum ((fun x => Z.of_nat (count_occ Z.eq_dec a x)) <$> u)
    + (if decide (y ∈ u) then 1 else 0).
Proof.
  induction 1 as [|x u Hx Hu IH].
  - rewrite decide_False by apply not_elem_of_nil. done.
  - rewrite !fmap_cons, !np_sum_cons, IH.
    destruct (decide (y = x)) as [->|Hne].
    + rewrite count_occ_cons_eq by done.
      rewrite (decide_False (P := x ∈ u)) by done.
      rewrite (decide_True (P := x ∈ x :: u)) by left. lia.
    + rewrite count_occ_cons_neq by done.
      destruct (decide (y ∈ u)) as [Hy|Hy].
      * rewrite (decide_True (P := y ∈ x :: u)) by (by right). lia.
      * rewrite (decide_False (P := y ∈ x :: u)); [lia|].
        intros [?|?]%elem_of_cons; done.
Qed.

(** Over distinct values that cover [a], the occurrence counts add up to
    the length of [a]. *)
Lemma np_sum_count_occ (a u : list Z) :
  NoDup u → (∀ x, x ∈ a → x ∈ u) →
  np_sum ((fun x => Z.of_nat (count_occ Z.eq_dec a x)) <$> u)
  = Z.of_nat (length a).
Proof.
  intros Hu. induction a as [|y a IH]; intros Hcov.
  - clear. induction u as [|x u IHu]; [done|].
    rewrite fmap_cons, np_sum_cons, IHu. done.
  - rewrite np_sum_count_occ_cons by done.
    rewrite IH by (intros x Hx; apply Hcov; by right).
    rewrite decide_True by (apply Hcov; left).
    cbn [length]. lia.
Qed.

Lemma Qsum_Permutation (a b : list Q) : a ≡ₚ b → (Qsum a == Qsum b)%Q.
Proof.
  induction 1 as [|x a b _ IH|x y a|a b c _ IH1 _ IH2].
  - reflexivity.
  - rewrite !Qsum_cons, IH. reflexivity.
  - rewrite !Qsum_cons. lra.
  - by rewrite IH1.
Qed.

Lemma Qsum_true_divide (a : list Z) (d : Z) :
  (Qsum (np_true_divide a d) == inject_Z (np_sum a) / inject_Z d)%Q.
Proof.
  unfold np_true_divide. induction a as [|c a IH].
  - simpl. unfold Qdiv. ring.
  - cbn [fmap list_fmap np_sum foldr].
    change (foldr Z.add 0 a) with (np_sum a).
    rewrite Qsum_cons, inject_Z_plus.
    change (list_fmap Z Q ?f a) with (f <$> a). rewrite IH.
    unfold Qdiv. ring.
Qed.

Lemma zip_fmap_self {A B} (f : A → B) (u : list A) :
  zip u (f <$> u) = (fun x => (x, f x)) <$> u.
Proof.
  induction u as [|x u IH]; [done|].
  rewrite !fmap_cons. cbn [zip_with]. by rewrite IH.
Qed.

Lemma unique_counts_sum (a : list Z) :
  np_sum (np_unique_counts a).2 = Z.of_nat (length a).
Proof.
  simpl. apply np_sum_count_occ.
  - apply (unique_NoDup a).
  - intros x Hx. by apply (unique_elem_of a).
Qed.

Lemma unique_zip (a : list Z) :
  zip (np_unique_counts a).1
      (np_true_divide (np_unique_counts a).2 (np_sum (np_unique_counts a).2))
  = (fun x => (x, (inject_Z (Z.of_nat (count_occ Z.eq_dec a x))
                   / inject_Z (Z.of_nat (length a)))%Q))
    <$> (np_unique_counts a).1.
Proof.
  rewrite unique_counts_sum. unfold np_true_divide. simpl.
  rewrite <- list_fmap_compose. apply zip_fmap_self.
Qed.

(** The dictionary built from the scores of a successful run. *)
Lemma simulate_many_holes_ok default_rng (fuel : nat) par_m p q n_sim seed
    scores rng' :
  smh_loop fuel par_m p q (Z.to_nat n_sim) [] (default_rng seed)
  = Some (Ok scores, rng') →
  simulate_many_holes default_rng fuel par_m p q n_sim seed
  = Some (Ok (list_to_map
                (zip (np_unique_counts scores).1
                     (np_true_divide (np_unique_counts scores).2
                        (np_sum (np_unique_counts scores).2))))).
Proof. intros H. unfold simulate_many_holes. by rewrite H. Qed.

Lemma simulate_many_holes_raise default_rng (fuel : nat) par_m p q n_sim seed
    e rng' :
  smh_loop fuel par_m p q (Z.to_nat n_sim) [] (default_rng seed)
  = Some (Raise e, rng') →
  simulate_many_holes default_rng fuel par_m p q n_sim seed = Some (Raise e).
Proof. intros H. unfold simulate_many_holes. by rewrite H. Qed.

(** Every entry of the dictionary is a score that occurred, with its
    relative frequency. *)
Lemma tally_lookup (a : list Z) k v :
  (list_to_map
     (zip (np_unique_counts a).1
          (np_true_divide (np_unique_counts a).2
             (np_sum (np_unique_counts a).2))) : gmap Z Q) !! k = Some v →
  k ∈ a
  ∧ v = (inject_Z (Z.of_nat (count_occ Z.eq_dec a k))
         / inject_Z (Z.of_nat (length a)))%Q
  ∧ (0 < v)%Q ∧ (v <= 1)%Q.
Proof.
  intros H%elem_of_list_to_map_2. rewrite unique_zip in H.
  apply list_elem_of_fmap in H as (x & [= -> ->] & Hx).
  apply (proj1 (unique_elem_of a x)) in Hx. split; [done|]. split; [done|].
  assert (Hc : (0 < count_occ Z.eq_dec a x)%nat).
  { apply count_occ_In. by apply list_elem_of_In. }
  pose proof (count_occ_bound Z.eq_dec x a) as Hb.
  assert (Hn : (0 < inject_Z (Z.of_nat (length a)))%Q).
  { change 0%Q with (inject_Z 0). rewrite <- Zlt_Qlt. lia. }
  split.
  - apply Qlt_shift_div_l; [done|]. rewrite Qmult_0_l.
    change 0%Q with (inject_Z 0). rewrite <- Zlt_Qlt. lia.
  - apply Qle_shift_div_r; [done|]. rewrite Qmult_1_l.
    rewrite <- Zle_Qle. lia.
Qed.

(** The frequencies of a non-empty run add up to 1. *)
Lemma tally_total (a : list Z) :
  a ≠ [] →
  (Qsum (snd <$> map_to_list
           (list_to_map
              (zip (np_unique_counts a).1
                   (np_true_divide (np_unique_counts a).2
                      (np_sum (np_unique_counts a).2))) : gmap Z Q))
   == 1)%Q.
Proof.
  intros Ha.
  assert (Hlen : length (np_true_divide (np_unique_counts a).2
                           (np_sum (np_unique_counts a).2))
                 = length (np_unique_counts a).1).
  { unfold np_true_divide. simpl. by rewrite !length_fmap. }
  rewrite (Qsum_Permutation _
             (np_true_divide (np_unique_counts a).2
                (np_sum (np_unique_counts a).2))).
  - rewrite Qsum_true_divide, unique_counts_sum.
    apply Qmult_inv_r. destruct a as [|x a]; [done|]. discriminate.
  - rewrite map_to_list_to_map.
    + rewrite snd_zip; [done|lia].
    + rewrite fst_zip by lia. apply unique_NoDup.
Qed.

(** X5. With [n_sim <= 0] no hole is played, so nothing is validated:
    the result is the empty dictionary for every [par_m], [p] and [q],
    valid or not. *)
Theorem simulate_many_holes_no_trials default_rng (fuel : nat) (par_m : Z)
    (p q : Q) (n_sim : Z) (seed : option Z) :
  n_sim <= 0 →
  simulate_many_holes default_rng fuel par_m p q n_sim seed = Some (Ok ∅).
Proof.
  intros Hn. unfold simulate_many_holes.
  by replace (Z.to_nat n_sim) with 0%nat by lia.
Qed.

Lemma simulate_many_holes_no_trials_witness :
  simulate_many_holes (fun _ => mkGenerator (fun _ => Good) 0) 0 (-2)
    (3#2) (-1#2) 0 None
  = Some (Ok ∅).
Proof.
  apply (simulate_many_holes_no_trials (fun _ => mkGenerator (fun _ => Good) 0)
           0 (-2) (3#2) (-1#2) 0 None).
  lia.
Defined.

(** X6. With at least one trial, invalid probabilities make the whole
    call raise the [ValueError] of the first hole. *)
Theorem simulate_many_holes_rejects_probs default_rng (fuel : nat)
    (par_m : Z) (p q : Q) (n_sim : Z) (seed : option Z) :
  (p < 0)%Q ∨ (q < 0)%Q ∨ (1 <= p + q)%Q → 1 <= n_sim →
  simulate_many_holes default_rng fuel par_m p q n_sim seed
  = Some (Raise ValueError).
Proof.
  intros H%bad_probs_true Hn. unfold simulate_many_holes.
  replace (Z.to_nat n_sim) with (S (Z.to_nat (n_sim - 1))) by lia.
  cbn [smh_loop]. unfold simulate_hole_hardy. by rewrite H.
Qed.

Lemma simulate_many_holes_rejects_probs_witness :
  simulate_many_holes (fun _ => mkGenerator (fun _ => Good) 0) 21 4
    (3#5) (1#2) 10 None
  = Some (Raise ValueError).
Proof.
  apply (simulate_many_holes_rejects_probs
           (fun _ => mkGenerator (fun _ => Good) 0) 21 4 (3#5) (1#2) 10 None);
    [right; right; unfold Qle; simpl; lia | lia].
Defined.

(** X7. With valid probabilities and at least one trial the call either
    raises [RuntimeError] (some hole ran past 19 shots) or returns a
    dictionary whose keys are scores within [0..19] and at least
    [par_m / 2], whose values lie in (0, 1], and whose values add up
    to 1. *)
Theorem simulate_many_holes_frequencies default_rng (fuel : nat) (par_m : Z)
    (p q : Q) (n_sim : Z) (seed : option Z) :
  valid_probs p q → 1 <= n_sim → (21 <= fuel)%nat →
  simulate_many_holes default_rng fuel par_m p q n_sim seed
  = Some (Raise RuntimeError)
  ∨ ∃ m : gmap Z Q,
      simulate_many_holes default_rng fuel par_m p q n_sim seed = Some (Ok m)
      ∧ (∀ k v, m !! k = Some v →
           0 <= k <= 19 ∧ par_m <= 2 * k ∧ (0 < v)%Q ∧ (v <= 1)%Q)
      ∧ (Qsum (snd <$> map_to_list m) == 1)%Q.
Proof.
  intros Hpq Hn Hfuel.
  destruct (smh_loop_run fuel par_m p q (Z.to_nat n_sim) []
              (default_rng seed) Hpq Hfuel)
    as (r & rng' & Hrun & _ & [->|(scores & -> & Hlen & Hall & _)]).
  { left. by eapply simulate_many_holes_raise. }
  right. rewrite app_nil_l in Hrun.
  eexists. split; [by eapply simulate_many_holes_ok|]. split.
  - intros k v (Hk & _ & Hpos & Hle)%tally_lookup.
    rewrite Forall_forall in Hall. destruct (Hall k Hk) as [? ?]. done.
  - apply tally_total. intros ->. simpl in Hlen. lia.
Qed.

Lemma simulate_many_holes_frequencies_witness :
  simulate_many_holes
    (fun _ => mkGenerator (fun n => if Nat.even n then Bad else Good) 0)
    21 4 (2#5) (1#10) 3 (Some 7)
  = Some (Raise RuntimeError)
  ∨ ∃ m : gmap Z Q,
      simulate_many_holes
        (fun _ => mkGenerator (fun n => if Nat.even n then Bad else Good) 0)
        21 4 (2#5) (1#10) 3 (Some 7) = Some (Ok m)
      ∧ (∀ k v, m !! k = Some v →
           0 <= k <= 19 ∧ 4 <= 2 * k ∧ (0 < v)%Q ∧ (v <= 1)%Q)
      ∧ (Qsum (snd <$> map_to_list m) == 1)%Q.
Proof.
  apply (simulate_many_holes_frequencies
           (fun _ => mkGenerator (fun n => if Nat.even n then Bad else Good) 0)
           21 4 (2#5) (1#10) 3 (Some 7));
    [valid_probs_here | lia | lia].
Defined.

(** X8. A par above 38 cannot be reached within the fixed cap of 19
    shots: with valid probabilities and at least one trial the call raises
    [RuntimeError] for every seed. *)
Theorem simulate_many_holes_par_out_of_reach default_rng (fuel : nat)
    (par_m : Z) (p q : Q) (n_sim : Z) (seed : option Z) :
  valid_probs p q → 38 < par_m → 1 <= n_sim → (21 <= fuel)%nat →
  simulate_many_holes default_rng fuel par_m p q n_sim seed
  = Some (Raise RuntimeError).
Proof.
  intros Hpq Hpar Hn Hfuel.
  destruct (smh_loop_run fuel par_m p q (Z.to_nat n_sim) []
              (default_rng seed) Hpq Hfuel)
    as (r & rng' & Hrun & _ & [->|(scores & -> & Hlen & Hall & _)]).
  { by eapply simulate_many_holes_raise. }
  destruct scores as [|s scores]; [simpl in Hlen; lia|].
  apply Forall_cons in Hall as [[? ?] _]. lia.
Qed.

Lemma simulate_many_holes_par_out_of_reach_witness :
  simulate_many_holes (fun _ => mkGenerator (fun _ => Good) 0) 21 39
    (2#5) (1#10) 5 None
  = Some (Raise RuntimeError).
Proof.
  apply (simulate_many_holes_par_out_of_reach
           (fun _ => mkGenerator (fun _ => Good) 0) 21 39 (2#5) (1#10) 5 None);
    [valid_probs_here | lia | lia | lia].
Defined.

(** X9. The trials run back to back on one generator: when the loop of
    [n] trials succeeds it has collected [n] scores and the generator has
    advanced by exactly their sum, so each hole starts at the outcome the
    previous one stopped before. *)
Theorem smh_loop_threads_generator (fuel : nat) (par_m : Z) (p q : Q)
    (n : nat) (rng rng' : Generator) (scores : list Z) :
  valid_probs p q → (21 <= fuel)%nat →
  smh_loop fuel par_m p q n [] rng = Some (Ok scores, rng') →
  length scores = n
  ∧ stream rng' = stream rng
  ∧ Z.of_nat (drawn rng') = Z.of_nat (drawn rng) + np_sum scores.
Proof.
  intros Hpq Hfuel Hrun.
  destruct (smh_loop_run fuel par_m p q n [] rng Hpq Hfuel)
    as (r & rng'' & Hrun' & Hs & Hr).
  rewrite Hrun in Hrun'. injection Hrun' as <- <-.
  destruct Hr as [?|(new & [= ->] & Hlen & _ & Hdrawn)]; done.
Qed.

Lemma smh_loop_threads_generator_witness :
  length [4; 4] = 2%nat
  ∧ stream (mkGenerator (fun n => if Nat.even n then Bad else Good) 8)
    = stream (mkGenerator (fun n => if Nat.even n then Bad else Good) 0)
  ∧ Z.of_nat
      (drawn (mkGenerator (fun n => if Nat.even n then Bad else Good) 8))
    = Z.of_nat
        (drawn (mkGenerator (fun n => if Nat.even n then Bad else Good) 0))
      + np_sum [4; 4].
Proof.
  apply (smh_loop_threads_generator 21 4 (2#5) (1#10) 2
           (mkGenerator (fun n => if Nat.even n then Bad else Good) 0)
           (mkGenerator (fun n => if Nat.even n then Bad else Good) 8)
           [4; 4]);
    [valid_probs_here | lia | reflexivity].
Defined.

Lemma smh_loop_nonpositive_par (fuel : nat) par_m p q (n : nat) scores rng :
  valid_probs p q → par_m <= 0 → (1 <= fuel)%nat →
  smh_loop fuel par_m p q n scores rng
  = Some (Ok (scores ++ replicate n 0), rng).
Proof.
  intros Hpq%bad_probs_false Hpar Hfuel. revert scores.
  induction n as [|n IH]; intros scores; [by rewrite app_nil_r|].
  cbn [smh_loop]. unfold simulate_hole_hardy. rewrite Hpq.
  destruct fuel as [|fuel]; [lia|]. cbn [simulate_loop].
  replace (0 <? par_m) with false by (symmetry; apply Z.ltb_ge; lia).
  rewrite IH, <- app_assoc. done.
Qed.

Lemma unique_counts_zeros (n : nat) :
  np_unique_counts (replicate (S n) 0) = ([0], [Z.of_nat (S n)]).
Proof.
  unfold np_unique_counts.
  assert (E : remove_dups (replicate (S n) 0) = [0]).
  { induction n as [|n IH]; [done|].
    change (replicate (S (S n)) 0) with (0 :: replicate (S n) 0).
    cbn [remove_dups]. rewrite IH.
    destruct (decide_rel elem_of 0 (replicate (S n) 0)) as [|Hnot]; [done|].
    destruct Hnot. left. }
  rewrite E. change (merge_sort Z.le [0]) with [0].
  cbn [fmap list_fmap]. do 3 f_equal.
  induction n as [|n IH]; [done|].
  change (replicate (S (S n)) 0) with (0 :: replicate (S n) 0).
  rewrite count_occ_cons_eq by done. by rewrite IH.
Qed.

(** X10. [par_m] is not validated here either: for [par_m <= 0], valid
    probabilities and at least one trial, every hole scores 0 and the
    result is the dictionary [{0: 1.0}]. *)
Theorem simulate_many_holes_nonpositive_par default_rng (fuel : nat)
    (par_m : Z) (p q : Q) (n_sim : Z) (seed : option Z) :
  valid_probs p q → par_m <= 0 → 1 <= n_sim → (1 <= fuel)%nat →
  ∃ v, simulate_many_holes default_rng fuel par_m p q n_sim seed
       = Some (Ok {[ 0 := v ]})
       ∧ (v == 1)%Q.
Proof.
  intros Hpq Hpar Hn Hfuel.
  pose proof (smh_loop_nonpositive_par fuel par_m p q (Z.to_nat n_sim) []
                (default_rng seed) Hpq Hpar Hfuel) as Hrun.
  rewrite app_nil_l in Hrun.
  rewrite (simulate_many_holes_ok _ _ _ _ _ _ _ _ _ Hrun).
  replace (Z.to_nat n_sim) with (S (Z.to_nat (n_sim - 1))) by lia.
  rewrite unique_counts_zeros. cbn [fst snd].
  eexists. split; [reflexivity|].
  unfold np_sum. cbn [foldr]. rewrite Z.add_0_r.
  apply Qmult_inv_r.
  change 0%Q with (inject_Z 0). rewrite inject_Z_injective. lia.
Qed.

Lemma simulate_many_holes_nonpositive_par_witness :
  ∃ v, simulate_many_holes (fun _ => mkGenerator (fun _ => Good) 0) 21 0
         (2#5) (1#10) 3 None
       = Some (Ok {[ 0 := v ]})
       ∧ (v == 1)%Q.
Proof.
  apply (simulate_many_holes_nonpositive_par
           (fun _ => mkGenerator (fun _ => Good) 0) 21 0 (2#5) (1#10) 3 None);
    [valid_probs_here | lia | lia | lia].
Defined.

(** ** More on the chain *)

Section ChainMore.
Variables (par : nat) (counts : nat → bool) (pg pb po : Q).
Hypotheses (Hpg : (0 <= pg)%Q) (Hpb : (0 <= pb)%Q) (Hpo : (0 <= po)%Q).

(** A shot writes [pmf] at its own subscript only. *)
Lemma move_other k v m st n :
  n ≠ k → (move par counts k v m st).1 !! n = st.1 !! n.
Proof.
  intros Hne. unfold move, add_at. repeat case_match; simpl; try done.
  by apply list_lookup_alter_ne.
Qed.

Lemma visit_other cur k st s n :
  n ≠ k → (visit par counts pg pb po cur k st s).1 !! n = st.1 !! n.
Proof.
  intros Hne. unfold visit. case_match; [done|]. simpl.
  rewrite move_other, move_other; done.
Qed.

Lemma sweep_other cur k st ss n :
  n ≠ k →
  (foldl (visit par counts pg pb po cur k) st ss).1 !! n = st.1 !! n.
Proof.
  intros Hne. revert st. induction ss as [|s ss IH]; intros st; [done|].
  simpl. by rewrite IH, visit_other.
Qed.

Lemma advance_other st k n :
  n ≠ k → (advance par counts pg pb po st k).1 !! n = st.1 !! n.
Proof. intros Hne. unfold advance. by rewrite sweep_other. Qed.

Lemma run_other ks st n :
  n ∉ ks → (run par counts pg pb po ks st).1 !! n = st.1 !! n.
Proof.
  unfold run. revert st. induction ks as [|k ks IH]; intros st Hn; [done|].
  apply not_elem_of_cons in Hn as [Hne Hn].
  simpl. by rewrite IH, advance_other.
Qed.

(** Entries of the next state vector only grow during a sweep. *)
Lemma at0_add_at_mono a k x n :
  (0 <= x)%Q → (at0 a n <= at0 (add_at a k x) n)%Q.
Proof.
  intros Hx. destruct (decide (n = k)) as [->|Hne].
  - destruct (Nat.lt_ge_cases k (length a)) as [Hk|Hk].
    + rewrite at0_add_at_eq by done. lra.
    + rewrite add_at_ge by done. lra.
  - rewrite at0_add_at_ne by done. lra.
Qed.

Lemma move_state_mono k v m st n :
  (0 <= m)%Q → (at0 st.2 n <= at0 (move par counts k v m st).2 n)%Q.
Proof.
  intros Hm. unfold move. repeat case_match; simpl; try lra.
  by apply at0_add_at_mono.
Qed.

Lemma visit_state_mono cur k st s n :
  nonneg cur →
  (at0 st.2 n <= at0 (visit par counts pg pb po cur k st s).2 n)%Q.
Proof.
  intros Hcur. pose proof (nonneg_at0 cur s Hcur) as Hm.
  unfold visit. case_match; [lra|]. simpl.
  assert (H1 : (0 <= at0 cur s * pg)%Q) by by apply Qmult_le_0_compat.
  assert (H2 : (0 <= at0 cur s * po)%Q) by by apply Qmult_le_0_compat.
  assert (H3 : (0 <= at0 cur s * pb)%Q) by by apply Qmult_le_0_compat.
  pose proof (move_state_mono k (s + 2) _ st n H1) as M1.
  pose proof (move_state_mono k (s + 1) _
                (move par counts k (s + 2) (at0 cur s * pg) st) n H2) as M2.
  set (st2 := move par counts k (s + 1) _ _) in *.
  pose proof (at0_add_at_mono st2.2 s _ n H3). lra.
Qed.

Lemma sweep_state_mono cur k st ss n :
  nonneg cur →
  (at0 st.2 n
   <= at0 (foldl (visit par counts pg pb po cur k) st ss).2 n)%Q.
Proof.
  intros Hcur. revert st. induction ss as [|s ss IH]; intros st; [simpl; lra|].
  simpl. pose proof (visit_state_mono cur k st s n Hcur).
  pose proof (IH (visit par counts pg pb po cur k st s)). lra.
Qed.

(** The bad outcome keeps its share of every transient state in
    place. *)
Lemma visit_stays cur k st s :
  nonneg cur → (s < length st.2)%nat →
  (at0 st.2 s + at0 cur s * pb
   <= at0 (visit par counts pg pb po cur k st s).2 s)%Q.
Proof.
  intros Hcur Hs. pose proof (nonneg_at0 cur s Hcur) as Hm.
  unfold visit. destruct (Qeq_bool (at0 cur s) 0) eqn:Hz.
  - apply Qeq_bool_iff in Hz.
    assert (E : (at0 cur s * pb == 0)%Q) by (rewrite Hz; ring). lra.
  - simpl.
    assert (H1 : (0 <= at0 cur s * pg)%Q) by by apply Qmult_le_0_compat.
    assert (H2 : (0 <= at0 cur s * po)%Q) by by apply Qmult_le_0_compat.
    pose proof (move_state_mono k (s + 2) _ st s H1) as M1.
    pose proof (move_state_mono k (s + 1) _
                  (move par counts k (s + 2) (at0 cur s * pg) st) s H2) as M2.
    pose proof (move_sized par counts _ _ k (s + 1) (at0 cur s * po)%Q _
                  (move_sized par counts _ _ k (s + 2) (at0 cur s * pg)%Q st
                     (conj eq_refl eq_refl))) as [_ L].
    set (st2 := move par counts k (s + 1) _ _) in *.
    rewrite at0_add_at_eq by lia. lra.
Qed.

Lemma sweep_stays cur k st ss s :
  nonneg cur → (s < length st.2)%nat → s ∈ ss →
  (at0 st.2 s + at0 cur s * pb
   <= at0 (foldl (visit par counts pg pb po cur k) st ss).2 s)%Q.
Proof.
  intros Hcur Hs Hin. revert st Hs.
  induction ss as [|t ss IH]; intros st Hs; [by apply elem_of_nil in Hin|].
  simpl. apply elem_of_cons in Hin as [<-|Hin].
  - pose proof (visit_stays cur k st s Hcur Hs).
    pose proof (sweep_state_mono cur k
                  (visit par counts pg pb po cur k st s) ss s Hcur). lra.
  - pose proof (visit_sized par counts pg pb po _ _ cur k st t
                  (conj eq_refl eq_refl)) as [_ L].
    pose proof (IH Hin (visit par counts pg pb po cur k st t)
                  ltac:(lia)).
    pose proof (visit_state_mono cur k st t s Hcur). lra.
Qed.

Lemma advance_stays st k s :
  nonneg st.2 → (s < par)%nat → length st.2 = par →
  (at0 st.2 s * pb <= at0 (advance par counts pg pb po st k).2 s)%Q.
Proof.
  intros Hcur Hs Hlen. unfold advance.
  pose proof (sweep_stays st.2 k (st.1, replicate (length st.2) 0%Q)
                (seq 0 par) s Hcur) as M.
  simpl in M. rewrite length_replicate in M.
  specialize (M ltac:(lia) ltac:(apply elem_of_seq; lia)).
  pose proof (at0_replicate_0 (length st.2) s). lra.
Qed.

(** After the shots [ks], a transient state still holds at least
    [pb^|ks|] of what it held. *)
Lemma run_stays ks st s :
  nonneg st.1 ∧ nonneg st.2 → (s < par)%nat → length st.2 = par →
  (at0 st.2 s * pb ^ Z.of_nat (length ks)
   <= at0 (run par counts pg pb po ks st).2 s)%Q.
Proof.
  unfold run. revert st.
  induction ks as [|k ks IH]; intros st Hst Hs Hlen.
  - simpl. lra.
  - cbn [foldl length]. rewrite Qpower_nat_succ.
    pose proof (advance_nonneg par counts pg pb po Hpg Hpb Hpo st k Hst)
      as Hst'.
    pose proof (advance_sized par counts pg pb po _ _ st k
                  (conj eq_refl Hlen)) as [_ L].
    specialize (IH _ Hst' Hs L).
    pose proof (advance_stays st k s (proj2 Hst) Hs Hlen) as M.
    assert (Hpow : (0 <= pb ^ Z.of_nat (length ks))%Q)
      by by apply Qpower_0_le.
    assert (M' : (at0 st.2 s * pb * pb ^ Z.of_nat (length ks)
                  <= at0 (advance par counts pg pb po st k).2 s
                     * pb ^ Z.of_nat (length ks))%Q)
      by by apply Qmult_le_compat_r.
    assert (E : (at0 st.2 s * (pb ^ Z.of_nat (length ks) * pb)
                 == at0 st.2 s * pb * pb ^ Z.of_nat (length ks))%Q) by ring.
    lra.
Qed.
End ChainMore.

Lemma at0_le_Qsum a n : nonneg a → (at0 a n <= Qsum a)%Q.
Proof.
  unfold at0. intros Ha. revert n.
  induction Ha as [|x a Hx Ha IH]; intros n; [destruct n; simpl; lra|].
  rewrite Qsum_cons. pose proof (Qsum_nonneg a Ha).
  destruct n as [|n]; [simpl; lra|].
  change ((x :: a) !! S n) with (a !! n). specialize (IH n). lra.
Qed.

(** ** No finish before the par can be covered *)

Lemma at0_replicate_0_eq n k : at0 (replicate n 0%Q) k = 0%Q.
Proof.
  unfold at0. destruct (replicate n 0%Q !! k) as [x|] eqn:Hx; [|done].
  by apply lookup_replicate in Hx as [-> _].
Qed.

Lemma start_beyond len par i : beyond i (start len par i).2.
Proof.
  intros n Hn. simpl. unfold at0.
  rewrite list_lookup_insert_ne by lia. apply at0_replicate_0_eq.
Qed.

Section ChainEarly.
Variables (par : nat) (counts : nat → bool) (pg pb po : Q).

Lemma move_beyond B k v m st :
  beyond B st.2 → ((v < par)%nat → (v <= B)%nat) →
  beyond B (move par counts k v m st).2.
Proof.
  intros Hst Hv. unfold move.
  destruct (Nat.leb_spec par v); [by case_match|].
  intros n Hn. simpl. rewrite at0_add_at_ne by lia. by apply Hst.
Qed.

Lemma visit_beyond B cur k st s :
  beyond B cur → beyond (B + 2) st.2 →
  beyond (B + 2) (visit par counts pg pb po cur k st s).2.
Proof.
  intros Hcur Hst. unfold visit.
  destruct (Nat.le_gt_cases s B) as [Hs|Hs].
  - case_match; [done|].
    intros n Hn. simpl. rewrite at0_add_at_ne by lia.
    apply (move_beyond (B + 2)); [|lia|done].
    apply (move_beyond (B + 2)); [done|lia].
  - by rewrite (Hcur s Hs).
Qed.

Lemma sweep_beyond B cur k st ss :
  beyond B cur → beyond (B + 2) st.2 →
  beyond (B + 2) (foldl (visit par counts pg pb po cur k) st ss).2.
Proof.
  intros Hcur. revert st. induction ss as [|s ss IH]; intros st Hst; [done|].
  simpl. apply IH. by apply visit_beyond.
Qed.

(** One shot moves the mass up by at most 2. *)
Lemma advance_beyond B st k :
  beyond B st.2 → beyond (B + 2) (advance par counts pg pb po st k).2.
Proof.
  intros Hst. unfold advance. apply sweep_beyond; [done|].
  intros n _. apply at0_replicate_0_eq.
Qed.

Lemma move_idle k v m st :
  (v < par)%nat → (move par counts k v m st).1 = st.1.
Proof.
  intros Hv. unfold move.
  by replace (par <=? v)%nat with false by (symmetry; apply Nat.leb_gt; lia).
Qed.

Lemma visit_idle B cur k st s :
  beyond B cur → (B + 2 < par)%nat →
  (visit par counts pg pb po cur k st s).1 = st.1.
Proof.
  intros Hcur HB. unfold visit.
  destruct (Nat.le_gt_cases s B) as [Hs|Hs].
  - case_match; [done|]. simpl. rewrite move_idle, move_idle by lia. done.
  - by rewrite (Hcur s Hs).
Qed.

Lemma sweep_idle B cur k st ss :
  beyond B cur → (B + 2 < par)%nat →
  (foldl (visit par counts pg pb po cur k) st ss).1 = st.1.
Proof.
  intros Hcur HB. revert st.
  induction ss as [|s ss IH]; intros st; [done|].
  simpl. by rewrite IH, (visit_idle B).
Qed.

(** While no state within 2 of the par holds mass, a shot adds nothing to
    [pmf]. *)
Lemma advance_idle B st k :
  beyond B st.2 → (B + 2 < par)%nat →
  (advance par counts pg pb po st k).1 = st.1.
Proof. intros Hst HB. unfold advance. by rewrite (sweep_idle B). Qed.

Lemma run_early ks B st idx :
  beyond B st.2 →
  (∀ t, ks !! t = Some idx → (B + 2 * t + 2 < par)%nat) →
  (run par counts pg pb po ks st).1 !! idx = st.1 !! idx.
Proof.
  unfold run. revert B st.
  induction ks as [|k ks IH]; intros B st Hst Hidx; [done|].
  cbn [foldl]. rewrite (IH (B + 2)%nat).
  - destruct (decide (idx = k)) as [->|Hne].
    + rewrite (advance_idle B); [done|done|].
      specialize (Hidx 0%nat eq_refl). lia.
    + by apply advance_other.
  - by apply advance_beyond.
  - intros t Ht. specialize (Hidx (S t) Ht). lia.
Qed.
End ChainEarly.

(** ** More on the two solvers *)

Lemma at0_start_own len par i :
  (i < par)%nat → at0 (start len par i).2 i = 1%Q.
Proof.
  intros Hi. simpl. unfold at0.
  by rewrite list_lookup_insert_eq by (rewrite length_replicate; lia).
Qed.

(** The mass still on the start state bounds what [pmf] can hold. *)
Lemma run_tail par counts p q ks len i :
  valid_probs p q → (i < par)%nat →
  (Qsum (run par counts p q (1 - p - q)%Q ks (start len par i)).1
   <= 1 - q ^ Z.of_nat (length ks))%Q.
Proof.
  intros Hpq Hi.
  destruct (valid_probs_chain p q Hpq) as (Hp & Hq & Ho & Hsum).
  pose proof (run_mass_le par counts p q (1 - p - q)%Q Hp Hq Ho Hsum ks
                (start len par i) (start_nonneg _ _ _)) as M.
  rewrite mass_start in M by done.
  pose proof (run_stays par counts p q (1 - p - q)%Q Hp Hq Ho ks
                (start len par i) i (start_nonneg _ _ _) Hi) as T.
  rewrite at0_start_own in T by done.
  specialize (T ltac:(apply start_sized)).
  destruct (run_nonneg par counts p q (1 - p - q)%Q Hp Hq Ho ks
              (start len par i) (start_nonneg _ _ _)) as [_ Hpos].
  pose proof (at0_le_Qsum _ i Hpos). unfold mass in M. lra.
Qed.

(** X11. The truncation tail of [hardy_distribution_markov] never
    vanishes while bad shots are possible: for valid probabilities,
    [par_m >= 1] and [n_max >= 0] the pmf sums to at most [1 - q^n_max],
    so to less than 1 when [q > 0]. *)
Theorem hardy_distribution_markov_tail (par_m : Z) (p q : Q) (n_max : Z) :
  valid_probs p q → 1 <= par_m → 0 <= n_max →
  ∃ pmf,
    hardy_distribution_markov par_m p q n_max
    = Ok (np_arange 1 (n_max + 1), pmf)
    ∧ (Qsum pmf <= 1 - q ^ n_max)%Q
    ∧ ((0 < q)%Q → (Qsum pmf < 1)%Q).
Proof.
  intros Hpq Hpar Hn.
  replace par_m with (Z.of_nat (Z.to_nat par_m)) by lia.
  rewrite hardy_distribution_markov_chain by (done || lia).
  eexists. split; [done|].
  pose proof (run_tail (Z.to_nat par_m) counts_single p q
                (seq 0 (Z.to_nat n_max)) (Z.to_nat n_max) 0 Hpq ltac:(lia))
    as T.
  rewrite length_seq, Z2Nat.id in T by lia.
  split; [done|]. intros Hq.
  pose proof (Qpower_0_lt q n_max Hq). lra.
Qed.

Lemma hardy_distribution_markov_tail_witness :
  ∃ pmf,
    hardy_distribution_markov 2 (1#2) (1#4) 3 = Ok (np_arange 1 (3 + 1), pmf)
    ∧ (Qsum pmf <= 1 - (1#4) ^ 3)%Q
    ∧ ((0 < 1#4)%Q → (Qsum pmf < 1)%Q).
Proof.
  apply (hardy_distribution_markov_tail 2 (1#2) (1#4) 3);
    [valid_probs_here | lia | lia].
Defined.

(** X12. No hole is finished before the shots can add up to the par:
    the entry of [hardy_distribution_markov] for step [n] is exactly 0
    whenever [2 n < par_m]. *)
Theorem hardy_distribution_markov_earliest (par_m : Z) (p q : Q)
    (n_max n : Z) :
  valid_probs p q → 1 <= par_m → 1 <= n <= n_max → 2 * n < par_m →
  ∃ pmf,
    hardy_distribution_markov par_m p q n_max
    = Ok (np_arange 1 (n_max + 1), pmf)
    ∧ pmf !! Z.to_nat (n - 1) = Some 0%Q.
Proof.
  intros Hpq Hpar Hn Hearly.
  replace par_m with (Z.of_nat (Z.to_nat par_m)) by lia.
  rewrite hardy_distribution_markov_chain by (done || lia).
  eexists. split; [done|].
  rewrite (run_early _ _ _ _ _ _ 0%nat).
  - simpl. apply lookup_replicate_2. lia.
  - apply start_beyond.
  - intros t [Ht _]%lookup_seq. lia.
Qed.

Lemma hardy_distribution_markov_earliest_witness :
  ∃ pmf,
    hardy_distribution_markov 5 (1#2) (1#4) 4 = Ok (np_arange 1 (4 + 1), pmf)
    ∧ pmf !! Z.to_nat (2 - 1) = Some 0%Q.
Proof.
  apply (hardy_distribution_markov_earliest 5 (1#2) (1#4) 4 2);
    [valid_probs_here | lia | lia | lia].
Defined.

(** X13. The same for [hardy_finish_pmf_ij] from a transient start [i]:
    the entry of step [n] is exactly 0 whenever [i + 2 n < par_m], for
    either target; in particular [pmf[0] = 0]. *)
Theorem hardy_finish_pmf_ij_earliest (par_m i j : Z) (p q : Q)
    (n_max n : Z) :
  valid_probs p q → 1 <= par_m → 0 <= i < par_m →
  j = par_m ∨ j = par_m + 1 → 0 <= n <= n_max → i + 2 * n < par_m →
  ∃ pmf,
    hardy_finish_pmf_ij par_m i j p q n_max = Ok (np_arange 0 (n_max + 1), pmf)
    ∧ pmf !! Z.to_nat n = Some 0%Q.
Proof.
  intros Hpq Hpar Hi Hj Hn Hearly.
  replace par_m with (Z.of_nat (Z.to_nat par_m)) in * by lia.
  replace i with (Z.of_nat (Z.to_nat i)) by lia.
  rewrite hardy_finish_pmf_ij_chain by (done || lia).
  eexists. split; [done|].
  rewrite (run_early _ _ _ _ _ _ (Z.to_nat i)).
  - simpl. apply lookup_replicate_2. lia.
  - apply start_beyond.
  - intros t [Ht _]%lookup_seq. lia.
Qed.

Lemma hardy_finish_pmf_ij_earliest_witness :
  ∃ pmf,
    hardy_finish_pmf_ij 5 1 5 (1#2) (1#4) 4 = Ok (np_arange 0 (4 + 1), pmf)
    ∧ pmf !! Z.to_nat 1 = Some 0%Q.
Proof.
  apply (hardy_finish_pmf_ij_earliest 5 1 5 (1#2) (1#4) 4 1);
    [valid_probs_here | lia | lia | left; reflexivity | lia | lia].
Defined.

Lemma Qsum_pointwise (a b c : list Q) :
  length b = length a → length c = length a →
  (∀ n, (at0 a n == at0 b n + at0 c n)%Q) →
  (Qsum a == Qsum b + Qsum c)%Q.
Proof.
  revert b c. induction a as [|x a IH]; intros [|y b] [|z c] Hb Hc H;
    try done.
  rewrite !Qsum_cons.
  pose proof (H 0%nat) as H0. change (x == y + z)%Q in H0.
  rewrite (IH b c); [lra|by injection Hb|by injection Hc|].
  intros n. apply (H (S n)).
Qed.

(** The pmf of the single chain is the two dual pmfs, shifted by one
    subscript, added up. *)
Lemma merged_total N s o e :
  merged N s o e → (at0 o.1 0 == 0)%Q → (at0 e.1 0 == 0)%Q →
  (Qsum s.1 == Qsum o.1 + Qsum e.1)%Q.
Proof.
  intros (_ & _ & Ls & Lo & Le & H) Ho He.
  destruct o.1 as [|o0 o']; [done|]. destruct e.1 as [|e0 e']; [done|].
  rewrite !Qsum_cons. change (o0 == 0)%Q in Ho. change (e0 == 0)%Q in He.
  rewrite (Qsum_pointwise s.1 o' e').
  - lra.
  - simpl in Lo. lia.
  - simpl in Le. lia.
  - intros n. apply (H n).
Qed.

(** X14. From one transient start, the first-passage pmf to [par_m] and
    the one to [par_m + 1] together hold at most [1 - q^n_max]: landing on
    the par and overshooting it exclude each other, and what is missing is
    the mass not yet absorbed. *)
Theorem hardy_finish_pmf_ij_both_targets (par_m i : Z) (p q : Q)
    (n_max : Z) :
  valid_probs p q → 1 <= par_m → 0 <= i < par_m → 0 <= n_max →
  ∃ pmf_ord pmf_exc,
    hardy_finish_pmf_ij par_m i par_m p q n_max
    = Ok (np_arange 0 (n_max + 1), pmf_ord)
    ∧ hardy_finish_pmf_ij par_m i (par_m + 1) p q n_max
      = Ok (np_arange 0 (n_max + 1), pmf_exc)
    ∧ (Qsum pmf_ord + Qsum pmf_exc <= 1 - q ^ n_max)%Q.
Proof.
  intros Hpq Hpar Hi Hn.
  set (par := Z.to_nat par_m). set (N := Z.to_nat n_max).
  set (i' := Z.to_nat i).
  assert (Epar : par_m = Z.of_nat par) by lia.
  assert (Ei : i = Z.of_nat i') by lia.
  rewrite Epar, Ei.
  pose proof (run_merged par N p q (1 - p - q)%Q (seq 0 N)
                (start N par i') (start (S N) par i') (start (S N) par i'))
    as Hm.
  specialize (Hm ltac:(intros k Hk%elem_of_seq; lia) (start_merged _ _ _)).
  rewrite fmap_S_seq in Hm.
  do 2 eexists.
  split; [apply hardy_finish_pmf_ij_chain; (done || lia || auto)|].
  split; [apply hardy_finish_pmf_ij_chain; (done || lia || auto)|].
  replace (Z.to_nat (n_max + 1)) with (S N) by lia. fold N.
  rewrite <- (merged_total _ _ _ _ Hm).
  - pose proof (run_tail par counts_single p q (seq 0 N) N i' Hpq
                  ltac:(lia)) as T.
    rewrite length_seq in T. unfold N in T at 3.
    by rewrite Z2Nat.id in T by lia.
  - unfold at0. rewrite run_other; [done|].
    intros Hin%elem_of_seq. lia.
  - unfold at0. rewrite run_other; [done|].
    intros Hin%elem_of_seq. lia.
Qed.

Lemma hardy_finish_pmf_ij_both_targets_witness :
  ∃ pmf_ord pmf_exc,
    hardy_finish_pmf_ij 3 1 3 (1#2) (1#4) 4
    = Ok (np_arange 0 (4 + 1), pmf_ord)
    ∧ hardy_finish_pmf_ij 3 1 (3 + 1) (1#2) (1#4) 4
      = Ok (np_arange 0 (4 + 1), pmf_exc)
    ∧ (Qsum pmf_ord + Qsum pmf_exc <= 1 - (1#4) ^ 4)%Q.
Proof.
  apply (hardy_finish_pmf_ij_both_targets 3 1 (1#2) (1#4) 4);
    [valid_probs_here | lia | lia | lia].
Defined.

(** X15. A negative horizon is not validated by either solver, and they
    disagree on it: [hardy_distribution_markov] raises the [ValueError] of
    [np.zeros(n_max)], while [hardy_finish_pmf_ij] returns two empty arrays
    unless [i = j], when its write to [pmf[0]] raises [IndexError]. *)
Theorem negative_horizon (par_m i j : Z) (p q : Q) (n_max : Z) :
  valid_probs p q → 1 <= par_m → 0 <= i <= par_m + 1 →
  j = par_m ∨ j = par_m + 1 → n_max < 0 →
  hardy_distribution_markov par_m p q n_max = Raise ValueError
  ∧ (i ≠ j → hardy_finish_pmf_ij par_m i j p q n_max = Ok ([], []))
  ∧ (i = j → hardy_finish_pmf_ij par_m i j p q n_max = Raise IndexError).
Proof.
  intros Hpq Hpar Hi Hj Hn.
  set (par := Z.to_nat par_m).
  assert (Epar : par_m = Z.of_nat par) by lia.
  rewrite Epar in *. clear Epar. split_and!.
  - unfold hardy_distribution_markov.
    rewrite (proj2 (bad_probs_false p q) Hpq), np_zeros_nat. simpl.
    rewrite (np_set_nat _ 0%nat) by (rewrite length_replicate; lia). simpl.
    unfold np_zeros.
    by replace (n_max <? 0) with true by (symmetry; apply Z.ltb_lt; lia).
  - intros Hne.
    assert (Eempty : np_arange 0 (n_max + 1) = []).
    { unfold np_arange, seqZ. by replace (Z.to_nat (n_max + 1 - 0)) with 0%nat
        by lia. }
    destruct (Z.lt_ge_cases i (Z.of_nat par)) as [Hlt|Hge].
    + replace i with (Z.of_nat (Z.to_nat i)) by lia.
      rewrite hardy_finish_pmf_ij_chain by (done || lia).
      rewrite Eempty. replace (Z.to_nat n_max) with 0%nat by lia.
      by replace (Z.to_nat (n_max + 1)) with 0%nat by lia.
    + rewrite hfp_other_boundary by (done || lia).
      rewrite Eempty. by replace (Z.to_nat (n_max + 1)) with 0%nat by lia.
  - intros ->. by apply hfp_already_there_no_room; (done || lia).
Qed.

Lemma negative_horizon_witness :
  hardy_distribution_markov 3 (1#2) (1#4) (-1) = Raise ValueError
  ∧ (1 ≠ 3 → hardy_finish_pmf_ij 3 1 3 (1#2) (1#4) (-1) = Ok ([], []))
  ∧ (1 = 3 → hardy_finish_pmf_ij 3 1 3 (1#2) (1#4) (-1) = Raise IndexError).
Proof.
  apply (negative_horizon 3 1 3 (1#2) (1#4) (-1));
    [valid_probs_here | lia | lia | left; reflexivity | lia].
Defined.

(** X16. The other unchecked inputs of [hardy_distribution_markov], with
    valid probabilities: a negative [par_m] raises the [ValueError] of
    [np.zeros(par_m)], and the horizon [n_max = 0] with [par_m >= 1] gives
    two empty arrays. *)
Theorem hardy_distribution_markov_unchecked_inputs (par_m : Z) (p q : Q)
    (n_max : Z) :
  valid_probs p q →
  (par_m < 0 → hardy_distribution_markov par_m p q n_max = Raise ValueError)
  ∧ (1 <= par_m → hardy_distribution_markov par_m p q 0 = Ok ([], [])).
Proof.
  intros Hpq. split.
  - intros Hpar. unfold hardy_distribution_markov.
    rewrite (proj2 (bad_probs_false p q) Hpq). unfold np_zeros.
    replace (par_m <? 0) with true by (symmetry; apply Z.ltb_lt; lia).
    reflexivity.
  - intros Hpar. replace par_m with (Z.of_nat (Z.to_nat par_m)) by lia.
    rewrite hardy_distribution_markov_chain by (done || lia). reflexivity.
Qed.

Lemma hardy_distribution_markov_unchecked_inputs_witness :
  (-2 < 0 → hardy_distribution_markov (-2) (1#2) (1#4) 5 = Raise ValueError)
  ∧ (1 <= -2 → hardy_distribution_markov (-2) (1#2) (1#4) 0 = Ok ([], [])).
Proof.
  apply (hardy_distribution_markov_unchecked_inputs (-2) (1#2) (1#4) 5).
  valid_probs_here.
Defined.

(** ** The JavaScript port *)

Lemma array_get_nat (a : list Q) (k : nat) :
  (k < length a)%nat → WebApp.array_get a (Z.of_nat k) = WebApp.Normal (at0 a k).
Proof.
  intros Hk. unfold WebApp.array_get, at0.
  replace (0 <=? Z.of_nat k) with true by (symmetry; apply Z.leb_le; lia).
  rewrite Nat2Z.id. by destruct (lookup_lt_is_Some_2 a k Hk) as [x ->].
Qed.

Lemma array_set_nat (a : list Q) (k : nat) (x : Q) :
  (k < length a)%nat →
  WebApp.array_set a (Z.of_nat k) x = WebApp.Normal (<[k:=x]> a).
Proof.
  intros Hk. unfold WebApp.array_set.
  replace (0 <=? Z.of_nat k) with true by (symmetry; apply Z.leb_le; lia).
  replace (Z.of_nat k <? Z.of_nat (length a)) with true
    by (symmetry; apply Z.ltb_lt; lia).
  simpl. by rewrite Nat2Z.id.
Qed.

Lemma array_add_at_nat (a : list Q) (k : nat) (x : Q) :
  (k < length a)%nat →
  WebApp.array_add_at a (Z.of_nat k) x = WebApp.Normal (add_at a k x).
Proof.
  intros Hk. unfold WebApp.array_add_at. rewrite array_get_nat by done.
  simpl. rewrite array_set_nat by done. by rewrite insert_add_at.
Qed.

Lemma array_zeros_nat (n : nat) :
  Z.of_nat n <= WebApp.max_array_length →
  WebApp.array_zeros (Z.of_nat n) = WebApp.Normal (replicate n 0%Q).
Proof.
  intros Hn. unfold WebApp.array_zeros.
  replace (Z.of_nat n <? 0) with false by (symmetry; apply Z.ltb_ge; lia).
  replace (WebApp.max_array_length <? Z.of_nat n) with false
    by (symmetry; apply Z.ltb_ge; lia).
  simpl. by rewrite Nat2Z.id.
Qed.

Lemma array_iota_nonneg (n : Z) :
  0 <= n <= WebApp.max_array_length →
  WebApp.array_iota n = WebApp.Normal (seqZ 0 n).
Proof.
  intros Hn. unfold WebApp.array_iota. rewrite Z.max_l by lia.
  by replace (WebApp.max_array_length <? n) with false
    by (symmetry; apply Z.ltb_ge; lia).
Qed.

Lemma js_for_foldl {A B S : Type} (Inv : S → Prop)
    (body : B → S → WebApp.completion S) (g : A → B) (f : S → A → S)
    (xs : list A) (st : S) :
  (∀ x st, x ∈ xs → Inv st →
     body (g x) st = WebApp.Normal (f st x) ∧ Inv (f st x)) →
  Inv st →
  WebApp.js_for body (g <$> xs) st = WebApp.Normal (foldl f st xs)
  ∧ Inv (foldl f st xs).
Proof.
  revert st. induction xs as [|x xs IH]; intros st Hbody Hst; [done|].
  simpl. destruct (Hbody x st) as [-> Hst']; [left | done |].
  simpl. apply IH; [|done]. intros y st'' Hy. apply Hbody. by right.
Qed.

Lemma js_state_body_chain par j pg pb po cur k s st :
  length cur = par → (k < length st.1)%nat → length st.2 = par →
  (s < par)%nat →
  WebApp.state_body (Z.of_nat par) j pg pb po cur (Z.of_nat k) (Z.of_nat s) st
  = WebApp.Normal (visit par (counts_dual par j) pg pb po cur k st s).
Proof.
  intros Hcur Hk Hnxt Hs. destruct st as [pmf nxt]. simpl in Hk, Hnxt.
  unfold WebApp.state_body, visit, move, counts_dual.
  rewrite array_get_nat by lia. simpl.
  destruct (Qeq_bool (at0 cur s) 0); [done|].
  nat_subscripts.
  replace (Z.of_nat par + 1) with (Z.of_nat (par + 1)) by lia.
  rewrite !geb_nat, !eqb_nat.
  destruct (Nat.leb_spec (par + 1) (s + 2)) as [H2|H2]; simpl.
  - replace (par <=? s + 2)%nat with true by (symmetry; apply Nat.leb_le; lia).
    replace (par + 1 <=? s + 1)%nat with false
      by (symmetry; apply Nat.leb_gt; lia).
    replace (s + 1 =? par)%nat with true by (symmetry; apply Nat.eqb_eq; lia).
    replace (par <=? s + 1)%nat with true by (symmetry; apply Nat.leb_le; lia).
    destruct (j =? Z.of_nat (par + 1)) eqn:Hj; simpl.
    + rewrite array_add_at_nat by done. simpl.
      destruct (j =? Z.of_nat par) eqn:Hj'; simpl.
      * apply Z.eqb_eq in Hj, Hj'. lia.
      * by rewrite array_add_at_nat by lia.
    + destruct (j =? Z.of_nat par) eqn:Hj'; simpl.
      * rewrite array_add_at_nat by done. simpl.
        by rewrite array_add_at_nat by lia.
      * by rewrite array_add_at_nat by lia.
  - replace (par + 1 <=? s + 1)%nat with false
      by (symmetry; apply Nat.leb_gt; lia).
    destruct (Nat.eqb_spec (s + 2) par) as [H3|H3]; simpl.
    + replace (par <=? s + 2)%nat with true
        by (symmetry; apply Nat.leb_le; lia).
      replace (s + 1 =? par)%nat with false
        by (symmetry; apply Nat.eqb_neq; lia).
      replace (par <=? s + 1)%nat with false
        by (symmetry; apply Nat.leb_gt; lia).
      destruct (j =? Z.of_nat par) eqn:Hj'; simpl.
      * rewrite array_add_at_nat by done. simpl.
        rewrite array_add_at_nat by lia. simpl.
        by rewrite array_add_at_nat by (rewrite length_add_at; lia).
      * rewrite array_add_at_nat by lia. simpl.
        by rewrite array_add_at_nat by (rewrite length_add_at; lia).
    + replace (par <=? s + 2)%nat with false
        by (symmetry; apply Nat.leb_gt; lia).
      replace (s + 1 =? par)%nat with false
        by (symmetry; apply Nat.eqb_neq; lia).
      replace (par <=? s + 1)%nat with false
        by (symmetry; apply Nat.leb_gt; lia).
      rewrite array_add_at_nat by lia. simpl.
      rewrite array_add_at_nat by (rewrite length_add_at; lia). simpl.
      by rewrite array_add_at_nat by (rewrite !length_add_at; lia).
Qed.

(** Copying entry by entry over all subscripts gives the source array. *)
Lemma copy_lookup (b : list Q) ss (a : list Q) n :
  length a = length b →
  foldl (fun a s => <[s:=at0 b s]> a) a ss !! n
  = if decide (n ∈ ss) then b !! n else a !! n.
Proof.
  revert a. induction ss as [|s ss IH]; intros a Hlen.
  - by rewrite decide_False by apply not_elem_of_nil.
  - cbn [foldl]. rewrite IH by by rewrite length_insert.
    destruct (decide (n ∈ ss)) as [Hin|Hin].
    + by rewrite decide_True by by right.
    + destruct (decide (n = s)) as [->|Hne].
      * rewrite decide_True by left.
        destruct (Nat.lt_ge_cases s (length a)) as [Hs|Hs].
        -- rewrite list_lookup_insert_eq by done. unfold at0.
           by destruct (lookup_lt_is_Some_2 b s ltac:(lia)) as [x ->].
        -- rewrite list_insert_ge by done.
           rewrite !lookup_ge_None_2 by lia. done.
      * rewrite decide_False by (intros [?|?]%elem_of_cons; done).
        by rewrite list_lookup_insert_ne.
Qed.

Lemma js_copy_loop par (pNext pState : list Q) :
  length pNext = par → length pState = par →
  WebApp.js_for (WebApp.copy_body pNext) (range 0 (Z.of_nat par)) pState
  = WebApp.Normal pNext.
Proof.
  intros Hn Hs. rewrite range_nat.
  destruct (js_for_foldl (fun a => length a = par) (WebApp.copy_body pNext)
              Z.of_nat (fun a s => <[s:=at0 pNext s]> a) (seq 0 par) pState)
    as [-> Hlen]; [|done|].
  - intros s a Hin%elem_of_seq Ha. split; [|by rewrite length_insert].
    unfold WebApp.copy_body. rewrite array_get_nat by lia. simpl.
    by rewrite array_set_nat by lia.
  - f_equal. apply list_eq. intros n.
    rewrite copy_lookup by lia.
    destruct (decide (n ∈ seq 0 par)) as [Hin|Hin]; [done|].
    assert (Hge : (par <= n)%nat).
    { destruct (Nat.lt_ge_cases n par) as [H|H]; [|done].
      destruct Hin. apply elem_of_seq. lia. }
    rewrite (lookup_ge_None_2 pNext) by lia.
    by rewrite (lookup_ge_None_2 pState) by lia.
Qed.

Lemma js_shot_body_chain par j pg pb po k st :
  Z.of_nat par <= WebApp.max_array_length →
  (k < length st.1)%nat → length st.2 = par →
  WebApp.shot_body (Z.of_nat par) j pg pb po (Z.of_nat k) st
  = WebApp.Normal (advance par (counts_dual par j) pg pb po st k).
Proof.
  intros Hpar Hk Hcur. destruct st as [pmf cur]. simpl in Hk, Hcur.
  unfold WebApp.shot_body, advance. rewrite array_zeros_nat by done.
  rewrite range_nat. simpl.
  destruct (js_for_foldl (sized (length pmf) par)
    (WebApp.state_body (Z.of_nat par) j pg pb po cur (Z.of_nat k)) Z.of_nat
    (visit par (counts_dual par j) pg pb po cur k) (seq 0 par)
    (pmf, replicate par 0%Q)) as [-> [_ Hlen]].
  - intros s st Hs%elem_of_seq [H1 H2]. split.
    + apply js_state_body_chain; lia.
    + by apply visit_sized.
  - split; simpl; [done|]. by rewrite length_replicate.
  - rewrite Hcur.
    destruct (foldl _ _ _) as [pmf' nxt] eqn:E. simpl in Hlen. simpl.
    rewrite <- range_nat, (js_copy_loop par) by done. done.
Qed.

Lemma js_shots_chain par j pg pb po (n : Z) st :
  Z.of_nat par <= WebApp.max_array_length →
  (Z.to_nat n <= length st.1 - 1)%nat → length st.2 = par →
  WebApp.js_for (WebApp.shot_body (Z.of_nat par) j pg pb po)
    (range 1 (n + 1)) st
  = WebApp.Normal
      (run par (counts_dual par j) pg pb po (seq 1 (Z.to_nat n)) st).
Proof.
  intros Hpar Hn Hcur. rewrite range_from_1. unfold run.
  rewrite <- fmap_S_seq, foldl_fmap.
  destruct (js_for_foldl (sized (length st.1) par)
    (WebApp.shot_body (Z.of_nat par) j pg pb po) (fun k => Z.of_nat k + 1)
    (fun st k => advance par (counts_dual par j) pg pb po st (S k))
    (seq 0 (Z.to_nat n)) st) as [-> _]; [| |done].
  - intros k st' Hk%elem_of_seq [H1 H2]. split.
    + replace (Z.of_nat k + 1) with (Z.of_nat (S k)) by lia.
      apply js_shot_body_chain; lia.
    + by apply advance_sized.
  - done.
Qed.

Lemma js_arrays (maxN : Z) :
  0 <= maxN < WebApp.max_array_length →
  WebApp.array_iota (maxN + 1) = WebApp.Normal (seqZ 0 (maxN + 1))
  ∧ WebApp.array_zeros (maxN + 1)
    = WebApp.Normal (replicate (Z.to_nat (maxN + 1)) 0%Q).
Proof.
  intros Hn. split; [apply array_iota_nonneg; lia|].
  replace (maxN + 1) with (Z.of_nat (Z.to_nat (maxN + 1))) at 1 by lia.
  apply array_zeros_nat. lia.
Qed.

(** The three ways a call with valid probabilities ends. *)
Lemma js_already_there parM j p q maxN :
  valid_probs p q → 0 <= maxN < WebApp.max_array_length →
  WebApp.hardyFinishPMF parM j j p q maxN
  = WebApp.Normal (seqZ 0 (maxN + 1), 1%Q :: replicate (Z.to_nat maxN) 0%Q).
Proof.
  intros Hpq%bad_probs_false Hn. unfold WebApp.hardyFinishPMF. rewrite Hpq.
  destruct (js_arrays maxN Hn) as [-> ->]. simpl.
  rewrite Z.eqb_refl.
  replace (Z.to_nat (maxN + 1)) with (S (Z.to_nat maxN)) by lia.
  by rewrite (array_set_nat _ 0%nat) by (simpl; lia).
Qed.

Lemma js_absorbed (par : nat) i j p q maxN :
  valid_probs p q → Z.of_nat par <= WebApp.max_array_length →
  0 <= maxN < WebApp.max_array_length →
  i ≠ j → i < 0 ∨ Z.of_nat par <= i →
  WebApp.hardyFinishPMF (Z.of_nat par) i j p q maxN
  = WebApp.Normal (seqZ 0 (maxN + 1), replicate (Z.to_nat (maxN + 1)) 0%Q).
Proof.
  intros Hpq%bad_probs_false Hpar Hn Hne Hi.
  unfold WebApp.hardyFinishPMF. rewrite Hpq.
  destruct (js_arrays maxN Hn) as [-> ->]. simpl.
  replace (i =? j) with false by (symmetry; apply Z.eqb_neq; lia).
  case_match; [done|].
  rewrite array_zeros_nat by done. simpl.
  replace ((0 <=? i) && (i <=? Z.of_nat par - 1)) with false; [done|].
  symmetry. apply andb_false_iff.
  destruct Hi; [left; apply Z.leb_gt|right; apply Z.leb_gt]; lia.
Qed.

Lemma js_transient (par i : nat) j p q maxN :
  valid_probs p q → Z.of_nat par <= WebApp.max_array_length →
  0 <= maxN < WebApp.max_array_length →
  Z.of_nat i ≠ j → (i < par)%nat →
  WebApp.hardyFinishPMF (Z.of_nat par) (Z.of_nat i) j p q maxN
  = WebApp.Normal
      (seqZ 0 (maxN + 1),
       (run par (counts_dual par j) p q (1 - p - q)%Q
          (seq 1 (Z.to_nat maxN))
          (start (Z.to_nat (maxN + 1)) par i)).1).
Proof.
  intros Hpq%bad_probs_false Hpar Hn Hne Hi.
  unfold WebApp.hardyFinishPMF. rewrite Hpq.
  destruct (js_arrays maxN Hn) as [-> ->]. simpl.
  replace (Z.of_nat i =? j) with false by (symmetry; apply Z.eqb_neq; lia).
  replace (Z.of_nat i =? _) with false
    by (symmetry; apply Z.eqb_neq; case_match; lia).
  rewrite array_zeros_nat by done. simpl.
  replace ((0 <=? Z.of_nat i) && (Z.of_nat i <=? Z.of_nat par - 1)) with true
    by (symmetry; apply andb_true_iff; split; apply Z.leb_le; lia).
  rewrite array_set_nat by (rewrite length_replicate; lia). simpl.
  rewrite js_shots_chain; simpl.
  - unfold start. by destruct (run _ _ _ _ _ _ _).
  - done.
  - rewrite length_replicate. lia.
  - by rewrite length_insert, length_replicate.
Qed.

(** X17. On valid inputs with [0 <= n_max] the JavaScript port
    [hardyFinishPMF] and [hardy_finish_pmf_ij] return the same two
    arrays, entry for entry. *)
Theorem port_agrees (par_m i j : Z) (p q : Q) (n_max : Z) :
  valid_probs p q → 1 <= par_m <= WebApp.max_array_length →
  0 <= i <= par_m + 1 → j = par_m ∨ j = par_m + 1 →
  0 <= n_max < WebApp.max_array_length →
  ∃ n_array pmf,
    hardy_finish_pmf_ij par_m i j p q n_max = Ok (n_array, pmf)
    ∧ WebApp.hardyFinishPMF par_m i j p q n_max = WebApp.Normal (n_array, pmf).
Proof.
  intros Hpq Hpar Hi Hj Hn.
  set (par := Z.to_nat par_m).
  assert (Epar : par_m = Z.of_nat par) by lia.
  rewrite Epar in *. clear Epar.
  assert (Er : np_arange 0 (n_max + 1) = seqZ 0 (n_max + 1)).
  { unfold np_arange. f_equal. lia. }
  destruct (Z.eq_dec i j) as [->|Hne].
  { do 2 eexists. split; [apply hfp_already_there; (done || lia)|].
    rewrite Er. by apply js_already_there. }
  destruct (Z.lt_ge_cases i (Z.of_nat par)) as [Hlt|Hge].
  - assert (Ei : i = Z.of_nat (Z.to_nat i)) by lia. rewrite Ei in *.
    do 2 eexists.
    split; [apply hardy_finish_pmf_ij_chain; (done || lia)|].
    rewrite Er. apply js_transient; (done || lia).
  - do 2 eexists. split; [apply hfp_other_boundary; (done || lia)|].
    rewrite Er. apply js_absorbed; (done || lia || auto).
Qed.

Lemma port_agrees_witness :
  ∃ n_array pmf,
    hardy_finish_pmf_ij 3 0 3 (2#5) (1#10) 15 = Ok (n_array, pmf)
    ∧ WebApp.hardyFinishPMF 3 0 3 (2#5) (1#10) 15
      = WebApp.Normal (n_array, pmf).
Proof.
  apply (port_agrees 3 0 3 (2#5) (1#10) 15);
    [valid_probs_here | unfold WebApp.max_array_length; lia | lia
    | left; reflexivity | unfold WebApp.max_array_length; lia].
Defined.

(** X18. On invalid probabilities the two differ: the port returns two
    empty arrays where [hardy_finish_pmf_ij] raises [ValueError]. *)
Theorem port_invalid_probs (par_m i j : Z) (p q : Q) (n_max : Z) :
  (p < 0)%Q ∨ (q < 0)%Q ∨ (1 <= p + q)%Q →
  WebApp.hardyFinishPMF par_m i j p q n_max = WebApp.Normal ([], [])
  ∧ hardy_finish_pmf_ij par_m i j p q n_max = Raise ValueError.
Proof.
  intros H. split.
  - apply bad_probs_true in H. unfold WebApp.hardyFinishPMF. by rewrite H.
  - apply hardy_finish_pmf_ij_rejects. tauto.
Qed.

Lemma port_invalid_probs_witness :
  WebApp.hardyFinishPMF 3 0 3 (1#2) (3#5) 15 = WebApp.Normal ([], [])
  ∧ hardy_finish_pmf_ij 3 0 3 (1#2) (3#5) 15 = Raise ValueError.
Proof.
  apply (port_invalid_probs 3 0 3 (1#2) (3#5) 15).
  right. right. unfold Qle. simpl. lia.
Defined.

(** What every successful call of the port with [parM >= 0] and
    [maxN >= 0] returns, for any integers [i] and [j]. *)
Lemma js_result_facts (parM i j : Z) (p q : Q) (maxN : Z) :
  valid_probs p q → 0 <= parM <= WebApp.max_array_length →
  0 <= maxN < WebApp.max_array_length →
  ∃ pmf,
    WebApp.hardyFinishPMF parM i j p q maxN
    = WebApp.Normal (seqZ 0 (maxN + 1), pmf)
    ∧ length pmf = Z.to_nat (maxN + 1)
    ∧ nonneg pmf ∧ (Qsum pmf <= 1)%Q.
Proof.
  intros Hpq Hpar Hn.
  destruct (valid_probs_chain p q Hpq) as (Hp & Hq & Ho & Hsum).
  set (par := Z.to_nat parM).
  assert (Epar : parM = Z.of_nat par) by lia.
  rewrite Epar in *. clear Epar.
  destruct (Z.eq_dec i j) as [->|Hne].
  { rewrite js_already_there by done. eexists. split; [done|]. split_and!.
    - simpl. rewrite length_replicate. lia.
    - constructor; [lra|apply nonneg_replicate_0].
    - rewrite Qsum_cons, Qsum_replicate_0. lra. }
  destruct (decide (0 <= i < Z.of_nat par)) as [Hi|Hi].
  - assert (Ei : i = Z.of_nat (Z.to_nat i)) by lia. rewrite Ei in *.
    rewrite js_transient by (done || lia).
    eexists. split; [done|].
    set (N := Z.to_nat (maxN + 1)).
    set (st0 := start N par (Z.to_nat i)).
    set (ks := seq 1 (Z.to_nat maxN)).
    destruct (run_sized par (counts_dual par j) p q (1 - p - q)%Q N par ks
                st0 (start_sized _ _ _)) as [Hlen _].
    destruct (run_nonneg par (counts_dual par j) p q (1 - p - q)%Q Hp Hq Ho
                ks st0 (start_nonneg _ _ _)) as [Hpos Hpos'].
    pose proof (run_mass_le par (counts_dual par j) p q (1 - p - q)%Q
                  Hp Hq Ho Hsum ks st0 (start_nonneg _ _ _)) as M.
    unfold st0 in M at 2. rewrite mass_start in M by lia.
    split_and!; [done|done|].
    pose proof (Qsum_nonneg _ Hpos'). unfold mass in M. lra.
  - rewrite js_absorbed by (done || lia).
    eexists. split; [done|]. split_and!.
    + by rewrite length_replicate.
    + apply nonneg_replicate_0.
    + rewrite Qsum_replicate_0. lra.
Qed.

(** X19. The port validates neither [i] nor [j]: for valid
    probabilities, [parM >= 0] and [maxN >= 0] it never throws, whatever
    integers [i] and [j] are, and what it returns is the steps
    [0..maxN] with a pmf of [maxN + 1] entries; run on exact rationals,
    the entries are non-negative and of sum at most 1. *)
Theorem port_total (parM i j : Z) (p q : Q) (maxN : Z) :
  valid_probs p q → 0 <= parM <= WebApp.max_array_length →
  0 <= maxN < WebApp.max_array_length →
  ∃ pmf,
    WebApp.hardyFinishPMF parM i j p q maxN
    = WebApp.Normal (seqZ 0 (maxN + 1), pmf)
    ∧ length pmf = Z.to_nat (maxN + 1)
    ∧ nonneg pmf ∧ (Qsum pmf <= 1)%Q.
Proof. apply js_result_facts. Qed.

Lemma port_total_witness :
  ∃ pmf,
    WebApp.hardyFinishPMF 3 7 (-2) (2#5) (1#10) 5
    = WebApp.Normal (seqZ 0 (5 + 1), pmf)
    ∧ length pmf = Z.to_nat (5 + 1)
    ∧ nonneg pmf ∧ (Qsum pmf <= 1)%Q.
Proof.
  apply (port_total 3 7 (-2) (2#5) (1#10) 5);
    [valid_probs_here | unfold WebApp.max_array_length; lia
    | unfold WebApp.max_array_length; lia].
Defined.

(** X20. In the port a start that is neither the target nor a transient
    state gives the all-zero pmf: this covers the other boundary, but also
    every start below 0 or above [parM + 1], which [hardy_finish_pmf_ij]
    rejects with [ValueError]. *)
Theorem port_start_off_chain (parM i j : Z) (p q : Q) (maxN : Z) :
  valid_probs p q → 0 <= parM <= WebApp.max_array_length →
  0 <= maxN < WebApp.max_array_length →
  i ≠ j → i < 0 ∨ parM <= i →
  WebApp.hardyFinishPMF parM i j p q maxN
  = WebApp.Normal (seqZ 0 (maxN + 1), replicate (Z.to_nat (maxN + 1)) 0%Q)
  ∧ (i < 0 ∨ parM + 1 < i →
     hardy_finish_pmf_ij parM i j p q maxN = Raise ValueError).
Proof.
  intros Hpq Hpar Hn Hne Hi. split.
  - replace parM with (Z.of_nat (Z.to_nat parM)) in * by lia.
    apply js_absorbed; (done || lia).
  - intros Hout. apply hardy_finish_pmf_ij_rejects. tauto.
Qed.

Lemma port_start_off_chain_witness :
  WebApp.hardyFinishPMF 3 5 3 (2#5) (1#10) 5
  = WebApp.Normal (seqZ 0 (5 + 1), replicate (Z.to_nat (5 + 1)) 0%Q)
  ∧ (5 < 0 ∨ 3 + 1 < 5 →
     hardy_finish_pmf_ij 3 5 3 (2#5) (1#10) 5 = Raise ValueError).
Proof.
  apply (port_start_off_chain 3 5 3 (2#5) (1#10) 5);
    [valid_probs_here | unfold WebApp.max_array_length; lia
    | unfold WebApp.max_array_length; lia | lia | right; lia].
Defined.

(** ** The statistics of the dashboard *)

Lemma reduce_total_from (a : list Q) (sum : Q) :
  (foldl (fun sum prob => sum + prob) sum a == sum + Qsum a)%Q.
Proof.
  revert sum. induction a as [|x a IH]; intros sum.
  - change (sum == sum + 0)%Q. lra.
  - cbn [foldl]. rewrite IH, Qsum_cons. lra.
Qed.

Lemma reduce_total_Qsum (a : list Q) : (WebApp.reduce_total a == Qsum a)%Q.
Proof. unfold WebApp.reduce_total. rewrite reduce_total_from. lra. Qed.

(** The weighted sum over the entries [rest] that follow [pre]: every
    weight is a subscript, so at most [B]. *)
Lemma reduce_mean_bounds (pre rest : list Q) (sum : Q) (B : Z) :
  nonneg rest → Z.of_nat (length pre + length rest) <= B + 1 →
  ∃ m,
    WebApp.reduce_mean (pre ++ rest) (Z.of_nat (length pre))
      (seqZ (Z.of_nat (length pre)) (Z.of_nat (length rest))) sum
    = WebApp.Normal m
    ∧ (sum <= m)%Q ∧ (m <= sum + inject_Z B * Qsum rest)%Q.
Proof.
  intros Hrest. revert pre sum.
  induction Hrest as [|x rest Hx Hrest IH]; intros pre sum HB.
  - exists sum. split; [done|]. change (Qsum []) with 0%Q. lra.
  - rewrite seqZ_cons by (simpl; lia). cbn [WebApp.reduce_mean].
    replace (WebApp.array_get (pre ++ x :: rest) (Z.of_nat (length pre)))
      with (WebApp.Normal x).
    2:{ symmetry. rewrite array_get_nat by (rewrite length_app; simpl; lia).
        unfold at0. by rewrite list_lookup_middle. }
    simpl mbind.
    specialize (IH (pre ++ [x])
                  (sum + inject_Z (Z.of_nat (length pre)) * x)%Q).
    rewrite length_app in IH. simpl length in IH.
    specialize (IH ltac:(simpl in HB; lia)).
    destruct IH as (m & Hm & Hlo & Hhi).
    exists m. split.
    + rewrite <- Hm, <- app_assoc. simpl app.
      replace (Z.of_nat (length pre + 1)) with (Z.of_nat (length pre) + 1)
        by lia.
      replace (Z.succ (Z.of_nat (length pre)))
        with (Z.of_nat (length pre) + 1) by lia.
      replace (Z.pred (Z.of_nat (S (length rest))))
        with (Z.of_nat (length rest)) by lia.
      done.
    + assert (Hk : (0 <= inject_Z (Z.of_nat (length pre)))%Q)
        by apply inject_nat_nonneg.
      assert (HkB : (inject_Z (Z.of_nat (length pre)) <= inject_Z B)%Q).
      { rewrite <- Zle_Qle. simpl in HB. lia. }
      assert (H1 : (0 <= inject_Z (Z.of_nat (length pre)) * x)%Q)
        by by apply Qmult_le_0_compat.
      assert (H2 : (inject_Z (Z.of_nat (length pre)) * x <= inject_Z B * x)%Q)
        by by apply Qmult_le_compat_r.
      rewrite Qsum_cons.
      assert (E : (inject_Z B * (x + Qsum rest)
                   == inject_Z B * x + inject_Z B * Qsum rest)%Q) by ring.
      split; lra.
Qed.

Lemma distribution_facts (p q : Q) (startState nMax parM : Z) :
  valid_probs p q → 0 <= parM <= WebApp.max_array_length →
  0 <= nMax < WebApp.max_array_length →
  ∃ d,
    WebApp.distribution p q startState nMax parM = WebApp.Normal d
    ∧ WebApp.parM d = parM
    ∧ WebApp.nArray d = seqZ 0 (nMax + 1)
    ∧ length (WebApp.pmf d) = Z.to_nat (nMax + 1)
    ∧ (0 <= WebApp.totalProb d)%Q ∧ (WebApp.totalProb d <= 1)%Q
    ∧ (0 <= WebApp.meanShots d)%Q
    ∧ (WebApp.meanShots d <= inject_Z nMax * WebApp.totalProb d)%Q.
Proof.
  intros Hpq Hpar Hn.
  destruct (js_result_facts parM startState parM p q nMax Hpq Hpar Hn)
    as (pmf & Hrun & Hlen & Hpos & Hsum).
  unfold WebApp.distribution. rewrite Hrun. simpl mbind.
  destruct (reduce_mean_bounds [] pmf 0%Q nMax Hpos) as (m & Hm & Hlo & Hhi).
  { simpl. lia. }
  cbn [app length] in Hm. change (Z.of_nat 0) with 0 in Hm.
  rewrite Hlen, Z2Nat.id in Hm by lia. rewrite Hm.
  eexists. split; [done|]. cbn.
  pose proof (reduce_total_Qsum pmf) as Et.
  pose proof (Qsum_nonneg pmf Hpos).
  split_and!; try done; try lra.
  rewrite Et. lra.
Qed.

(** X21. For valid probabilities and a horizon [nMax >= 0],
    [distributions] has one entry for each of the pars 3, 4, 5, whatever
    the start state; each holds the steps [0..nMax] and a pmf of
    [nMax + 1] entries; computed on exact rationals,
    [0 <= totalProb <= 1] and [0 <= meanShots <= nMax * totalProb]. *)
Theorem distributions_statistics (p q : Q) (startState nMax : Z) :
  valid_probs p q → 0 <= nMax < WebApp.max_array_length →
  ∃ ds,
    WebApp.distributions p q startState nMax = WebApp.Normal ds
    ∧ WebApp.parM <$> ds = [3; 4; 5]
    ∧ Forall (fun d =>
        WebApp.nArray d = seqZ 0 (nMax + 1)
        ∧ length (WebApp.pmf d) = Z.to_nat (nMax + 1)
        ∧ (0 <= WebApp.totalProb d)%Q ∧ (WebApp.totalProb d <= 1)%Q
        ∧ (0 <= WebApp.meanShots d)%Q
        ∧ (WebApp.meanShots d <= inject_Z nMax * WebApp.totalProb d)%Q) ds.
Proof.
  intros Hpq Hn. unfold WebApp.distributions. cbn [WebApp.array_map].
  destruct (distribution_facts p q startState nMax 3 Hpq) as (d3 & -> & E3 & F3);
    [unfold WebApp.max_array_length; lia|done|].
  destruct (distribution_facts p q startState nMax 4 Hpq) as (d4 & -> & E4 & F4);
    [unfold WebApp.max_array_length; lia|done|].
  destruct (distribution_facts p q startState nMax 5 Hpq) as (d5 & -> & E5 & F5);
    [unfold WebApp.max_array_length; lia|done|].
  exists [d3; d4; d5]. split; [done|]. split.
  - simpl. by rewrite E3, E4, E5.
  - repeat constructor; tauto.
Qed.

Lemma distributions_statistics_witness :
  ∃ ds,
    WebApp.distributions (2#5) (1#10) 0 15 = WebApp.Normal ds
    ∧ WebApp.parM <$> ds = [3; 4; 5]
    ∧ Forall (fun d =>
        WebApp.nArray d = seqZ 0 (15 + 1)
        ∧ length (WebApp.pmf d) = Z.to_nat (15 + 1)
        ∧ (0 <= WebApp.totalProb d)%Q ∧ (WebApp.totalProb d <= 1)%Q
        ∧ (0 <= WebApp.meanShots d)%Q
        ∧ (WebApp.meanShots d <= inject_Z 15 * WebApp.totalProb d)%Q) ds.
Proof.
  apply (distributions_statistics (2#5) (1#10) 0 15);
    [valid_probs_here | unfold WebApp.max_array_length; lia].
Defined.

(** X22. When the check [isValidParams] of the page fails,
    [distributions] still has its three entries, each with empty arrays
    and with [meanShots] and [totalProb] equal to 0. *)
Theorem distributions_invalid (p q : Q) (startState nMax : Z) :
  WebApp.isValidParams p q = false →
  ∃ ds,
    WebApp.distributions p q startState nMax = WebApp.Normal ds
    ∧ ds = (fun parM => WebApp.mkDistribution parM [] [] 0 0) <$> [3; 4; 5].
Proof.
  intros Hinv.
  assert (Hbad : bad_probs p q = true).
  { unfold WebApp.isValidParams in Hinv. unfold bad_probs, Qltb in *.
    destruct (Qle_bool 0 p), (Qle_bool 0 q), (Qle_bool 1 (p + q)); done. }
  unfold WebApp.distributions, WebApp.distribution, WebApp.hardyFinishPMF.
  rewrite Hbad. eexists. split; reflexivity.
Qed.

Lemma distributions_invalid_witness :
  ∃ ds,
    WebApp.distributions (1#2) (3#5) 0 15 = WebApp.Normal ds
    ∧ ds = (fun parM => WebApp.mkDistribution parM [] [] 0 0) <$> [3; 4; 5].
Proof.
  apply (distributions_invalid (1#2) (3#5) 0 15). reflexivity.
Defined.

(** X23. A negative horizon in the port, with valid probabilities:
    [maxN < -1] throws [RangeError] from [new Array(maxN + 1)]; with
    [maxN = -1] and [i = j] the write [pmf[0] = 1.0] extends the empty
    array, so the port returns no steps and the one-entry pmf [[1]], where
    [hardy_finish_pmf_ij] raises [IndexError]. *)
Theorem port_negative_horizon (parM i j : Z) (p q : Q) (maxN : Z) :
  valid_probs p q →
  (maxN < -1 →
   WebApp.hardyFinishPMF parM i j p q maxN = WebApp.Throw WebApp.RangeError)
  ∧ (maxN = -1 → i = j →
     WebApp.hardyFinishPMF parM i j p q maxN = WebApp.Normal ([], [1%Q])).
Proof.
  intros Hpq%bad_probs_false. unfold WebApp.hardyFinishPMF. rewrite Hpq.
  unfold WebApp.array_iota, WebApp.array_zeros. split.
  - intros Hn. rewrite Z.max_r by lia.
    replace (maxN + 1 <? 0) with true by (symmetry; apply Z.ltb_lt; lia).
    reflexivity.
  - intros -> ->. simpl. by rewrite Z.eqb_refl.
Qed.

Lemma port_negative_horizon_witness :
  (-1 < -1 →
   WebApp.hardyFinishPMF 3 3 3 (2#5) (1#10) (-1)
   = WebApp.Throw WebApp.RangeError)
  ∧ (-1 = -1 → 3 = 3 →
     WebApp.hardyFinishPMF 3 3 3 (2#5) (1#10) (-1)
     = WebApp.Normal ([], [1%Q])).
Proof.
  apply (port_negative_horizon 3 3 3 (2#5) (1#10) (-1)). valid_probs_here.
Defined.

(** * Rounding

    The exact reading and the [float64] run of the solvers, side by
    side. *)

Lemma exact_hardy_distribution_markov par_m p q n_max :
  Generic.hardy_distribution_markov exact par_m p q n_max
  = hardy_distribution_markov par_m p q n_max.
Proof. reflexivity. Qed.

Lemma exact_hardy_finish_pmf_ij par_m i j p q n_max :
  Generic.hardy_finish_pmf_ij exact par_m i j p q n_max
  = hardy_finish_pmf_ij par_m i j p q n_max.
Proof. reflexivity. Qed.

Set Warnings "-inexact-float".



(** C3 as stated fails on [float64].  At [par = 4], [p = 0.4],
    [q = 0.1] the entry of step 3 of [hardy_distribution_markov] is
    [0.49200000000000005]; the entries of subscript 3 of
    [hardy_finish_pmf_ij] for the targets 4 and 5 are
    [0.33200000000000007] and [0.16000000000000003], whose sum is
    another number, added in [float64] or exactly: the single solver adds
    the same three products in another order. *)
Lemma single_boundary_rounds_apart :
  ∃ pmf pmf_ord pmf_exc x y z vx vy vz,
    Binary64.hardy_distribution_markov 4 0.4 0.1 3
    = Ok (np_arange 1 (3 + 1), pmf)
    ∧ Binary64.hardy_finish_pmf_ij 4 0 4 0.4 0.1 3
      = Ok (np_arange 0 (3 + 1), pmf_ord)
    ∧ Binary64.hardy_finish_pmf_ij 4 0 (4 + 1) 0.4 0.1 3
      = Ok (np_arange 0 (3 + 1), pmf_exc)
    ∧ pmf !! 2%nat = Some x
    ∧ pmf_ord !! 3%nat = Some y
    ∧ pmf_exc !! 3%nat = Some z
    ∧ (x =? y + z)%float = false
    ∧ Binary64.value x = Some vx
    ∧ Binary64.value y = Some vy
    ∧ Binary64.value z = Some vz
    ∧ ¬ (vx == vy + vz)%Q.
Proof.
  eexists _, _, _, _, _, _, _, _, _.
  split; [vm_compute; reflexivity|].
  split; [vm_compute; reflexivity|].
  split; [vm_compute; reflexivity|].
  split; [reflexivity|]. split; [reflexivity|]. split; [reflexivity|].
  split; [vm_compute; reflexivity|].
  split; [vm_compute; reflexivity|].
  split; [vm_compute; reflexivity|].
  split; [vm_compute; reflexivity|].
  vm_compute. discriminate.
Qed.

(** ** Which mass the dual-boundary pmf holds *)



